(** * webmerge: the diff / alignment / patch engine of [src/App.jsx]

    A shallow embedding of [computeLCS], [computeLineDiff],
    [computeViewZones] and [generateUnifiedPatch], and the properties
    the specification states about them.

    Conventions of the embedding.
    - A JavaScript array is a [list]; [a[i]] is the lookup [a !! i], an
      [option]: [None] stands for [undefined] (an index out of range) and,
      in a diff entry, for [null]. The loops of [computeLineDiff] read no
      index out of range ([computeLineDiff_Script] below), so the two are
      never confused in its entries.
    - A JavaScript string is a [string]: a sequence of code units below 256.
    - The numbers of the program are line counts and indices; they are [nat].
    - A [while] or [for] loop is a recursive function or a fold over the
      values of its counter; [push] appends, [unshift] prepends. *)

From Stdlib Require Import Ascii DecimalString DecimalNat.
From Stdlib Require String.
From stdpp Require Import base list sorting strings.
From Equations Require Import Equations.

Open Scope nat_scope.

(** ** Sequence Matcher: [computeLCS] *)

Section Matcher.
Context {K : Type} `{EqDecision K}.

(** One element of the returned array:
    [{ leftIndex: i - 1, rightIndex: j - 1, value: left[i - 1] }]. *)
Record LcsMatch := mkMatch {
  leftIndex : nat;
  rightIndex : nat;
  value : option K;
}.

(** [dp[i][j]], the table being an array of rows. *)
Definition dpGet (dp : list (list nat)) (i j : nat) : nat :=
  default 0 (dp !! i ≫= λ row, row !! j).

(** [dp[i][j] = v]. *)
Definition dpSet (dp : list (list nat)) (i j v : nat) : list (list nat) :=
  alter (λ row, <[j := v]> row) i dp.

(** [left[i] === right[j]]. *)
Definition keyEq (left right : list K) (i j : nat) : bool :=
  bool_decide (left !! i = right !! j).

(** The body of the inner [for] loop (lines 16-20). *)
Definition fillCell (left right : list K) (dp : list (list nat)) (i j : nat)
    : list (list nat) :=
  if keyEq left right (i - 1) (j - 1)
  then dpSet dp i j (dpGet dp (i - 1) (j - 1) + 1)
  else dpSet dp i j (dpGet dp (i - 1) j `max` dpGet dp i (j - 1)).

(** [Array(m + 1).fill(null).map(() => Array(n + 1).fill(0))] followed by
    the two nested [for] loops. *)
Definition fillTable (left right : list K) : list (list nat) :=
  let m := length left in
  let n := length right in
  foldl (λ dp i, foldl (λ dp j, fillCell left right dp i j) dp (seq 1 n))
        (replicate (m + 1) (replicate (n + 1) 0))
        (seq 1 m).

(** The [while (i > 0 && j > 0)] loop (lines 26-36). [lcs.unshift(x)] puts
    [x] in front of the list. Every iteration decrements [i], [j] or both,
    which is the recursion: on [i], and inside one value of [i], on [j]. *)
Fixpoint backtrack (left right : list K) (dp : list (list nat)) (i : nat)
    : nat → list LcsMatch → list LcsMatch :=
  match i with
  | 0 => λ _ lcs, lcs
  | S i' =>
    fix backtrack_j (j : nat) (lcs : list LcsMatch) : list LcsMatch :=
      match j with
      | 0 => lcs
      | S j' =>
        if keyEq left right i' j'
        then backtrack left right dp i' j'
               (mkMatch i' j' (left !! i') :: lcs)
        else if bool_decide (dpGet dp (S i') j' < dpGet dp i' (S j'))
        then (* dp[i - 1][j] > dp[i][j - 1] *)
             backtrack left right dp i' (S j') lcs
        else backtrack_j j' lcs
      end
  end.

Definition computeLCS (left right : list K) : list LcsMatch :=
  backtrack left right (fillTable left right) (length left) (length right) [].

(** *** Reference definitions, from the specification's words *)

(** [s] is a common subsequence of [l] and [r], and none is longer. *)
Definition IsLcsLength (l r : list K) (k : nat) : Prop :=
  (∃ s, s `sublist_of` l ∧ s `sublist_of` r ∧ length s = k) ∧
  (∀ s, s `sublist_of` l → s `sublist_of` r → length s ≤ k).

(** The length table of the classic dynamic programme: [lcsLen l r i j] is
    the entry for the first [i] keys of [l] and the first [j] keys of [r]. *)
Fixpoint lcsLen (left right : list K) (i : nat) : nat → nat :=
  match i with
  | 0 => λ _, 0
  | S i' =>
    fix lcsLen_j (j : nat) : nat :=
      match j with
      | 0 => 0
      | S j' =>
        if keyEq left right i' j'
        then lcsLen left right i' j' + 1
        else lcsLen left right i' (S j') `max` lcsLen_j j'
      end
  end.

(** The selection rule of section 4.1: from [(i, j)], step diagonally on
    equal keys; otherwise move toward the larger neighbouring length; on an
    exact tie decrement the right-sequence index. *)
Fixpoint selectLCS (left right : list K) (i : nat)
    : nat → list LcsMatch → list LcsMatch :=
  match i with
  | 0 => λ _ acc, acc
  | S i' =>
    fix selectLCS_j (j : nat) (acc : list LcsMatch) : list LcsMatch :=
      match j with
      | 0 => acc
      | S j' =>
        if keyEq left right i' j'
        then selectLCS left right i' j' (mkMatch i' j' (left !! i') :: acc)
        else
          match lcsLen left right i' (S j') ?= lcsLen left right (S i') j' with
          | Gt => selectLCS left right i' (S j') acc
          | Lt => selectLCS_j j' acc
          | Eq => selectLCS_j j' acc
          end
      end
  end.

(** *** Invariants of the table and of the matches *)

(** The table has [m + 1] rows of [n + 1] cells. *)
Definition dpShape (m n : nat) (dp : list (list nat)) : Prop :=
  length dp = m + 1 ∧ Forall (λ row, length row = n + 1) dp.

(** The cells filled when the loops are at row [a], column [b]: the rows
    above, this row up to [b], and column 0, which is never written. *)
Definition filled (left right : list K) (a b : nat) (dp : list (list nat))
    : Prop :=
  dpShape (length left) (length right) dp ∧
  ∀ i j, i ≤ length left → j ≤ length right →
    i < a ∨ (i = a ∧ j ≤ b) ∨ j = 0 →
    dpGet dp i j = lcsLen left right i j.

(** A match lies inside the first [i] and [j] keys and pairs equal keys. *)
Definition matchOk (left right : list K) (i j : nat) (p : LcsMatch) : Prop :=
  leftIndex p < i ∧ rightIndex p < j ∧
  ∃ x, value p = Some x ∧ left !! leftIndex p = Some x
       ∧ right !! rightIndex p = Some x.

(** [p] comes before [q] on both sides. *)
Definition matchLt (p q : LcsMatch) : Prop :=
  leftIndex p < leftIndex q ∧ rightIndex p < rightIndex q.

End Matcher.
Arguments LcsMatch : clear implicits.


(** ** Strings *)

(** The white space of [\s] and of [trim()] among the code units below 256:
    tab, line feed, vertical tab, form feed, carriage return, space and the
    no-break space. *)
Definition isWhiteSpace (c : ascii) : bool :=
  let n := nat_of_ascii c in
  (n =? 9) || (n =? 10) || (n =? 11) || (n =? 12) || (n =? 13) || (n =? 32)
  || (n =? 160).

Fixpoint trimStart (s : string) : string :=
  match s with
  | EmptyString => EmptyString
  | String c s' => if isWhiteSpace c then trimStart s' else s
  end.

Fixpoint trimEnd (s : string) : string :=
  match s with
  | EmptyString => EmptyString
  | String c s' =>
    match trimEnd s' with
    | EmptyString => if isWhiteSpace c then EmptyString else String c EmptyString
    | t => String c t
    end
  end.

(** [s.trim()]. *)
Definition trim (s : string) : string := trimEnd (trimStart s).

(** [s.replace(/\s+/g, ' ')]: [inRun] tells that the previous code unit was
    white space, whose run has already been replaced. *)
Fixpoint collapseFrom (inRun : bool) (s : string) : string :=
  match s with
  | EmptyString => EmptyString
  | String c s' =>
    if isWhiteSpace c
    then if inRun then collapseFrom true s'
         else String " "%char (collapseFrom true s')
    else String c (collapseFrom false s')
  end.

Definition collapseWhiteSpace (s : string) : string := collapseFrom false s.

(** [toLowerCase()] on one code unit below 256: A-Z and the accented capitals
    192-222 (without the multiplication sign 215) move up by 32. Among these
    code units the lowering of one does not depend on its neighbours; text
    that JavaScript lowers by context (a final sigma) is no [string] of this
    embedding, and the properties stated for all inputs use of [toLowerCase]
    only that it is a function of the key it is applied to. *)
Definition lowerChar (c : ascii) : ascii :=
  let n := nat_of_ascii c in
  if ((65 <=? n) && (n <=? 90)) || ((192 <=? n) && (n <=? 222) && negb (n =? 215))
  then ascii_of_nat (n + 32)
  else c.

Fixpoint toLowerCase (s : string) : string :=
  match s with
  | EmptyString => EmptyString
  | String c s' => String (lowerChar c) (toLowerCase s')
  end.

(** A string used as a condition: the empty string is falsy. *)
Definition truthy (s : string) : bool :=
  match s with EmptyString => false | String _ _ => true end.

Definition newline : ascii := "010"%char.

(** [s.split('\n')]: never empty, the empty string gives one empty line. *)
Fixpoint splitLines (s : string) : list string :=
  match s with
  | EmptyString => [EmptyString]
  | String c s' =>
    if Ascii.eqb c newline then EmptyString :: splitLines s'
    else match splitLines s' with
         | line :: lines => String c line :: lines
         | [] => [String c EmptyString]
         end
  end.

(** [lines.join('\n')]. *)
Definition joinLines (lines : list string) : string :=
  String.concat (String newline EmptyString) lines.

(** A number inside a template literal: its decimal digits. *)
Definition showNat (n : nat) : string :=
  NilEmpty.string_of_uint (Nat.to_uint n).

(** ** Line Differencer and Block Merger: [computeLineDiff] *)

Inductive EntryType := unchanged | deleted | added | modified.

Global Instance EntryType_eq_dec : EqDecision EntryType.
Proof. solve_decision. Defined.

(** A diff entry, one shape with nullable fields as the program has it. *)
Record DiffEntry := mkEntry {
  type : EntryType;
  leftLine : option string;
  leftLineNum : option nat;
  rightLine : option string;
  rightLineNum : option nat;
}.

(** [options]: a field that is absent is falsy. *)
Record Options := mkOptions {
  ignoreWhitespace : bool;
  ignoreCase : bool;
  ignoreBlankLines : bool;
}.

(** [options = {}]. *)
Definition defaultOptions : Options := mkOptions false false false.

Definition processLine (o : Options) (line : string) : string :=
  let processed := line in
  let processed :=
    if ignoreWhitespace o then trim (collapseWhiteSpace processed)
    else processed in
  let processed := if ignoreCase o then toLowerCase processed else processed in
  processed.

(** [lines.forEach((line, i) => { if (line.trim()) { filtered.push(line);
    mapping.push(i); } })], the lines being numbered from [i]. *)
Fixpoint filterBlank (i : nat) (lines : list string) : list string * list nat :=
  match lines with
  | [] => ([], [])
  | line :: rest =>
    let '(filtered, mapping) := filterBlank (S i) rest in
    if truthy (trim line) then (line :: filtered, i :: mapping)
    else (filtered, mapping)
  end.

(** [leftFiltered] and [leftMapping] (lines 55-77). *)
Definition filterLines (o : Options) (lines : list string)
    : list string * list nat :=
  if ignoreBlankLines o then filterBlank 0 lines
  else (lines, seq 0 (length lines)).

Section RawDiff.
Variables leftFiltered rightFiltered : list string.
Variables leftMapping rightMapping : list nat.

(** [leftMapping[leftIdx] + 1]. *)
Definition lineNum (mapping : list nat) (idx : nat) : option nat :=
  (λ k, k + 1) <$> mapping !! idx.

Definition deletedAt (leftIdx : nat) : DiffEntry :=
  mkEntry deleted (leftFiltered !! leftIdx) (lineNum leftMapping leftIdx)
          None None.

Definition addedAt (rightIdx : nat) : DiffEntry :=
  mkEntry added None None
          (rightFiltered !! rightIdx) (lineNum rightMapping rightIdx).

Definition unchangedAt (leftIdx rightIdx : nat) : DiffEntry :=
  mkEntry unchanged
          (leftFiltered !! leftIdx) (lineNum leftMapping leftIdx)
          (rightFiltered !! rightIdx) (lineNum rightMapping rightIdx).

(** [while (idx < stop) { result.push(mk(idx)); idx++; }]: the entries
    pushed, for [idx], [idx + 1], ... below [stop]. *)
Definition pushWhileBelow (mk : nat → DiffEntry) (idx stop : nat)
    : list DiffEntry :=
  mk <$> seq idx (stop - idx).

(** The main loop (lines 88-147), as the entries it pushes from the state
    [(leftIdx, rightIdx)] with the matches from [lcsIdx] on still to come.
    An iteration with a match left consumes it; the iteration without one
    drains both sides, after which the loop condition is false. *)
Fixpoint rawDiff (lcs : list (LcsMatch string)) (leftIdx rightIdx : nat)
    : list DiffEntry :=
  if bool_decide (leftIdx < length leftFiltered)
     || bool_decide (rightIdx < length rightFiltered)
  then
    match lcs with
    | match_ :: lcs' =>
      let dels := pushWhileBelow deletedAt leftIdx (leftIndex match_) in
      let leftIdx := leftIdx `max` leftIndex match_ in
      let adds := pushWhileBelow addedAt rightIdx (rightIndex match_) in
      let rightIdx := rightIdx `max` rightIndex match_ in
      dels ++ adds ++ unchangedAt leftIdx rightIdx
           :: rawDiff lcs' (leftIdx + 1) (rightIdx + 1)
    | [] =>
      pushWhileBelow deletedAt leftIdx (length leftFiltered)
      ++ pushWhileBelow addedAt rightIdx (length rightFiltered)
    end
  else [].
End RawDiff.

Definition isType (t : EntryType) (e : DiffEntry) : bool :=
  bool_decide (type e = t).

Fixpoint takeWhile {A} (p : A → bool) (l : list A) : list A :=
  match l with
  | x :: l' => if p x then x :: takeWhile p l' else []
  | [] => []
  end.

Fixpoint dropWhile {A} (p : A → bool) (l : list A) : list A :=
  match l with
  | x :: l' => if p x then dropWhile p l' else l
  | [] => []
  end.

Definition modifiedOf (d a : DiffEntry) : DiffEntry :=
  mkEntry modified (leftLine d) (leftLineNum d) (rightLine a) (rightLineNum a).

(** Lines 170-190: what is pushed for one run of deletes and the run of adds
    after it. The guards of the [for] loop keep every [deletes[j]] and
    [adds[j]] in range. *)
Definition mergeRun (deletes adds : list DiffEntry) : list DiffEntry :=
  if bool_decide (0 < length deletes) && bool_decide (0 < length adds) then
    let maxLen := length deletes `max` length adds in
    omap (λ j,
      if bool_decide (j < length deletes) && bool_decide (j < length adds)
      then d ← deletes !! j; a ← adds !! j; Some (modifiedOf d a)
      else if bool_decide (j < length deletes) then deletes !! j
      else adds !! j) (seq 0 maxLen)
  else deletes.

(** The merge loop (lines 151-200) from position [i] on, [result] being the
    entries from there. At a deleted entry the two inner loops collect it and
    the deletes after it, then the adds that follow. *)
Equations? mergeBlocks (result : list DiffEntry) : list DiffEntry
    by wf (length result) lt :=
  mergeBlocks [] := [];
  mergeBlocks (e :: rest) with type e := {
    | deleted =>
      mergeRun (e :: takeWhile (isType deleted) rest)
               (takeWhile (isType added) (dropWhile (isType deleted) rest))
      ++ mergeBlocks (dropWhile (isType added) (dropWhile (isType deleted) rest));
    | added => e :: mergeBlocks rest;
    | _ => e :: mergeBlocks rest }.
Proof.
  all: try (simpl; lia).
  assert (Hd : ∀ p (l : list DiffEntry), length (dropWhile p l) ≤ length l).
  { intros p l. induction l as [|x l IH]; simpl; [lia|].
    destruct (p x); simpl; lia. }
  pose proof (Hd (isType added) (dropWhile (isType deleted) rest)).
  pose proof (Hd (isType deleted) rest). simpl. lia.
Qed.

Definition computeLineDiff (o : Options) (leftLines rightLines : list string)
    : list DiffEntry :=
  let '(leftFiltered, leftMapping) := filterLines o leftLines in
  let '(rightFiltered, rightMapping) := filterLines o rightLines in
  let leftProcessed := processLine o <$> leftFiltered in
  let rightProcessed := processLine o <$> rightFiltered in
  let lcs := computeLCS leftProcessed rightProcessed in
  let result :=
    rawDiff leftFiltered rightFiltered leftMapping rightMapping lcs 0 0 in
  mergeBlocks result.

(** The [useMemo] of the application (lines 878-882): the two texts are split
    into lines and diffed. *)
Definition diffTexts (o : Options) (leftCode rightCode : string)
    : list DiffEntry :=
  let leftLines := splitLines leftCode in
  let rightLines := splitLines rightCode in
  computeLineDiff o leftLines rightLines.

(** ** Alignment Calculator: [computeViewZones] *)

(** [side]: ['left'], and anything else is handled as the right side. *)
Inductive Side := LeftSide | RightSide.

Record ViewZone := mkZone {
  afterLineNumber : nat;
  heightInLines : nat;
}.

Module Zones.
(** The variables of [computeViewZones] that its [forEach] updates. *)
Record State := mk {
  zones : list ViewZone;
  currentLineNum : nat;
  pendingPlaceholders : nat;
}.
End Zones.

Definition thisSideNum (side : Side) (entry : DiffEntry) : option nat :=
  match side with
  | LeftSide => leftLineNum entry
  | RightSide => rightLineNum entry
  end.

Definition otherSideNum (side : Side) (entry : DiffEntry) : option nat :=
  match side with
  | LeftSide => rightLineNum entry
  | RightSide => leftLineNum entry
  end.

(** The zones after [if (pendingPlaceholders > 0) zones.push(...)]. *)
Definition flushZones (st : Zones.State) : list ViewZone :=
  if bool_decide (0 < Zones.pendingPlaceholders st)
  then Zones.zones st
       ++ [mkZone (Zones.currentLineNum st) (Zones.pendingPlaceholders st)]
  else Zones.zones st.

(** The callback of [diff.forEach] (lines 249-268). *)
Definition zoneStep (side : Side) (st : Zones.State) (entry : DiffEntry)
    : Zones.State :=
  match thisSideNum side entry with
  | Some lineNum =>
    Zones.mk (flushZones st) lineNum
             (if bool_decide (0 < Zones.pendingPlaceholders st) then 0
              else Zones.pendingPlaceholders st)
  | None =>
    match otherSideNum side entry with
    | Some _ =>
      Zones.mk (Zones.zones st) (Zones.currentLineNum st)
               (Zones.pendingPlaceholders st + 1)
    | None => st
    end
  end.

Definition computeViewZones (diff : list DiffEntry) (side : Side)
    : list ViewZone :=
  flushZones (foldl (zoneStep side) (Zones.mk [] 0 0) diff).

(** ** Patch Serializer: [generateUnifiedPatch] *)

Module Hunk.
(** The variables of [generateUnifiedPatch] that its loop updates. *)
Record State := mk {
  leftLineNum : nat;
  rightLineNum : nat;
  currentHunk : list string;
  hunkLeftStart : nat;
  hunkRightStart : nat;
  hunkLeftCount : nat;
  hunkRightCount : nat;
}.
End Hunk.

(** [entry.leftLineNum || leftLineNum]: [null] and [0] are falsy. *)
Definition orCounter (num : option nat) (counter : nat) : nat :=
  match num with
  | Some (S k) => S k
  | _ => counter
  end.

(** A line inside a template literal; [null] is printed as its name. *)
Definition showLine (line : option string) : string :=
  default "null" line.

Definition rangeLine (leftStart leftCount rightStart rightCount : nat) : string :=
  "@@ -" +:+ showNat leftStart +:+ "," +:+ showNat leftCount
  +:+ " +" +:+ showNat rightStart +:+ "," +:+ showNat rightCount +:+ " @@".

(** The body of the [for (const entry of diff)] loop (lines 395-427). *)
Definition patchStep (st : Hunk.State) (entry : DiffEntry) : Hunk.State :=
  let lnum := Hunk.leftLineNum st in
  let rnum := Hunk.rightLineNum st in
  let hunk := Hunk.currentHunk st in
  if isType unchanged entry then
    if bool_decide (0 < length hunk) then
      Hunk.mk (lnum + 1) (rnum + 1)
              (hunk ++ [" " +:+ showLine (leftLine entry)])
              (Hunk.hunkLeftStart st) (Hunk.hunkRightStart st)
              (Hunk.hunkLeftCount st + 1) (Hunk.hunkRightCount st + 1)
    else
      Hunk.mk (lnum + 1) (rnum + 1) hunk
              (Hunk.hunkLeftStart st) (Hunk.hunkRightStart st)
              (Hunk.hunkLeftCount st) (Hunk.hunkRightCount st)
  else
    let '(leftStart, rightStart, leftCount, rightCount) :=
      if bool_decide (length hunk = 0) then
        (orCounter (leftLineNum entry) lnum,
         orCounter (rightLineNum entry) rnum, 0, 0)
      else (Hunk.hunkLeftStart st, Hunk.hunkRightStart st,
            Hunk.hunkLeftCount st, Hunk.hunkRightCount st) in
    match type entry with
    | deleted =>
      Hunk.mk (lnum + 1) rnum
              (hunk ++ ["-" +:+ showLine (leftLine entry)])
              leftStart rightStart (leftCount + 1) rightCount
    | added =>
      Hunk.mk lnum (rnum + 1)
              (hunk ++ ["+" +:+ showLine (rightLine entry)])
              leftStart rightStart leftCount (rightCount + 1)
    | modified =>
      Hunk.mk (lnum + 1) (rnum + 1)
              (hunk ++ ["-" +:+ showLine (leftLine entry);
                        "+" +:+ showLine (rightLine entry)])
              leftStart rightStart (leftCount + 1) (rightCount + 1)
    | unchanged => Hunk.mk lnum rnum hunk leftStart rightStart leftCount rightCount
    end.

(** [flushHunk], as the lines it pushes. *)
Definition flushHunk (st : Hunk.State) : list string :=
  if bool_decide (0 < length (Hunk.currentHunk st)) then
    rangeLine (Hunk.hunkLeftStart st) (Hunk.hunkLeftCount st)
              (Hunk.hunkRightStart st) (Hunk.hunkRightCount st)
    :: Hunk.currentHunk st
  else [].

(** The lines of the patch, before [lines.join]. [flushHunk] is called once,
    after the loop. *)
Definition patchLines (diff : list DiffEntry) (leftFileName rightFileName : string)
    : list string :=
  ["--- " +:+ leftFileName; "+++ " +:+ rightFileName]
  ++ flushHunk (foldl patchStep (Hunk.mk 1 1 [] 0 0 0 0) diff).

Definition generateUnifiedPatch (leftCode rightCode : string)
    (leftFileName rightFileName : string) : string :=
  let leftLines := splitLines leftCode in
  let rightLines := splitLines rightCode in
  let diff := computeLineDiff defaultOptions leftLines rightLines in
  joinLines (patchLines diff leftFileName rightFileName).

(** The default values of the parameters [leftFileName] and [rightFileName]. *)
Definition defaultLeftFileName : string := "original".
Definition defaultRightFileName : string := "modified".

(** ** Decoration Mapper: [getLineDecorations] *)

Record Range := mkRange {
  startLineNumber : nat;
  startColumn : nat;
  endLineNumber : nat;
  endColumn : nat;
}.

Record DecorationOptions := mkDecorationOptions {
  isWholeLine : bool;
  className : string;
  glyphMarginClassName : string;
}.

Record Decoration := mkDecoration {
  range : Range;
  options : DecorationOptions;
}.

(** [side === 'left'] *)
Definition isLeftSide (side : Side) : bool :=
  match side with LeftSide => true | RightSide => false end.

(** The callback of [diff.forEach] (lines 209-237): the decoration it
    pushes, if any. *)
Definition decorationOf (side : Side) (entry : DiffEntry) : option Decoration :=
  match thisSideNum side entry with
  | None => None
  | Some lineNum =>
    let '(className, glyphClassName) :=
      if isType deleted entry && isLeftSide side
      then ("diff-line-deleted", "diff-glyph-deleted")
      else if isType added entry && negb (isLeftSide side)
      then ("diff-line-added", "diff-glyph-added")
      else if isType modified entry
      then ("diff-line-modified", "diff-glyph-modified")
      else ("", "") in
    if truthy className
    then Some (mkDecoration (mkRange lineNum 1 lineNum 1)
                            (mkDecorationOptions true className glyphClassName))
    else None
  end.

Definition getLineDecorations (diff : list DiffEntry) (side : Side)
    : list Decoration :=
  omap (decorationOf side) diff.

(** ** Statistics and navigation of the application *)

Module Stats.
(** [{ added: 0, deleted: 0, modified: 0, unchanged: 0 }] *)
Record t := mk {
  added : nat;
  deleted : nat;
  modified : nat;
  unchanged : nat;
}.
End Stats.

(** [acc[entry.type]++] *)
Definition countEntry (acc : Stats.t) (entry : DiffEntry) : Stats.t :=
  match type entry with
  | added =>
    Stats.mk (Stats.added acc + 1) (Stats.deleted acc) (Stats.modified acc)
             (Stats.unchanged acc)
  | deleted =>
    Stats.mk (Stats.added acc) (Stats.deleted acc + 1) (Stats.modified acc)
             (Stats.unchanged acc)
  | modified =>
    Stats.mk (Stats.added acc) (Stats.deleted acc) (Stats.modified acc + 1)
             (Stats.unchanged acc)
  | unchanged =>
    Stats.mk (Stats.added acc) (Stats.deleted acc) (Stats.modified acc)
             (Stats.unchanged acc + 1)
  end.

(** The [stats] of the application (lines 885-893): [diff.reduce]. *)
Definition stats (diff : list DiffEntry) : Stats.t :=
  foldl countEntry (Stats.mk 0 0 0 0) diff.

(** The [diffIndices] of the application (lines 896-900): the [map] to the
    index or [null], then the [filter] of what is not [null]. *)
Definition diffIndices (diff : list DiffEntry) : list nat :=
  omap id (imap (λ index entry,
                   if isType unchanged entry then None else Some index) diff).

(** [array[i]] for an index that may be negative: [undefined] then. *)
Definition lookupZ {A} (l : list A) (i : Z) : option A :=
  if bool_decide (i < 0)%Z then None else l !! Z.to_nat i.

(** [goToNextDiff] (lines 967-972), as the value it gives
    [currentDiffIndex]; [%] is the remainder of the truncated division. *)
Definition goToNextDiff (indices : list nat) (currentDiffIndex : Z) : Z :=
  if bool_decide (length indices = 0) then currentDiffIndex
  else Z.rem (currentDiffIndex + 1) (Z.of_nat (length indices)).

(** [goToPrevDiff] (lines 974-979); the remainder [-0], which [-1 % 1] is, is
    the index [0]. *)
Definition goToPrevDiff (indices : list nat) (currentDiffIndex : Z) : Z :=
  if bool_decide (length indices = 0) then currentDiffIndex
  else Z.rem (currentDiffIndex - 1 + Z.of_nat (length indices))
             (Z.of_nat (length indices)).



(** [indices.indexOf(x)] *)
Fixpoint indexOf (indices : list nat) (x : nat) : Z :=
  match indices with
  | [] => (-1)%Z
  | y :: rest =>
    if bool_decide (y = x) then 0%Z
    else let i := indexOf rest x in
         if bool_decide (i = -1)%Z then (-1)%Z else (i + 1)%Z
  end.

(** [Math.abs(curr - lineIndex)] *)
Definition distance (curr lineIndex : nat) : Z :=
  Z.abs (Z.of_nat curr - Z.of_nat lineIndex).

(** The callback of the [reduce] of [jumpToDiff]. *)
Definition nearer (lineIndex : nat) (prev curr : nat) : nat :=
  if bool_decide (distance curr lineIndex < distance prev lineIndex)%Z
  then curr else prev.

(** [jumpToDiff] (lines 997-1010), as the value it gives
    [currentDiffIndex]. On an empty [diffIndices] the [reduce] returns its
    initial value [undefined], whose [indexOf] is [-1]. *)
Definition jumpToDiff (indices : list nat) (lineIndex : nat) : Z :=
  let diffIdx := indexOf indices lineIndex in
  if bool_decide (diffIdx ≠ -1)%Z then diffIdx
  else
    match indices with
    | [] => (-1)%Z
    | first :: _ =>
      let nearest := foldl (nearer lineIndex) first indices in
      indexOf indices nearest
    end.

(** ** The markers of the [Minimap] *)

Module Marker.
(** A marker of the minimap. Its field [top], a floating-point percentage
    computed from [index] and [diff.length], is left out. *)
Record t := mk {
  index : nat;
  type : EntryType;
  isActive : bool;
}.
End Marker.

(** The [markers] of the [Minimap] (lines 524-537): the [map] to a marker or
    [null], then [filter(Boolean)]. *)
Definition markers (diff : list DiffEntry) (currentDiffIndex : Z)
    (diffIndices : list nat) : list Marker.t :=
  if bool_decide (length diff = 0) then []
  else
    omap id (imap (λ index entry,
                     if isType unchanged entry then None
                     else Some (Marker.mk index (type entry)
                                  (bool_decide (lookupZ diffIndices currentDiffIndex
                                                = Some index))))
                  diff).

(** ** Report Serializer: [generateHTMLReport] *)

(** The double quote. *)
Definition dq : string := String "034"%char EmptyString.

(** [s.replace(/c/g, by)] for a pattern of one character. *)
Fixpoint replaceChar (c : ascii) (by' : string) (s : string) : string :=
  match s with
  | EmptyString => EmptyString
  | String d s' =>
    if Ascii.eqb d c then by' +:+ replaceChar c by' s'
    else String d (replaceChar c by' s')
  end.

(** [escapeHtml] (lines 435-442); [null] and the empty string are falsy. *)
Definition escapeHtml (str : option string) : string :=
  match str with
  | None => ""
  | Some s =>
    if negb (truthy s) then ""
    else replaceChar "034" "&quot;"
           (replaceChar ">" "&gt;"
              (replaceChar "<" "&lt;"
                 (replaceChar "&" "&amp;" s)))
  end.

(** [x || ''] for a string [x]. *)
Definition orEmpty (x : string) : string := if truthy x then x else "".

(** [entry.leftLineNum || ''] inside a template literal. *)
Definition showNumOrEmpty (num : option nat) : string :=
  match num with
  | Some (S k) => showNat (S k)
  | _ => ""
  end.

(** [entry.type] inside a template literal. *)
Definition typeName (t : EntryType) : string :=
  match t with
  | unchanged => "unchanged"
  | deleted => "deleted"
  | added => "added"
  | modified => "modified"
  end.

(** One row of the table (lines 444-456); the template literal, line by
    line. *)
Definition reportRow (entry : DiffEntry) : string :=
  let leftClass :=
    if isType deleted entry || isType modified entry
    then "diff-" +:+ typeName (type entry) else "" in
  let rightClass :=
    if isType added entry || isType modified entry
    then "diff-" +:+ typeName (type entry) else "" in
  joinLines [
    "";
    "      <tr>";
    "        <td class=" +:+ dq +:+ "line-num" +:+ dq +:+ ">"
      +:+ showNumOrEmpty (leftLineNum entry) +:+ "</td>";
    "        <td class=" +:+ dq +:+ "code " +:+ leftClass +:+ dq +:+ ">"
      +:+ orEmpty (escapeHtml (leftLine entry)) +:+ "</td>";
    "        <td class=" +:+ dq +:+ "line-num" +:+ dq +:+ ">"
      +:+ showNumOrEmpty (rightLineNum entry) +:+ "</td>";
    "        <td class=" +:+ dq +:+ "code " +:+ rightClass +:+ dq +:+ ">"
      +:+ orEmpty (escapeHtml (rightLine entry)) +:+ "</td>";
    "      </tr>";
    "    "
  ].

(** [diff.map(...).join('')] *)
Definition reportRows (diff : list DiffEntry) : string :=
  String.concat "" (reportRow <$> diff).

(** The template literal of the report (lines 458-505), line by line; the
    rows are spliced into its line [${diffRows}]. *)
Definition reportTemplate (stats : Stats.t) (diffRows : string) : string :=
  joinLines [
    "";
    "<!DOCTYPE html>";
    "<html>";
    "<head>";
    "  <meta charset=" +:+ dq +:+ "UTF-8" +:+ dq +:+ ">";
    "  <title>WebMerge Diff Report</title>";
    "  <style>";
    "    body { font-family: 'Segoe UI', sans-serif; margin: 20px; background: #1e1e1e; color: #d4d4d4; }";
    "    h1 { color: #fff; }";
    "    .stats { margin: 20px 0; padding: 15px; background: #2d2d2d; border-radius: 8px; }";
    "    .stats span { margin-right: 20px; }";
    "    .added-stat { color: #85e89d; }";
    "    .deleted-stat { color: #f97583; }";
    "    .modified-stat { color: #ffea7f; }";
    "    table { width: 100%; border-collapse: collapse; font-family: 'Fira Code', monospace; font-size: 13px; }";
    "    th, td { border: 1px solid #333; padding: 4px 8px; text-align: left; }";
    "    th { background: #2d2d2d; }";
    "    .line-num { width: 50px; text-align: right; color: #6e7681; background: #1e1e1e; }";
    "    .code { white-space: pre; }";
    "    .diff-deleted { background: rgba(248, 81, 73, 0.15); }";
    "    .diff-added { background: rgba(46, 160, 67, 0.15); }";
    "    .diff-modified { background: rgba(187, 128, 9, 0.15); }";
    "  </style>";
    "</head>";
    "<body>";
    "  <h1>WebMerge Diff Report</h1>";
    "  <div class=" +:+ dq +:+ "stats" +:+ dq +:+ ">";
    "    <span class=" +:+ dq +:+ "added-stat" +:+ dq +:+ ">+" +:+ showNat (Stats.added stats) +:+ " added</span>";
    "    <span class=" +:+ dq +:+ "deleted-stat" +:+ dq +:+ ">-" +:+ showNat (Stats.deleted stats) +:+ " deleted</span>";
    "    <span class=" +:+ dq +:+ "modified-stat" +:+ dq +:+ ">~" +:+ showNat (Stats.modified stats) +:+ " modified</span>";
    "    <span>" +:+ showNat (Stats.unchanged stats) +:+ " unchanged</span>";
    "  </div>";
    "  <table>";
    "    <thead>";
    "      <tr>";
    "        <th>Line</th>";
    "        <th>Original</th>";
    "        <th>Line</th>";
    "        <th>Modified</th>";
    "      </tr>";
    "    </thead>";
    "    <tbody>";
    "      " +:+ diffRows;
    "    </tbody>";
    "  </table>";
    "</body>";
    "</html>";
    "  "
  ].

(** [generateHTMLReport]; the two texts are parameters it does not use. *)
Definition generateHTMLReport (leftCode rightCode : string)
    (diff : list DiffEntry) (stats : Stats.t) : string :=
  trim (reportTemplate stats (reportRows diff)).

(** ** Reference definitions

    The notions the properties are stated with. The embedding of the program
    above uses none of them. *)

(** A line of the original numbering survives the filter of
    [ignoreBlankLines]: it exists and, when the option is set, is not blank. *)
Definition lineSurvives (o : Options) (lines : list string) (num : nat) : bool :=
  match num with
  | 0 => false
  | S i =>
    match lines !! i with
    | Some line => if ignoreBlankLines o then truthy (trim line) else true
    | None => false
    end
  end.

(** The number of entries whose left (right) line number is [num]. *)
Definition countLeftNum (num : nat) (diff : list DiffEntry) : nat :=
  length (filter (λ e, leftLineNum e = Some num) diff).

Definition countRightNum (num : nat) (diff : list DiffEntry) : nat :=
  length (filter (λ e, rightLineNum e = Some num) diff).

(** Section 4.3: the modified entry of a delete and an add. It has the left
    line and the left number of the delete and the right line and the right
    number of the add. *)
Definition pairedEntry (delete add : DiffEntry) : DiffEntry :=
  {| type := modified;
     leftLine := leftLine delete;
     leftLineNum := leftLineNum delete;
     rightLine := rightLine add;
     rightLineNum := rightLineNum add |}.

(** Section 4.3: the k-th delete pairs with the k-th add; what is beyond the
    shorter run stays as it is, in order. *)
Definition pairRuns (deletes adds : list DiffEntry) : list DiffEntry :=
  let k := length deletes `min` length adds in
  zip_with pairedEntry (take k deletes) (take k adds)
  ++ drop k deletes ++ drop k adds.

(** Section 4.5: the entry lacks a line number on [side] while it has one on
    the other side. *)
Definition lacksLineOn (side : Side) (e : DiffEntry) : Prop :=
  match side with
  | LeftSide => leftLineNum e = None ∧ rightLineNum e ≠ None
  | RightSide => rightLineNum e = None ∧ leftLineNum e ≠ None
  end.

Global Instance lacksLineOn_dec side e : Decision (lacksLineOn side e).
Proof. destruct side; simpl; apply _. Defined.

(** The last entry of [pre] is not of type [t] (or there is none). *)
Definition notEndingWith (t : EntryType) (pre : list DiffEntry) : Prop :=
  ∀ e, last pre = Some e → type e ≠ t.

(** The first entry of [post] is not of type [t] (or there is none). *)
Definition notStartingWith (t : EntryType) (post : list DiffEntry) : Prop :=
  ∀ e, head post = Some e → type e ≠ t.

(** The maximal runs of consecutive entries that are not unchanged. *)
Fixpoint changeRuns (diff : list DiffEntry) : list (list DiffEntry) :=
  match diff with
  | [] => []
  | e :: rest =>
    if isType unchanged e then changeRuns rest
    else
      match rest with
      | e' :: _ =>
        if isType unchanged e' then [e] :: changeRuns rest
        else match changeRuns rest with
             | run :: runs => (e :: run) :: runs
             | [] => [[e]]
             end
      | [] => [[e]]
      end
  end.

(** The body lines of one entry inside a hunk (section 4.7). *)
Definition bodyLines (e : DiffEntry) : list string :=
  match type e with
  | unchanged => [" " +:+ showLine (leftLine e)]
  | deleted => ["-" +:+ showLine (leftLine e)]
  | added => ["+" +:+ showLine (rightLine e)]
  | modified => ["-" +:+ showLine (leftLine e); "+" +:+ showLine (rightLine e)]
  end.

(** The entry has a line on the left (right) side. *)
Definition hasLeft (e : DiffEntry) : bool := negb (isType added e).
Definition hasRight (e : DiffEntry) : bool := negb (isType deleted e).

(** The number of left (right) lines of a list of entries. *)
Definition leftCount (diff : list DiffEntry) : nat :=
  length (filter (λ e, hasLeft e = true) diff).

Definition rightCount (diff : list DiffEntry) : nat :=
  length (filter (λ e, hasRight e = true) diff).

(** The one hunk of a diff: it opens at the first entry that is not
    unchanged and holds every entry from there to the end. *)
Definition singleHunk (diff : list DiffEntry) : list string :=
  let before := takeWhile (isType unchanged) diff in
  let hunk := dropWhile (isType unchanged) diff in
  match hunk with
  | [] => []
  | first :: _ =>
    rangeLine (orCounter (leftLineNum first) (length before + 1))
              (leftCount hunk)
              (orCounter (rightLineNum first) (length before + 1))
              (rightCount hunk)
    :: (hunk ≫= bodyLines)
  end.

(** *** Applying a unified patch *)

Fixpoint stripPrefix (p s : string) : option string :=
  match p with
  | EmptyString => Some s
  | String c p' =>
    match s with
    | String d s' => if Ascii.eqb c d then stripPrefix p' s' else None
    | EmptyString => None
    end
  end.

Definition isDigit (c : ascii) : bool :=
  let n := nat_of_ascii c in (48 <=? n) && (n <=? 57).

(** The decimal digits at the head of [s], and what follows them. *)
Fixpoint spanDigits (s : string) : string * string :=
  match s with
  | EmptyString => (EmptyString, EmptyString)
  | String c s' =>
    if isDigit c then let '(ds, rest) := spanDigits s' in (String c ds, rest)
    else (EmptyString, s)
  end.

Definition readNat (s : string) : option (nat * string) :=
  let '(ds, rest) := spanDigits s in
  if truthy ds then
    u ← NilEmpty.uint_of_string ds; Some (Nat.of_uint u, rest)
  else None.

Inductive PatchLine :=
  | RangeLine (leftStart leftCount rightStart rightCount : nat)
  | ContextLine (line : string)
  | MinusLine (line : string)
  | PlusLine (line : string).

(** [@@ -L,N +L,N @@] *)
Definition parseRange (s : string) : option PatchLine :=
  s ← stripPrefix "@@ -" s;
  '(leftStart, s) ← readNat s;
  s ← stripPrefix "," s;
  '(leftCount, s) ← readNat s;
  s ← stripPrefix " +" s;
  '(rightStart, s) ← readNat s;
  s ← stripPrefix "," s;
  '(rightCount, s) ← readNat s;
  if String.eqb s " @@"
  then Some (RangeLine leftStart leftCount rightStart rightCount)
  else None.


Module Apply.
(** The state of the application of a patch to the lines of a text:
    [rest] are the lines not yet read, the first of them has number
    [nextLine]; [output] are the lines written; [toMatch] and [toEmit] are
    the lines the open hunk still has on each side. *)
Record State := mk {
  rest : list string;
  nextLine : nat;
  output : list string;
  toMatch : nat;
  toEmit : nat;
}.
End Apply.





(** ** Notions used by the proofs *)

(** [Script key diff ls rs]: read in order, the entries of [diff] carry on
    their left sides the numbered lines [ls] and on their right sides the
    numbered lines [rs], every entry with the fields its type asks for, and
    the two lines of an unchanged entry have the same comparison key. *)
Inductive Script (key : string → string)
    : list DiffEntry → list (nat * string) → list (nat * string) → Prop :=
  | Script_nil : Script key [] [] []
  | Script_unchanged n l n' l' diff ls rs :
      key l = key l' → Script key diff ls rs →
      Script key (mkEntry unchanged (Some l) (Some n) (Some l') (Some n') :: diff)
             ((n, l) :: ls) ((n', l') :: rs)
  | Script_deleted n l diff ls rs :
      Script key diff ls rs →
      Script key (mkEntry deleted (Some l) (Some n) None None :: diff)
             ((n, l) :: ls) rs
  | Script_added n' l' diff ls rs :
      Script key diff ls rs →
      Script key (mkEntry added None None (Some l') (Some n') :: diff)
             ls ((n', l') :: rs)
  | Script_modified n l n' l' diff ls rs :
      Script key diff ls rs →
      Script key (mkEntry modified (Some l) (Some n) (Some l') (Some n') :: diff)
             ((n, l) :: ls) ((n', l') :: rs).

(** The lines kept by the filter, each with its number in the input. *)
Definition numbered (filtered : list string) (mapping : list nat)
    : list (nat * string) :=
  zip ((λ k, k + 1) <$> mapping) filtered.

(** The pairing of a run of deletes with a run of adds, by recursion. *)
Fixpoint zipRuns (deletes adds : list DiffEntry) : list DiffEntry :=
  match deletes, adds with
  | d :: ds, a :: as' => modifiedOf d a :: zipRuns ds as'
  | ds, [] => ds
  | [], as' => as'
  end.

(** The lines of an input from number [start] on, each with its number. *)
Definition numberedFrom (start : nat) (lines : list string) : list (nat * string) :=
  zip (seq start (length lines)) lines.

(** The filter of [ignoreBlankLines] on a numbered line. *)
Definition keeps (o : Options) (nl : nat * string) : bool :=
  if ignoreBlankLines o then truthy (trim nl.2) else true.

(** The numbered lines that [computeLineDiff] compares. *)
Definition survivors (o : Options) (lines : list string) : list (nat * string) :=
  filter (λ nl, keeps o nl = true) (numberedFrom 1 lines).

(** An entry that asks for a placeholder row on [side]. *)
Definition needsGap (side : Side) (e : DiffEntry) : Prop :=
  thisSideNum side e = None ∧ is_Some (otherSideNum side e).

Global Instance needsGap_dec side e : Decision (needsGap side e).
Proof. unfold needsGap. apply _. Defined.

(** The rows held by a state of the loop: in its zones and pending. *)
Definition heldRows (st : Zones.State) : nat :=
  sum_list (heightInLines <$> Zones.zones st) + Zones.pendingPlaceholders st.

(** The added (deleted) entry of a numbered line. *)
Definition addedOf (nl : nat * string) : DiffEntry :=
  mkEntry added None None (Some nl.2) (Some nl.1).

Definition deletedOf (nl : nat * string) : DiffEntry :=
  mkEntry deleted (Some nl.2) (Some nl.1) None None.

(** Every code unit of [s] is a decimal digit. *)
Fixpoint allDigits (s : string) : bool :=
  match s with
  | EmptyString => true
  | String c s' => isDigit c && allDigits s'
  end.


(** The hunk of a diff when the loop starts at line [a] of the left text and
    at line [b] of the right text. *)
Definition hunkFrom (a b : nat) (diff : list DiffEntry) : list string :=
  let before := takeWhile (isType unchanged) diff in
  let hunk := dropWhile (isType unchanged) diff in
  match hunk with
  | [] => []
  | first :: _ =>
    rangeLine (orCounter (leftLineNum first) (length before + a)) (leftCount hunk)
              (orCounter (rightLineNum first) (length before + b)) (rightCount hunk)
    :: (hunk ≫= bodyLines)
  end.

(** ** Notions used by the further properties *)

(** The fields an entry has by its type: unchanged and modified entries
    carry both sides, deleted and added entries exactly one. *)
Definition wellFormed (e : DiffEntry) : Prop :=
  match type e with
  | unchanged | modified =>
    is_Some (leftLine e) ∧ is_Some (leftLineNum e) ∧
    is_Some (rightLine e) ∧ is_Some (rightLineNum e)
  | deleted =>
    is_Some (leftLine e) ∧ is_Some (leftLineNum e) ∧
    rightLine e = None ∧ rightLineNum e = None
  | added =>
    leftLine e = None ∧ leftLineNum e = None ∧
    is_Some (rightLine e) ∧ is_Some (rightLineNum e)
  end.

(** The line of an entry on one side is the line of the input that has the
    entry's number; an entry without a number has no line. *)
Definition carriesLineOf (lines : list string)
    (num : option nat) (line : option string) : Prop :=
  match num with
  | Some n => 1 ≤ n ∧ is_Some line ∧ line = lines !! (n - 1)
  | None => line = None
  end.

(** The numbered line [nl] is a line of [lines]. *)
Definition lineOf (lines : list string) (nl : nat * string) : Prop :=
  1 ≤ nl.1 ∧ lines !! (nl.1 - 1) = Some nl.2.

(** The unchanged entry of a numbered line. *)
Definition unchangedOf (nl : nat * string) : DiffEntry :=
  mkEntry unchanged (Some nl.2) (Some nl.1) (Some nl.2) (Some nl.1).

(** Somewhere in the list a deleted entry is immediately followed by an
    added entry. *)
Fixpoint hasDeleteThenAdd (l : list DiffEntry) : bool :=
  match l with
  | d :: rest =>
    match rest with
    | a :: _ => (isType deleted d && isType added a) || hasDeleteThenAdd rest
    | [] => false
    end
  | [] => false
  end.

(** The number of entries of a type. *)
Definition countType (t : EntryType) (diff : list DiffEntry) : nat :=
  length (filter (λ e, type e = t) diff).

(** The zones so far lie at increasing lines before the current line, which
    is at most [bound]. *)
Definition zonesBefore (bound : nat) (st : Zones.State) : Prop :=
  StronglySorted lt (afterLineNumber <$> Zones.zones st) ∧
  Forall (λ z, afterLineNumber z < Zones.currentLineNum st) (Zones.zones st) ∧
  Zones.currentLineNum st ≤ bound.

(** The line that a decoration marks. *)
Definition decoratedLine (d : Decoration) : nat := startLineNumber (range d).

(** [diffIndices] on the entries from index [k] on. *)
Definition indicesFrom (k : nat) (diff : list DiffEntry) : list nat :=
  omap id (imap (λ index entry,
                   if isType unchanged entry then None else Some (k + index))
                diff).


(** The entity of one code unit, or the code unit itself. *)
Definition escapeChar (c : ascii) : string :=
  if Ascii.eqb c "&" then "&amp;"
  else if Ascii.eqb c "<" then "&lt;"
  else if Ascii.eqb c ">" then "&gt;"
  else if Ascii.eqb c "034" then "&quot;"
  else String c "".

(** A string with each of its code units escaped on its own. *)
Fixpoint escapeEach (s : string) : string :=
  match s with
  | EmptyString => EmptyString
  | String c s' => escapeChar c +:+ escapeEach s'
  end.

(** The number of occurrences of a code unit in a string. *)
Fixpoint countChar (c : ascii) (s : string) : nat :=
  match s with
  | EmptyString => 0
  | String d s' => (if Ascii.eqb d c then 1 else 0) + countChar c s'
  end.

(** The four replacements of [escapeHtml], in its order. *)
Definition replaceAll (s : string) : string :=
  replaceChar "034" "&quot;"
    (replaceChar ">" "&gt;" (replaceChar "<" "&lt;" (replaceChar "&" "&amp;" s))).

(** A code unit of the markup that [escapeHtml] removes from the text. *)
Definition markupChar (c : ascii) : Prop := c = "<"%char ∨ c = ">"%char ∨ c = "034"%char.

(** The unchanged entry of a left and a right numbered line. *)
Definition unchangedPair (l r : nat * string) : DiffEntry :=
  mkEntry unchanged (Some l.2) (Some l.1) (Some r.2) (Some r.1).

(** The number of entries before the first entry that is not unchanged. *)
Definition leadingUnchanged (diff : list DiffEntry) : nat :=
  length (takeWhile (isType unchanged) diff).

(** The markers of the entries from index [k] on, with [selected] the entry
    of the difference that is selected. *)
Definition markersFrom (k : nat) (diff : list DiffEntry) (selected : option nat)
    : list Marker.t :=
  omap id (imap (λ index entry,
                   if isType unchanged entry then None
                   else Some (Marker.mk (k + index) (type entry)
                                (bool_decide (selected = Some (k + index)))))
                diff).

(** * Properties *)

(** ** Scenarios of the specification and of the repository's tests *)

Example scenario_line_added :
  computeLineDiff defaultOptions ["line1"; "line2"] ["line1"; "line2"; "line3"]
  = [mkEntry unchanged (Some "line1") (Some 1) (Some "line1") (Some 1);
     mkEntry unchanged (Some "line2") (Some 2) (Some "line2") (Some 2);
     mkEntry added None None (Some "line3") (Some 3)].
Proof. reflexivity. Qed.

Example scenario_lines_modified :
  computeLineDiff defaultOptions ["A"; "B"; "C"] ["A"; "X"; "D"]
  = [mkEntry unchanged (Some "A") (Some 1) (Some "A") (Some 1);
     mkEntry modified (Some "B") (Some 2) (Some "X") (Some 2);
     mkEntry modified (Some "C") (Some 3) (Some "D") (Some 3)].
Proof. reflexivity. Qed.

Example scenario_blank_line_ignored :
  computeLineDiff (mkOptions false false true) ["A"; ""; "B"] ["A"; "B"]
  = [mkEntry unchanged (Some "A") (Some 1) (Some "A") (Some 1);
     mkEntry unchanged (Some "B") (Some 3) (Some "B") (Some 2)].
Proof. reflexivity. Qed.

Example scenario_excess_deletes :
  computeLineDiff defaultOptions ["a"; "b"; "c"; "d"] ["x"; "c"]
  = [mkEntry modified (Some "a") (Some 1) (Some "x") (Some 1);
     mkEntry deleted (Some "b") (Some 2) None None;
     mkEntry unchanged (Some "c") (Some 3) (Some "c") (Some 2);
     mkEntry deleted (Some "d") (Some 4) None None].
Proof. reflexivity. Qed.

Example scenario_zone_after_line_1 :
  computeViewZones (computeLineDiff defaultOptions ["A"; "C"] ["A"; "B"; "C"])
                   LeftSide
  = [mkZone 1 1].
Proof. reflexivity. Qed.

Example scenario_zone_before_first_line :
  computeViewZones
    (computeLineDiff defaultOptions ["C"; "D"] ["A"; "B"; "C"; "D"]) LeftSide
  = [mkZone 0 2].
Proof. reflexivity. Qed.

(** Two common subsequences of length 1: on the tie at [(2, 2)] the
    right-sequence index is decremented, which selects the match of ["b"]. *)
Example scenario_tie_break :
  computeLCS ["a"; "b"] ["b"; "a"] = [mkMatch 1 0 (Some "b")].
Proof. reflexivity. Qed.

Example scenario_table :
  fillTable ["A"; "B"; "C"] ["A"; "X"; "C"]
  = [[0; 0; 0; 0]; [0; 1; 1; 1]; [0; 1; 1; 1]; [0; 1; 1; 2]].
Proof. reflexivity. Qed.

Example scenario_comparison_key :
  processLine (mkOptions true true false) "  Hello   World  " = "hello world".
Proof. reflexivity. Qed.

Example scenario_patch_of_insertion :
  splitLines (generateUnifiedPatch "a" (joinLines ["a"; "b"])
                                   defaultLeftFileName defaultRightFileName)
  = ["--- original"; "+++ modified"; "@@ -2,0 +2,1 @@"; "+b"].
Proof. reflexivity. Qed.

(** ** The Sequence Matcher *)

Section MatcherFacts.
Context {K : Type} `{EqDecision K}.
Implicit Types left right : list K.
Implicit Types dp : list (list nat).

Lemma backtrack_S left right dp i j lcs :
  backtrack left right dp (S i) (S j) lcs =
    if keyEq left right i j
    then backtrack left right dp i j (mkMatch i j (left !! i) :: lcs)
    else if bool_decide (dpGet dp (S i) j < dpGet dp i (S j))
    then backtrack left right dp i (S j) lcs
    else backtrack left right dp (S i) j lcs.
Proof. reflexivity. Qed.

Lemma backtrack_0_r left right dp i lcs :
  backtrack left right dp i 0 lcs = lcs.
Proof. by destruct i. Qed.

Lemma lcsLen_S left right i j :
  lcsLen left right (S i) (S j) =
    if keyEq left right i j then lcsLen left right i j + 1
    else lcsLen left right i (S j) `max` lcsLen left right (S i) j.
Proof. reflexivity. Qed.

Lemma lcsLen_0_r left right i : lcsLen left right i 0 = 0.
Proof. by destruct i. Qed.

Lemma selectLCS_S left right i j acc :
  selectLCS left right (S i) (S j) acc =
    if keyEq left right i j
    then selectLCS left right i j (mkMatch i j (left !! i) :: acc)
    else match lcsLen left right i (S j) ?= lcsLen left right (S i) j with
         | Gt => selectLCS left right i (S j) acc
         | _ => selectLCS left right (S i) j acc
         end.
Proof. simpl. by repeat case_match. Qed.

Lemma selectLCS_0_r left right i acc : selectLCS left right i 0 acc = acc.
Proof. by destruct i. Qed.

(** An induction scheme that follows the three moves of the backtracking. *)
Lemma grid_ind (P : nat → nat → Prop) :
  (∀ j, P 0 j) → (∀ i, P i 0) →
  (∀ i j, P i j → P i (S j) → P (S i) j → P (S i) (S j)) →
  ∀ i j, P i j.
Proof.
  intros H0 H1 HS. induction i as [|i IHi]; [done|].
  induction j as [|j IHj]; auto.
Qed.

(** *** The table *)

Lemma dpShape_dpSet m n dp i j v :
  dpShape m n dp → dpShape m n (dpSet dp i j v).
Proof.
  intros [Hlen Hrows]. split; unfold dpSet.
  - by rewrite length_alter.
  - apply Forall_lookup. intros k row Hk.
    destruct (decide (i = k)) as [->|Hne].
    + rewrite list_lookup_alter_eq in Hk.
      destruct (dp !! k) as [row'|] eqn:E; simplify_eq/=.
      rewrite length_insert. by eapply (Forall_lookup_1 _ _ _ _ Hrows).
    + rewrite list_lookup_alter_ne in Hk by done.
      by eapply (Forall_lookup_1 _ _ _ _ Hrows).
Qed.

Lemma dpGet_dpSet_eq m n dp i j v :
  dpShape m n dp → i ≤ m → j ≤ n → dpGet (dpSet dp i j v) i j = v.
Proof.
  intros [Hlen Hrows] Hi Hj. unfold dpGet, dpSet.
  rewrite list_lookup_alter_eq.
  destruct (lookup_lt_is_Some_2 dp i) as [row Hrow]; [lia|].
  rewrite Hrow. simpl.
  rewrite list_lookup_insert_eq; [done|].
  rewrite (Forall_lookup_1 _ _ _ _ Hrows Hrow). lia.
Qed.

Lemma dpGet_dpSet_ne dp i j v i' j' :
  i ≠ i' ∨ j ≠ j' → dpGet (dpSet dp i j v) i' j' = dpGet dp i' j'.
Proof.
  intros Hne. unfold dpGet, dpSet.
  destruct (decide (i = i')) as [->|Hi].
  - rewrite list_lookup_alter_eq. destruct (dp !! i') as [row|]; [|done].
    simpl. rewrite list_lookup_insert_ne; [done|]. by destruct Hne.
  - by rewrite list_lookup_alter_ne.
Qed.

Lemma dpGet_replicate m n i j :
  dpGet (replicate (m + 1) (replicate (n + 1) 0)) i j = 0.
Proof.
  unfold dpGet.
  destruct (replicate (m + 1) _ !! i) as [row|] eqn:E; [|done].
  apply lookup_replicate in E as [-> _]. simpl.
  destruct (replicate (n + 1) 0 !! j) as [x|] eqn:E'; [|done].
  by apply lookup_replicate in E' as [-> _].
Qed.

(** A loop [for (let k = start; k < start + len; k++)] keeps an invariant
    that depends on [k]. *)
Lemma foldl_seq_invariant {S} (P : nat → S → Prop) (f : S → nat → S)
    (start len : nat) (s : S) :
  P start s →
  (∀ k s, start ≤ k < start + len → P k s → P (k + 1) (f s k)) →
  P (start + len) (foldl f s (seq start len)).
Proof.
  revert start s. induction len as [|len IH]; intros start s H0 Hstep; simpl.
  - by rewrite Nat.add_0_r.
  - replace (start + Datatypes.S len) with (Datatypes.S start + len) by lia.
    apply IH.
    + replace (Datatypes.S start) with (start + 1) by lia.
      apply Hstep; [lia|done].
    + intros k s' Hk. apply Hstep. lia.
Qed.

Lemma filled_fillCell left right a b dp :
  1 ≤ a ≤ length left → 1 ≤ b ≤ length right →
  filled left right a (b - 1) dp →
  filled left right a b (fillCell left right dp a b).
Proof.
  intros Ha Hb [Hshape Hcells].
  destruct a as [|a']; [lia|]. destruct b as [|b']; [lia|].
  assert (Hv : (if keyEq left right a' b'
                then dpGet dp a' b' + 1
                else dpGet dp a' (S b') `max` dpGet dp (S a') b')
               = lcsLen left right (S a') (S b')).
  { rewrite lcsLen_S. rewrite !Hcells by (simpl in *; lia). done. }
  unfold fillCell. simpl. rewrite !Nat.sub_0_r.
  split.
  - destruct (keyEq left right a' b'); by apply dpShape_dpSet.
  - intros i j Hi Hj Hcase.
    destruct (decide (i = S a' ∧ j = S b')) as [[-> ->]|Hne].
    + rewrite <- Hv.
      destruct (keyEq left right a' b'); by erewrite dpGet_dpSet_eq.
    + assert (dpGet dp i j = lcsLen left right i j) as <-.
      { apply Hcells; [done..|]. simpl in *. lia. }
      destruct (keyEq left right a' b'); apply dpGet_dpSet_ne; lia.
Qed.

Lemma fillTable_filled left right :
  filled left right (length left + 1) 0 (fillTable left right).
Proof.
  replace (length left + 1) with (1 + length left) by lia.
  unfold fillTable.
  apply (foldl_seq_invariant (λ a dp, filled left right a 0 dp)).
  - split.
    + split; [by rewrite length_replicate|].
      apply Forall_replicate. by rewrite length_replicate.
    + intros i j _ _ Hcase. rewrite dpGet_replicate.
      destruct Hcase as [ ? | [ [-> ?] | -> ] ].
      * by replace i with 0 by lia.
      * by replace j with 0 by lia.
      * by rewrite lcsLen_0_r.
  - intros a dp Ha Hfilled.
    assert (Hrow : ∀ dp', filled left right a (length right) dp' →
                          filled left right (a + 1) 0 dp').
    { intros dp' [? Hc]. split; [done|]. intros i j ? ? ?. apply Hc; lia. }
    apply Hrow.
    pose proof (foldl_seq_invariant
      (λ b dp, filled left right a (b - 1) dp)
      (λ dp j, fillCell left right dp a j) 1 (length right) dp) as Hinner.
    simpl in Hinner. rewrite Nat.sub_0_r in Hinner. apply Hinner; [done|].
    intros b dp' Hb Hf. replace (b + 1 - 1) with b by lia.
    apply filled_fillCell; [lia|lia|done].
Qed.

(** The table holds the lengths of the dynamic programme. *)
Lemma fillTable_lcsLen left right i j :
  i ≤ length left → j ≤ length right →
  dpGet (fillTable left right) i j = lcsLen left right i j.
Proof.
  intros Hi Hj. destruct (fillTable_filled left right) as [_ Hc].
  apply Hc; [done..|lia].
Qed.

(** *** The backtracking *)

(** On the filled table the loop of the program makes the moves of the
    selection rule. *)
Lemma backtrack_selectLCS left right i j :
  i ≤ length left → j ≤ length right → ∀ lcs,
  backtrack left right (fillTable left right) i j lcs
  = selectLCS left right i j lcs.
Proof.
  revert i j. apply (grid_ind (λ i j, i ≤ length left → j ≤ length right →
    ∀ lcs, backtrack left right (fillTable left right) i j lcs
           = selectLCS left right i j lcs)).
  - done.
  - intros i _ _ lcs. by rewrite backtrack_0_r, selectLCS_0_r.
  - intros i j IHd IHu IHl Hi Hj lcs.
    rewrite backtrack_S, selectLCS_S, !fillTable_lcsLen by lia.
    destruct (keyEq left right i j); [apply IHd; lia|].
    destruct (Nat.compare_spec (lcsLen left right i (S j))
                               (lcsLen left right (S i) j)).
    + rewrite bool_decide_eq_false_2 by lia. apply IHl; lia.
    + rewrite bool_decide_eq_false_2 by lia. apply IHl; lia.
    + rewrite bool_decide_eq_true_2 by lia. apply IHu; lia.
Qed.

Lemma selectLCS_app left right i j acc :
  selectLCS left right i j acc = selectLCS left right i j [] ++ acc.
Proof.
  revert acc. revert i j.
  apply (grid_ind (λ i j, ∀ acc,
    selectLCS left right i j acc = selectLCS left right i j [] ++ acc)).
  - done.
  - intros i acc. by rewrite !selectLCS_0_r.
  - intros i j IHd IHu IHl acc. rewrite !selectLCS_S.
    destruct (keyEq left right i j).
    + rewrite IHd, (IHd [_]). by rewrite <- app_assoc.
    + destruct (_ ?= _); auto.
Qed.

Lemma matchOk_mono left right i j i' j' p :
  i ≤ i' → j ≤ j' → matchOk left right i j p → matchOk left right i' j' p.
Proof. intros ?? (?&?&?). repeat split; [lia..|done]. Qed.

Lemma keyEq_Some left right i j :
  i < length left → keyEq left right i j = true →
  ∃ x, left !! i = Some x ∧ right !! j = Some x.
Proof.
  intros Hi Heq. apply bool_decide_eq_true_1 in Heq.
  destruct (lookup_lt_is_Some_2 left i Hi) as [x Hx].
  exists x. by rewrite <- Heq.
Qed.

Lemma selectLCS_ok left right i j :
  i ≤ length left → j ≤ length right →
  Forall (matchOk left right i j) (selectLCS left right i j []) ∧
  StronglySorted matchLt (selectLCS left right i j []).
Proof.
  revert i j. apply (grid_ind (λ i j, i ≤ length left → j ≤ length right →
    Forall (matchOk left right i j) (selectLCS left right i j []) ∧
    StronglySorted matchLt (selectLCS left right i j []))).
  - intros j _ _. split; constructor.
  - intros i _ _. rewrite selectLCS_0_r. split; constructor.
  - intros i j IHd IHu IHl Hi Hj. rewrite selectLCS_S.
    destruct (keyEq left right i j) eqn:Hkey.
    + destruct IHd as [Hall Hsorted]; [lia..|].
      destruct (keyEq_Some left right i j) as (x & Hl & Hr); [lia|done|].
      rewrite selectLCS_app. split.
      * apply Forall_app. split.
        -- eapply Forall_impl; [done|]. intros p. apply matchOk_mono; lia.
        -- apply Forall_singleton. repeat split; simpl; [lia..|]. eauto.
      * apply StronglySorted_app_2; [|done|repeat constructor].
        intros p q Hp ->%list_elem_of_singleton.
        rewrite Forall_forall in Hall. destruct (Hall p Hp) as (?&?&_).
        by split.
    + assert (Hup : Forall (matchOk left right (S i) (S j))
                      (selectLCS left right i (S j) []) ∧
                    StronglySorted matchLt (selectLCS left right i (S j) [])).
      { destruct IHu as [Hall ?]; [lia..|]. split; [|done].
        eapply Forall_impl; [done|]. intros p. apply matchOk_mono; lia. }
      assert (Hleft : Forall (matchOk left right (S i) (S j))
                        (selectLCS left right (S i) j []) ∧
                      StronglySorted matchLt (selectLCS left right (S i) j [])).
      { destruct IHl as [Hall ?]; [lia..|]. split; [|done].
        eapply Forall_impl; [done|]. intros p. apply matchOk_mono; lia. }
      by destruct (_ ?= _).
Qed.

Lemma selectLCS_length left right i j :
  length (selectLCS left right i j []) = lcsLen left right i j.
Proof.
  revert i j. apply (grid_ind (λ i j,
    length (selectLCS left right i j []) = lcsLen left right i j)).
  - done.
  - intros i. by rewrite selectLCS_0_r, lcsLen_0_r.
  - intros i j IHd IHu IHl. rewrite selectLCS_S, lcsLen_S.
    destruct (keyEq left right i j).
    + rewrite selectLCS_app, length_app, IHd. simpl. lia.
    + destruct (Nat.compare_spec (lcsLen left right i (S j))
                                 (lcsLen left right (S i) j)); lia.
Qed.

(** The keys of the selected matches are a common subsequence. *)
Lemma selectLCS_sublist left right i j :
  i ≤ length left → j ≤ length right →
  omap value (selectLCS left right i j []) `sublist_of` take i left ∧
  omap value (selectLCS left right i j []) `sublist_of` take j right.
Proof.
  revert i j. apply (grid_ind (λ i j, i ≤ length left → j ≤ length right →
    omap value (selectLCS left right i j []) `sublist_of` take i left ∧
    omap value (selectLCS left right i j []) `sublist_of` take j right)).
  - intros j _ _. simpl. split; apply sublist_nil_l.
  - intros i _ _. rewrite selectLCS_0_r. simpl. split; apply sublist_nil_l.
  - intros i j IHd IHu IHl Hi Hj. rewrite selectLCS_S.
    destruct (keyEq left right i j) eqn:Hkey.
    + destruct IHd as [Hl Hr]; [lia..|].
      destruct (keyEq_Some left right i j) as (x & Hx & Hy); [lia|done|].
      rewrite selectLCS_app, omap_app. simpl. rewrite Hx. simpl.
      rewrite (take_S_r left i x), (take_S_r right j x) by done.
      split; by apply sublist_app.
    + assert (∀ (l : list K) k, take k l `sublist_of` take (S k) l) as Hgrow.
      { intros l k. destruct (l !! k) as [x|] eqn:E.
        - rewrite (take_S_r l k x) by done. by apply sublist_inserts_r.
        - apply lookup_ge_None in E. by rewrite !take_ge by lia. }
      destruct (_ ?= _).
      * destruct IHl as [Hl Hr]; [lia..|]. split; [done|].
        by etrans; [|apply Hgrow].
      * destruct IHl as [Hl Hr]; [lia..|]. split; [done|].
        by etrans; [|apply Hgrow].
      * destruct IHu as [Hl Hr]; [lia..|]. split; [|done].
        by etrans; [|apply Hgrow].
Qed.

(** No common subsequence of the prefixes is longer than the table says. *)
Lemma lcsLen_upper left right i j :
  i ≤ length left → j ≤ length right →
  ∀ s, s `sublist_of` take i left → s `sublist_of` take j right →
       length s ≤ lcsLen left right i j.
Proof.
  revert i j. apply (grid_ind (λ i j, i ≤ length left → j ≤ length right →
    ∀ s, s `sublist_of` take i left → s `sublist_of` take j right →
         length s ≤ lcsLen left right i j)).
  - intros j _ _ s Hs _. apply sublist_nil_r in Hs. by subst.
  - intros i _ _ s _ Hs. rewrite take_0 in Hs.
    apply sublist_nil_r in Hs. subst. simpl. lia.
  - intros i j IHd IHu IHl Hi Hj s Hsl Hsr.
    destruct (lookup_lt_is_Some_2 left i) as [x Hx]; [lia|].
    destruct (lookup_lt_is_Some_2 right j) as [y Hy]; [lia|].
    pose proof Hsl as Hsl'. pose proof Hsr as Hsr'.
    rewrite (take_S_r left i x) in Hsl' by done.
    rewrite (take_S_r right j y) in Hsr' by done.
    apply sublist_app_r in Hsl' as (s1 & s2 & Hs & Hs1 & Hs2).
    apply sublist_app_r in Hsr' as (t1 & t2 & Ht & Ht1 & Ht2).
    assert (Hone : ∀ (u : list K) z, u `sublist_of` [z] → u = [] ∨ u = [z]).
    { intros u z [Hu|(u' & -> & Hu)]%sublist_cons_r.
      - left. by apply sublist_nil_r.
      - right. apply sublist_nil_r in Hu. by subst. }
    rewrite lcsLen_S. unfold keyEq. rewrite Hx, Hy.
    destruct (Hone _ _ Hs2) as [->| ->]; destruct (Hone _ _ Ht2) as [->| ->];
      rewrite ?app_nil_r in *; subst.
    + (* neither last key is used *)
      case_bool_decide.
      * assert (length t1 ≤ lcsLen left right i j); [|lia].
        apply IHd; [lia..|done|done].
      * assert (length t1 ≤ lcsLen left right i (S j)); [|lia].
        apply IHu; [lia..|done|done].
    + (* the last key of the right sequence is used *)
      case_bool_decide.
      * assert (length t1 ≤ lcsLen left right i j); [|rewrite length_app; simpl; lia].
        apply IHd; [lia..| |done].
        etrans; [|exact Hs1]. by apply sublist_inserts_r.
      * assert (length (t1 ++ [y]) ≤ lcsLen left right i (S j)); [|lia].
        apply IHu; [lia..|done|done].
    + (* the last key of the left sequence is used *)
      case_bool_decide.
      * assert (length s1 ≤ lcsLen left right i j); [|rewrite length_app; simpl; lia].
        apply IHd; [lia..|done|].
        etrans; [|exact Ht1]. by apply sublist_inserts_r.
      * assert (length (s1 ++ [x]) ≤ lcsLen left right (S i) j); [|lia].
        apply IHl; [lia..|done|done].
    + (* both are used: they are the same key *)
      apply app_inj_tail in Ht as [-> ->].
      rewrite bool_decide_eq_true_2 by done.
      assert (length t1 ≤ lcsLen left right i j); [|rewrite length_app; simpl; lia].
      apply IHd; [lia..|done|done].
Qed.

Lemma lcsLen_IsLcsLength left right i j :
  i ≤ length left → j ≤ length right →
  IsLcsLength (take i left) (take j right) (lcsLen left right i j).
Proof.
  intros Hi Hj. split.
  - exists (omap value (selectLCS left right i j [])).
    destruct (selectLCS_sublist left right i j) as [? ?]; [done..|].
    split_and!; [done..|].
    rewrite <- selectLCS_length.
    destruct (selectLCS_ok left right i j) as [Hall _]; [done..|].
    clear -Hall.
    induction Hall as [|p ps (_&_&x&Hv&_) _ IH]; [done|].
    simpl. rewrite Hv. simpl. f_equal. exact IH.
  - by apply lcsLen_upper.
Qed.

Lemma computeLCS_selectLCS left right :
  computeLCS left right = selectLCS left right (length left) (length right) [].
Proof. unfold computeLCS. by apply backtrack_selectLCS. Qed.

(** The matches returned are in range, pair equal keys and increase. *)
Lemma computeLCS_ok left right :
  Forall (matchOk left right (length left) (length right)) (computeLCS left right) ∧
  StronglySorted matchLt (computeLCS left right).
Proof. rewrite computeLCS_selectLCS. by apply selectLCS_ok. Qed.

(** C3. For every pair of key sequences, [computeLCS] returns index pairs
    that increase strictly on both sides, pair only equal keys, are as many
    as the longest common subsequence is long, and are the ones selected by
    backtracking from [(m, n)] over the lengths of the longest common
    subsequences of the prefixes: diagonally on equal keys, otherwise toward
    the larger neighbouring length, and on a tie with the right-sequence
    index decremented. *)
Theorem computeLCS_selected_lcs (left right : list K) :
  StronglySorted lt (leftIndex <$> computeLCS left right) ∧
  StronglySorted lt (rightIndex <$> computeLCS left right) ∧
  Forall (λ p, ∃ x, value p = Some x ∧ left !! leftIndex p = Some x
                    ∧ right !! rightIndex p = Some x)
         (computeLCS left right) ∧
  IsLcsLength left right (length (computeLCS left right)) ∧
  computeLCS left right
    = selectLCS left right (length left) (length right) [] ∧
  (∀ i j, i ≤ length left → j ≤ length right →
     IsLcsLength (take i left) (take j right) (lcsLen left right i j)).
Proof.
  destruct (computeLCS_ok left right) as [Hall Hsorted].
  split_and!.
  - eapply StronglySorted_fmap; [|exact Hsorted]. by intros p q [? ?].
  - eapply StronglySorted_fmap; [|exact Hsorted]. by intros p q [? ?].
  - eapply Forall_impl; [exact Hall|]. by intros p (_&_&?).
  - rewrite computeLCS_selectLCS, selectLCS_length.
    pose proof (lcsLen_IsLcsLength left right (length left) (length right)) as HL.
    rewrite !firstn_all in HL. by apply HL.
  - apply computeLCS_selectLCS.
  - apply lcsLen_IsLcsLength.
Qed.
End MatcherFacts.

(** ** The Line Differencer *)

Lemma Script_app key d1 ls1 rs1 d2 ls2 rs2 :
  Script key d1 ls1 rs1 → Script key d2 ls2 rs2 →
  Script key (d1 ++ d2) (ls1 ++ ls2) (rs1 ++ rs2).
Proof. induction 1; intros; simpl; [done|constructor; auto..]. Qed.

Lemma Script_left_nums key diff ls rs :
  Script key diff ls rs → omap leftLineNum diff = fst <$> ls.
Proof. induction 1; simpl; by f_equal. Qed.

Lemma Script_right_nums key diff ls rs :
  Script key diff ls rs → omap rightLineNum diff = fst <$> rs.
Proof. induction 1; simpl; by f_equal. Qed.

Section RawDiffFacts.
Variable key : string → string.
Variables leftFiltered rightFiltered : list string.
Variables leftMapping rightMapping : list nat.
Hypothesis left_lengths : length leftMapping = length leftFiltered.
Hypothesis right_lengths : length rightMapping = length rightFiltered.

Local Abbreviation lefts := (numbered leftFiltered leftMapping).
Local Abbreviation rights := (numbered rightFiltered rightMapping).
Local Abbreviation deletedHere := (deletedAt leftFiltered leftMapping).
Local Abbreviation addedHere := (addedAt rightFiltered rightMapping).

Lemma numbered_lookup filtered mapping i :
  length mapping = length filtered → i < length filtered →
  ∃ n l, numbered filtered mapping !! i = Some (n, l)
         ∧ filtered !! i = Some l ∧ lineNum mapping i = Some n.
Proof.
  intros Hlen Hi.
  destruct (lookup_lt_is_Some_2 filtered i Hi) as [l Hl].
  destruct (lookup_lt_is_Some_2 mapping i) as [k Hk]; [lia|].
  exists (k + 1), l. unfold numbered, lineNum.
  rewrite Hk. split_and!; [|done..].
  apply lookup_zip_with_Some. exists (k + 1), l.
  by rewrite list_lookup_fmap, Hk.
Qed.

Lemma numbered_length filtered mapping :
  length mapping = length filtered →
  length (numbered filtered mapping) = length filtered.
Proof. intros. unfold numbered. rewrite length_zip, length_fmap. lia. Qed.

(** A run of deletes pushed by an inner loop. *)
Lemma Script_deletes a n :
  a + n ≤ length leftFiltered →
  Script key (deletedHere <$> seq a n) (take n (drop a lefts)) [].
Proof.
  revert a. induction n as [|n IH]; intros a Ha; simpl; [constructor|].
  destruct (numbered_lookup leftFiltered leftMapping a) as (k & l & Hnl & Hl & Hk);
    [done|lia|].
  rewrite (drop_S _ _ _ Hnl). simpl.
  unfold deletedAt at 1. rewrite Hl, Hk. constructor. apply IH. lia.
Qed.

Lemma Script_adds b n :
  b + n ≤ length rightFiltered →
  Script key (addedHere <$> seq b n) [] (take n (drop b rights)).
Proof.
  revert b. induction n as [|n IH]; intros b Hb; simpl; [constructor|].
  destruct (numbered_lookup rightFiltered rightMapping b) as (k & l & Hnl & Hl & Hk);
    [done|lia|].
  rewrite (drop_S _ _ _ Hnl). simpl.
  unfold addedAt at 1. rewrite Hl, Hk. constructor. apply IH. lia.
Qed.

Lemma drop_split {A} (l : list A) a i x :
  a ≤ i → l !! i = Some x →
  drop a l = take (i - a) (drop a l) ++ x :: drop (i + 1) l.
Proof.
  intros Ha Hx. rewrite <- (take_drop (i - a) (drop a l)) at 1.
  f_equal. rewrite drop_drop. replace (a + (i - a)) with i by lia.
  rewrite (drop_S _ _ _ Hx). by rewrite Nat.add_1_r.
Qed.

(** The main loop, run on matches that are in range, pair lines of equal
    keys, increase, and lie at or after the current positions. *)
Lemma rawDiff_Script lcs a b :
  Forall (matchOk (key <$> leftFiltered) (key <$> rightFiltered)
                  (length leftFiltered) (length rightFiltered)) lcs →
  StronglySorted matchLt lcs →
  Forall (λ p, a ≤ leftIndex p ∧ b ≤ rightIndex p) lcs →
  Script key
    (rawDiff leftFiltered rightFiltered leftMapping rightMapping lcs a b)
    (drop a lefts) (drop b rights).
Proof.
  revert a b. induction lcs as [|p lcs IH]; intros a b Hok Hsorted Hfrom.
  - simpl. destruct (decide (a < length leftFiltered ∨ b < length rightFiltered))
      as [Hlt|Hge].
    + replace (bool_decide _ || bool_decide _) with true
        by (symmetry; apply orb_true_iff; rewrite !bool_decide_eq_true; done).
      unfold pushWhileBelow.
      pose proof (Script_deletes a (length leftFiltered - a)) as Hd.
      pose proof (Script_adds b (length rightFiltered - b)) as Ha.
      rewrite take_ge in Hd by (rewrite length_drop, numbered_length; [lia|done]).
      rewrite take_ge in Ha by (rewrite length_drop, numbered_length; [lia|done]).
      destruct (decide (a ≤ length leftFiltered));
        destruct (decide (b ≤ length rightFiltered)).
      * pose proof (Script_app _ _ _ _ _ _ _ (Hd ltac:(lia)) (Ha ltac:(lia))) as Hs.
        by rewrite app_nil_r in Hs.
      * replace (length rightFiltered - b) with 0 by lia. simpl.
        rewrite app_nil_r. rewrite (drop_ge rights) by (rewrite numbered_length; [lia|done]).
        apply Hd. lia.
      * replace (length leftFiltered - a) with 0 by lia. simpl.
        rewrite (drop_ge lefts) by (rewrite numbered_length; [lia|done]).
        apply Ha. lia.
      * lia.
    + replace (bool_decide _ || bool_decide _) with false
        by (symmetry; apply orb_false_iff; rewrite !bool_decide_eq_false; lia).
      rewrite !drop_ge by (rewrite numbered_length; [lia|done]). constructor.
  - apply Forall_cons in Hok as [(Hli & Hri & x & _ & Hlx & Hrx) Hok].
    apply StronglySorted_cons in Hsorted as [Hnext Hsorted].
    apply Forall_cons in Hfrom as [[Hla Hrb] _].
    simpl.
    replace (bool_decide _ || bool_decide _) with true
      by (symmetry; apply orb_true_iff; rewrite !bool_decide_eq_true; lia).
    rewrite !Nat.max_r by done.
    destruct (numbered_lookup leftFiltered leftMapping (leftIndex p))
      as (n & l & Hnl & Hl & Hn); [done..|].
    destruct (numbered_lookup rightFiltered rightMapping (rightIndex p))
      as (n' & l' & Hnl' & Hl' & Hn'); [done..|].
    rewrite (drop_split lefts a _ _ Hla Hnl), (drop_split rights b _ _ Hrb Hnl').
    unfold pushWhileBelow.
    pose proof (Script_deletes a (leftIndex p - a) ltac:(lia)) as Hd.
    pose proof (Script_adds b (rightIndex p - b) ltac:(lia)) as Ha.
    assert (Script key
      (unchangedAt leftFiltered rightFiltered leftMapping rightMapping
                   (leftIndex p) (rightIndex p)
       :: rawDiff leftFiltered rightFiltered leftMapping rightMapping lcs
                  (leftIndex p + 1) (rightIndex p + 1))
      ((n, l) :: drop (leftIndex p + 1) lefts)
      ((n', l') :: drop (rightIndex p + 1) rights)) as Hu.
    { unfold unchangedAt. rewrite Hl, Hn, Hl', Hn'. constructor.
      - rewrite list_lookup_fmap, Hl in Hlx. rewrite list_lookup_fmap, Hl' in Hrx.
        simpl in *. congruence.
      - apply IH; [done..|]. eapply Forall_impl; [exact Hnext|].
        intros q [? ?]. lia. }
    exact (Script_app _ _ _ _ _ _ _ Hd (Script_app _ _ _ _ _ _ _ Ha Hu)).
Qed.
End RawDiffFacts.

(** ** The Block Merger *)

Lemma zipRuns_nil_r deletes : zipRuns deletes [] = deletes.
Proof. by destruct deletes. Qed.

(** The entry pushed at lines 174-180 is the paired entry. *)
Lemma modifiedOf_pairedEntry d a : modifiedOf d a = pairedEntry d a.
Proof. reflexivity. Qed.

Lemma pairRuns_zipRuns deletes adds : pairRuns deletes adds = zipRuns deletes adds.
Proof.
  unfold pairRuns. revert adds.
  induction deletes as [|d ds IH]; intros [|a as']; try done.
  - simpl. by rewrite app_nil_r.
  - cbn [length Nat.min take zip_with app zipRuns].
    apply (f_equal2 cons); [symmetry; apply modifiedOf_pairedEntry|apply IH].
Qed.

Lemma omap_fmap_compose {A B C} (f : B → option C) (g : A → B) (l : list A) :
  omap f (g <$> l) = omap (λ x, f (g x)) l.
Proof. induction l as [|x l IH]; [done|]. csimpl. by rewrite IH. Qed.

Lemma omap_ext_all {A B} (f g : A → option B) (l : list A) :
  (∀ x, f x = g x) → omap f l = omap g l.
Proof. intros Hfg. induction l as [|x l IH]; [done|]. csimpl. by rewrite Hfg, IH. Qed.

(** The [for] loop over [j] pushes the pairing. *)
Lemma mergeLoop_zipRuns deletes adds :
  omap (λ j,
    if bool_decide (j < length deletes) && bool_decide (j < length adds)
    then d ← deletes !! j; a ← adds !! j; Some (modifiedOf d a)
    else if bool_decide (j < length deletes) then deletes !! j
    else adds !! j) (seq 0 (length deletes `max` length adds))
  = zipRuns deletes adds.
Proof.
  revert adds. induction deletes as [|d ds IH]; intros adds.
  - simpl. destruct adds as [|a as']; [done|].
    change (zipRuns [] (a :: as')) with (a :: as').
    generalize (a :: as'). clear. intros l.
    induction l as [|x l IHl]; [done|].
    simpl. f_equal. rewrite <- fmap_S_seq, omap_fmap_compose. exact IHl.
  - destruct adds as [|a as'].
    + simpl. f_equal. rewrite <- fmap_S_seq, omap_fmap_compose.
      etrans; [|exact (eq_trans (IH []) (zipRuns_nil_r ds))].
      rewrite Nat.max_0_r.
      apply omap_ext_all. intros j. simpl.
      by repeat case_bool_decide; try lia.
    + simpl. f_equal. rewrite <- fmap_S_seq, omap_fmap_compose.
      rewrite <- (IH as').
      apply omap_ext_all. intros j. simpl.
      by repeat case_bool_decide; try lia.
Qed.

Lemma mergeRun_zipRuns deletes adds :
  deletes ≠ [] → mergeRun deletes adds = zipRuns deletes adds.
Proof.
  intros Hd. unfold mergeRun.
  destruct deletes as [|d ds]; [done|]. destruct adds as [|a as'].
  - by rewrite andb_false_r.
  - exact (mergeLoop_zipRuns (d :: ds) (a :: as')).
Qed.

Lemma mergeBlocks_deleted e rest :
  type e = deleted →
  mergeBlocks (e :: rest) =
    mergeRun (e :: takeWhile (isType deleted) rest)
             (takeWhile (isType added) (dropWhile (isType deleted) rest))
    ++ mergeBlocks (dropWhile (isType added) (dropWhile (isType deleted) rest)).
Proof. intros He. simp mergeBlocks. rewrite He. by simpl. Qed.

Lemma mergeBlocks_other e rest :
  type e ≠ deleted → mergeBlocks (e :: rest) = e :: mergeBlocks rest.
Proof. intros He. simp mergeBlocks. by destruct (type e). Qed.

Lemma takeWhile_dropWhile {A} (p : A → bool) (l : list A) :
  takeWhile p l ++ dropWhile p l = l.
Proof. induction l as [|x l IH]; simpl; [done|]. destruct (p x); simpl; by f_equal. Qed.

Lemma takeWhile_Forall {A} (p : A → bool) (l : list A) :
  Forall (λ x, p x = true) (takeWhile p l).
Proof.
  induction l as [|x l IH]; simpl; [constructor|].
  destruct (p x) eqn:E; by constructor.
Qed.

Lemma dropWhile_head {A} (p : A → bool) (l : list A) x :
  head (dropWhile p l) = Some x → p x = false.
Proof.
  induction l as [|y l IH]; simpl; [done|].
  destruct (p y) eqn:E; [done|]. simpl. by intros [= <-].
Qed.

(** A run of [p] followed by something that does not start with [p]. *)
Lemma span_app {A} (p : A → bool) (run after : list A) :
  Forall (λ x, p x = true) run →
  (∀ x, head after = Some x → p x = false) →
  takeWhile p (run ++ after) = run ∧ dropWhile p (run ++ after) = after.
Proof.
  intros Hrun Hafter. induction Hrun as [|x run Hx _ [IH1 IH2]]; simpl.
  - destruct after as [|y after]; [done|]. simpl. by rewrite (Hafter y).
  - rewrite Hx. by rewrite IH1, IH2.
Qed.

Lemma isType_true t e : isType t e = true ↔ type e = t.
Proof. unfold isType. by rewrite bool_decide_eq_true. Qed.

Lemma isType_false t e : isType t e = false ↔ type e ≠ t.
Proof. unfold isType. by rewrite bool_decide_eq_false. Qed.

(** The loop at a run of deletes, the adds after it, and what follows. *)
Lemma mergeBlocks_runs deletes adds post :
  deletes ≠ [] →
  Forall (λ e, type e = deleted) deletes →
  Forall (λ e, type e = added) adds →
  notStartingWith added post →
  (adds = [] → notStartingWith deleted post) →
  mergeBlocks (deletes ++ adds ++ post)
  = zipRuns deletes adds ++ mergeBlocks post.
Proof.
  intros Hne Hd Ha Hpost Hpost'.
  destruct deletes as [|e ds]; [done|].
  apply Forall_cons in Hd as [He Hd].
  rewrite <- app_comm_cons, mergeBlocks_deleted by done.
  destruct (span_app (isType deleted) ds (adds ++ post)) as [-> ->].
  { eapply Forall_impl; [exact Hd|]. intros x. by rewrite isType_true. }
  { intros x Hx. apply isType_false. destruct adds as [|a adds].
    - by apply Hpost'.
    - simpl in Hx. injection Hx as <-. apply Forall_cons in Ha as [-> _]. done. }
  destruct (span_app (isType added) adds post) as [-> ->].
  { eapply Forall_impl; [exact Ha|]. intros x. by rewrite isType_true. }
  { intros x Hx. apply isType_false. by apply Hpost. }
  by rewrite mergeRun_zipRuns.
Qed.

Lemma mergeBlocks_no_deleted diff :
  Forall (λ e, type e ≠ deleted) diff → mergeBlocks diff = diff.
Proof.
  induction 1 as [|e diff He _ IH]; [by simp mergeBlocks|].
  by rewrite mergeBlocks_other, IH.
Qed.

Lemma notEndingWith_cons t e pre :
  pre ≠ [] → notEndingWith t (e :: pre) → notEndingWith t pre.
Proof.
  intros Hne Hend x Hx. apply Hend. destruct pre; [done|]. by rewrite last_cons, Hx.
Qed.

Lemma notEndingWith_app t pre1 pre2 :
  pre2 ≠ [] → notEndingWith t (pre1 ++ pre2) → notEndingWith t pre2.
Proof.
  intros Hne Hend x Hx. apply Hend. rewrite last_app. by rewrite Hx.
Qed.

Lemma Forall_last {A} (P : A → Prop) (l : list A) x :
  Forall P l → last l = Some x → P x.
Proof.
  intros Hall Hx. rewrite Forall_forall in Hall.
  by apply Hall, last_Some_elem_of.
Qed.

(** Any list starts with a run of deletes and a run of adds (either may be
    empty) that cannot be extended. *)
Lemma runs_split (l : list DiffEntry) :
  ∃ ds as' l',
    l = ds ++ as' ++ l' ∧
    Forall (λ e, type e = deleted) ds ∧
    Forall (λ e, type e = added) as' ∧
    notStartingWith added l' ∧
    (as' = [] → notStartingWith deleted l').
Proof.
  exists (takeWhile (isType deleted) l),
         (takeWhile (isType added) (dropWhile (isType deleted) l)),
         (dropWhile (isType added) (dropWhile (isType deleted) l)).
  split_and!.
  - by rewrite !takeWhile_dropWhile.
  - eapply Forall_impl; [apply takeWhile_Forall|]. intros x. by rewrite isType_true.
  - eapply Forall_impl; [apply takeWhile_Forall|]. intros x. by rewrite isType_true.
  - intros x Hx. apply isType_false. by eapply dropWhile_head.
  - intros Hnil x Hx. apply isType_false.
    apply (dropWhile_head (isType deleted) l).
    by rewrite <- (takeWhile_dropWhile (isType added) (dropWhile _ l)), Hnil.
Qed.

(** The loop can be cut where no run of deletes, and no run of adds that
    follows one, is cut in two. *)
Lemma mergeBlocks_app pre post :
  notEndingWith deleted pre →
  notEndingWith added pre ∨ notStartingWith added post →
  mergeBlocks (pre ++ post) = mergeBlocks pre ++ mergeBlocks post.
Proof.
  remember (length pre) as n eqn:Hn. revert pre Hn.
  induction n as [n IH] using lt_wf_ind. intros pre -> Hend Hcut.
  destruct pre as [|e pre]; [by simp mergeBlocks|].
  destruct (decide (type e = deleted)) as [He|He].
  - (* a run of deletes starts here; it ends inside [pre] *)
    destruct (runs_split pre) as (ds & as' & pre' & -> & Hds & Has & Hpre' & Hpre'').
    assert (Hds' : Forall (λ e, type e = deleted) (e :: ds)) by by constructor.
    assert (Hlater : as' = [] → pre' ≠ []).
    { intros -> ->. rewrite !app_nil_r in Hend.
      destruct (last (e :: ds)) as [x|] eqn:Hlast; [|by apply last_None in Hlast].
      apply (Hend x Hlast). by eapply (Forall_last _ _ _ Hds'). }
    assert (Hcut' : pre' = [] → notStartingWith added post).
    { intros ->. destruct Hcut as [Hcut|Hcut]; [|done]. rewrite app_nil_r in *.
      destruct as' as [|a as'] using rev_ind; [by specialize (Hlater eq_refl)|].
      exfalso. apply (Hcut a).
      - apply last_Some. exists (e :: ds ++ as'). simpl. by rewrite <- !app_assoc.
      - apply Forall_app in Has as [_ Ha]. by inversion Ha. }
    rewrite app_comm_cons.
    rewrite (mergeBlocks_runs (e :: ds) as' pre') by done.
    rewrite <- !app_assoc.
    rewrite (mergeBlocks_runs (e :: ds) as' (pre' ++ post)); [|done..| |].
    + f_equal.
      destruct (decide (pre' = [])) as [->|Hne]; [by simp mergeBlocks|].
      apply (IH (length pre')); [|done| |].
      * simpl. rewrite !length_app. lia.
      * rewrite app_comm_cons, app_assoc in Hend. by eapply notEndingWith_app.
      * destruct Hcut as [Hcut|Hcut]; [left|by right].
        rewrite app_comm_cons, app_assoc in Hcut. by eapply notEndingWith_app.
    + intros x Hx. destruct pre' as [|y pre'']; [|by apply Hpre'].
      by apply (Hcut' eq_refl).
    + intros Hnil x Hx. specialize (Hlater Hnil).
      destruct pre' as [|y pre'']; [done|]. by apply Hpre''.
  - rewrite <- app_comm_cons, !mergeBlocks_other by done. simpl. f_equal.
    destruct (decide (pre = [])) as [->|Hne]; [by simp mergeBlocks|].
    apply (IH (length pre)); [simpl; lia|done| |].
    + by eapply notEndingWith_cons.
    + destruct Hcut as [Hcut|Hcut]; [left|by right].
      by eapply notEndingWith_cons.
Qed.

(** C4. In the merge phase, a maximal run of deletes immediately followed
    by a maximal run of adds is replaced by the modified entries that pair
    the k-th delete with the k-th add, for k below the shorter length, each
    with the left line and number of the delete and the right line and number
    of the add ([pairedEntry]), and then by what is left of the longer run,
    unchanged and in order; a run of deletes with no add after it, and a run
    of adds with no delete before it, pass through (the cases [adds = []] and
    [deletes = []]). What is before and after the two runs is merged on its
    own. *)
Theorem mergeBlocks_pairs_runs (pre deletes adds post : list DiffEntry) :
  Forall (λ e, type e = deleted) deletes →
  Forall (λ e, type e = added) adds →
  notEndingWith deleted pre →
  (deletes = [] → notEndingWith added pre) →
  notStartingWith added post →
  (adds = [] → notStartingWith deleted post) →
  mergeBlocks (pre ++ deletes ++ adds ++ post)
  = mergeBlocks pre ++ pairRuns deletes adds ++ mergeBlocks post.
Proof.
  intros Hd Ha Hpre Hpre' Hpost Hpost'.
  rewrite mergeBlocks_app; [f_equal|done|].
  - rewrite pairRuns_zipRuns. destruct deletes as [|d ds].
    + replace (zipRuns [] adds) with adds by by destruct adds.
      simpl. rewrite mergeBlocks_app;
        [|intros e He; by rewrite (Forall_last _ _ _ Ha He) | by right].
      rewrite mergeBlocks_no_deleted; [done|].
      eapply Forall_impl; [exact Ha|]. by intros e ->.
    + by apply mergeBlocks_runs.
  - destruct deletes as [|d ds]; [left; by apply Hpre'|right].
    intros e [= <-]. apply Forall_cons in Hd as [-> _]. done.
Qed.

Lemma mergeBlocks_pairs_runs_witness :
  let u := mkEntry unchanged (Some "a") (Some 1) (Some "a") (Some 1) in
  let d1 := mkEntry deleted (Some "b") (Some 2) None None in
  let d2 := mkEntry deleted (Some "c") (Some 3) None None in
  let a1 := mkEntry added None None (Some "x") (Some 2) in
  let v := mkEntry unchanged (Some "d") (Some 4) (Some "d") (Some 3) in
  mergeBlocks ([u] ++ [d1; d2] ++ [a1] ++ [v])
  = mergeBlocks [u] ++ pairRuns [d1; d2] [a1] ++ mergeBlocks [v] ∧
  mergeBlocks [u] ++ pairRuns [d1; d2] [a1] ++ mergeBlocks [v]
  = [mkEntry unchanged (Some "a") (Some 1) (Some "a") (Some 1);
     mkEntry modified (Some "b") (Some 2) (Some "x") (Some 2);
     mkEntry deleted (Some "c") (Some 3) None None;
     mkEntry unchanged (Some "d") (Some 4) (Some "d") (Some 3)].
Proof.
  intros u d1 d2 a1 v. split; [|reflexivity].
  apply (mergeBlocks_pairs_runs [u] [d1; d2] [a1] [v]).
  - repeat constructor.
  - repeat constructor.
  - intros e He. injection He as <-. discriminate.
  - intros He. discriminate He.
  - intros e He. injection He as <-. discriminate.
  - intros He. discriminate He.
Defined.

(** *** Merging keeps the lines of both sides *)

Lemma Script_split_deletes key ds rest ls rs :
  Forall (λ e, type e = deleted) ds →
  Script key (ds ++ rest) ls rs →
  ∃ ls1 ls2, ls = ls1 ++ ls2 ∧ Script key ds ls1 [] ∧ Script key rest ls2 rs.
Proof.
  intros Hds. revert ls. induction Hds as [|d ds Hd _ IH]; intros ls Hs.
  - exists [], ls. split_and!; [done|constructor|done].
  - simpl in Hs. inversion Hs; subst; try discriminate.
    destruct (IH _ ltac:(eassumption)) as (ls1 & ls2 & -> & ? & ?).
    exists ((n, l) :: ls1), ls2. split_and!; [done|by constructor|done].
Qed.

Lemma Script_split_adds key as' rest ls rs :
  Forall (λ e, type e = added) as' →
  Script key (as' ++ rest) ls rs →
  ∃ rs1 rs2, rs = rs1 ++ rs2 ∧ Script key as' [] rs1 ∧ Script key rest ls rs2.
Proof.
  intros Has. revert rs. induction Has as [|a as' Ha _ IH]; intros rs Hs.
  - exists [], rs. split_and!; [done|constructor|done].
  - simpl in Hs. inversion Hs; subst; try discriminate.
    destruct (IH _ ltac:(eassumption)) as (rs1 & rs2 & -> & ? & ?).
    exists ((n', l') :: rs1), rs2. split_and!; [done|by constructor|done].
Qed.

Lemma Script_zipRuns key ds as' ls rs :
  Script key ds ls [] → Script key as' [] rs →
  Script key (zipRuns ds as') ls rs.
Proof.
  intros Hd. remember [] as none eqn:Hnone in Hd. revert as' rs.
  induction Hd as [| | n l ds0 ls0 rs0 Hd IH | |]; intros as' rs' Ha;
    try discriminate.
  - by destruct as'.
  - subst rs0. inversion Ha; subst.
    + simpl. by constructor.
    + simpl. apply (Script_modified key n l n' l'). by apply IH.
Qed.

Lemma mergeBlocks_Script key diff ls rs :
  Script key diff ls rs → Script key (mergeBlocks diff) ls rs.
Proof.
  remember (length diff) as n eqn:Hn. revert diff ls rs Hn.
  induction n as [n IH] using lt_wf_ind. intros diff ls rs -> Hs.
  destruct diff as [|e diff]; [by simp mergeBlocks|].
  destruct (decide (type e = deleted)) as [He|He].
  - destruct (runs_split diff) as (ds & as' & rest & -> & Hds & Has & Hrest & Hrest').
    rewrite app_comm_cons in Hs |- *.
    rewrite mergeBlocks_runs by (done || by constructor).
    apply Script_split_deletes in Hs as (ls1 & ls2 & -> & Hs1 & Hs); [|by constructor].
    apply Script_split_adds in Hs as (rs1 & rs2 & -> & Hs2 & Hs); [|done].
    apply Script_app; [by apply Script_zipRuns|].
    apply (IH (length rest)); [|done..]. simpl. rewrite !length_app. lia.
  - rewrite mergeBlocks_other by done.
    inversion Hs; subst; simpl in He; try done; constructor; try done;
      by apply (IH (length diff)); [simpl; lia|..].
Qed.

(** ** [computeLineDiff] as a whole *)

Lemma filter_all {A} (P : A → Prop) `{∀ x, Decision (P x)} (l : list A) :
  (∀ x, P x) → filter P l = l.
Proof.
  intros HP. induction l as [|x l IH]; [done|].
  by rewrite filter_cons_True, IH.
Qed.

Lemma filterBlank_lengths i lines :
  length (filterBlank i lines).2 = length (filterBlank i lines).1.
Proof.
  revert i. induction lines as [|line lines IH]; intros i; simpl; [done|].
  specialize (IH (S i)). destruct (filterBlank (S i) lines) as [f m].
  destruct (truthy (trim line)); simpl in *; lia.
Qed.

Lemma filterBlank_numbered o i lines :
  ignoreBlankLines o = true →
  numbered (filterBlank i lines).1 (filterBlank i lines).2
  = filter (λ nl, keeps o nl = true) (numberedFrom (i + 1) lines).
Proof.
  intros Ho. revert i. induction lines as [|line lines IH]; intros i; simpl; [done|].
  specialize (IH (S i)). destruct (filterBlank (S i) lines) as [f m].
  assert (Hk : keeps o (i + 1, line) = truthy (trim line))
    by (unfold keeps; by rewrite Ho).
  unfold numberedFrom. simpl. rewrite filter_cons.
  simpl in *. unfold numberedFrom in IH. rewrite <- IH.
  destruct (truthy (trim line)); simpl.
  - rewrite decide_True by done. done.
  - rewrite decide_False by (rewrite Hk; done). done.
Qed.

Lemma filterLines_lengths o lines :
  length (filterLines o lines).2 = length (filterLines o lines).1.
Proof.
  unfold filterLines. destruct (ignoreBlankLines o).
  - apply filterBlank_lengths.
  - simpl. by rewrite length_seq.
Qed.

Lemma filterLines_numbered o lines :
  numbered (filterLines o lines).1 (filterLines o lines).2 = survivors o lines.
Proof.
  unfold filterLines, survivors. destruct (ignoreBlankLines o) eqn:Ho.
  - by rewrite (filterBlank_numbered o).
  - simpl. unfold numbered, numberedFrom.
    rewrite filter_all.
    + f_equal. rewrite <- fmap_S_seq. apply list_fmap_ext. intros; lia.
    + intros nl. unfold keeps. by rewrite Ho.
Qed.

(** The diff is an edit script from the surviving lines of the left input
    to those of the right input. *)
Lemma computeLineDiff_Script o leftLines rightLines :
  Script (processLine o) (computeLineDiff o leftLines rightLines)
         (survivors o leftLines) (survivors o rightLines).
Proof.
  unfold computeLineDiff.
  rewrite <- !filterLines_numbered.
  pose proof (filterLines_lengths o leftLines) as Hl.
  pose proof (filterLines_lengths o rightLines) as Hr.
  destruct (filterLines o leftLines) as [lf lm].
  destruct (filterLines o rightLines) as [rf rm]. simpl in *.
  apply mergeBlocks_Script.
  destruct (computeLCS_ok (processLine o <$> lf) (processLine o <$> rf))
    as [Hok Hsorted].
  rewrite !length_fmap in Hok.
  apply (rawDiff_Script (processLine o) lf rf lm rm Hl Hr _ 0 0 Hok Hsorted).
  apply Forall_forall. intros; lia.
Qed.

(** *** The numbers of the surviving lines *)

Lemma survivors_from_sorted (P : nat * string → bool) start lines :
  StronglySorted lt (fst <$> filter (λ nl, P nl = true) (numberedFrom start lines)) ∧
  Forall (λ n, start ≤ n)
         (fst <$> filter (λ nl, P nl = true) (numberedFrom start lines)).
Proof.
  revert start. induction lines as [|line lines IH]; intros start.
  - split; constructor.
  - destruct (IH (S start)) as [Hs Hall].
    unfold numberedFrom in *. simpl. rewrite filter_cons.
    assert (Hall' : Forall (λ n, start < n)
      (fst <$> filter (λ nl, P nl = true) (zip (seq (S start) (length lines)) lines))).
    { eapply Forall_impl; [exact Hall|]. intros; simpl in *; lia. }
    destruct (decide (P (start, line) = true)); simpl.
    + split; constructor; try done.
      eapply Forall_impl; [exact Hall|]. intros; simpl in *; lia.
    + split; [done|]. eapply Forall_impl; [exact Hall|]. intros; simpl in *; lia.
Qed.

Lemma survivors_from_count (P : nat * string → bool) start lines k :
  length (filter (λ n, n = k)
            (fst <$> filter (λ nl, P nl = true) (numberedFrom start lines)))
  = match lines !! (k - start) with
    | Some line => if bool_decide (start ≤ k) && P (k, line) then 1 else 0
    | None => 0
    end.
Proof.
  revert start. induction lines as [|line lines IH]; intros start; [done|].
  specialize (IH (S start)).
  change (numberedFrom start (line :: lines))
    with ((start, line) :: numberedFrom (S start) lines).
  set (later := fst <$> filter (λ nl, P nl = true) (numberedFrom (S start) lines))
    in *.
  assert (Hhere :
    length (filter (λ n, n = k)
      (fst <$> filter (λ nl, P nl = true)
                 ((start, line) :: numberedFrom (S start) lines)))
    = (if bool_decide (start = k) && P (start, line) then 1 else 0)
      + length (filter (λ n, n = k) later)).
  { destruct (P (start, line)) eqn:HP.
    - rewrite filter_cons_True by done. rewrite fmap_cons. simpl fst.
      destruct (decide (start = k)).
      + rewrite filter_cons_True by done.
        by rewrite (bool_decide_eq_true_2 (start = k)) by done.
      + rewrite filter_cons_False by done.
        by rewrite (bool_decide_eq_false_2 (start = k)) by done.
    - rewrite filter_cons_False by (by rewrite HP). by rewrite andb_false_r. }
  rewrite Hhere, IH. clear Hhere IH.
  destruct (decide (start = k)) as [->|Hne].
  - rewrite Nat.sub_diag. simpl.
    replace (k - S k) with 0 by lia.
    rewrite (bool_decide_eq_false_2 (S k ≤ k)) by lia.
    rewrite (bool_decide_eq_true_2 (k = k)) by done.
    rewrite (bool_decide_eq_true_2 (k ≤ k)) by lia. simpl.
    destruct (lines !! 0), (P (k, line)); done.
  - rewrite (bool_decide_eq_false_2 (start = k)) by done. simpl.
    destruct (decide (start < k)).
    + replace (k - start) with (S (k - S start)) by lia. simpl.
      destruct (lines !! (k - S start)); [|done].
      by rewrite !(bool_decide_eq_true_2 (_ ≤ _)) by lia.
    + replace (k - start) with 0 by lia. replace (k - S start) with 0 by lia.
      simpl. rewrite !(bool_decide_eq_false_2 (_ ≤ _)) by lia. simpl.
      by destruct (lines !! 0).
Qed.

Lemma survivors_count o lines k :
  length (filter (λ n, n = k) (fst <$> survivors o lines))
  = if lineSurvives o lines k then 1 else 0.
Proof.
  unfold survivors. rewrite survivors_from_count. unfold lineSurvives, keeps.
  destruct k as [|i]; simpl.
  - by destruct (lines !! 0).
  - rewrite Nat.sub_0_r. by destruct (lines !! i).
Qed.

Lemma count_omap {A} (f : A → option nat) (l : list A) k :
  length (filter (λ x, f x = Some k) l) = length (filter (λ n, n = k) (omap f l)).
Proof.
  induction l as [|x l IH]; [done|].
  rewrite filter_cons. csimpl. destruct (f x) as [n|] eqn:E.
  - rewrite filter_cons. destruct (decide (n = k)) as [->|Hne].
    + rewrite decide_True by done. simpl. by rewrite IH.
    + rewrite decide_False by congruence. done.
  - rewrite decide_False by done. done.
Qed.

(** C1. For every pair of line lists and every options setting, a line
    number occurs as the [leftLineNum] of exactly one entry of the merged
    output when it is the number of a surviving left line (and of no entry
    otherwise), and as the [rightLineNum] of exactly one entry when it is the
    number of a surviving right line. *)
Theorem computeLineDiff_partition (o : Options) (leftLines rightLines : list string)
    (num : nat) :
  countLeftNum num (computeLineDiff o leftLines rightLines)
    = (if lineSurvives o leftLines num then 1 else 0) ∧
  countRightNum num (computeLineDiff o leftLines rightLines)
    = (if lineSurvives o rightLines num then 1 else 0).
Proof.
  pose proof (computeLineDiff_Script o leftLines rightLines) as Hs.
  unfold countLeftNum, countRightNum. rewrite !count_omap.
  rewrite (Script_left_nums _ _ _ _ Hs), (Script_right_nums _ _ _ _ Hs).
  split; apply survivors_count.
Qed.

(** C10. In the merged output of [computeLineDiff], for every options
    setting, the left line numbers that are not null increase strictly in
    entry order, and so do the right line numbers. *)
Theorem computeLineDiff_increasing (o : Options) (leftLines rightLines : list string) :
  StronglySorted lt (omap leftLineNum (computeLineDiff o leftLines rightLines)) ∧
  StronglySorted lt (omap rightLineNum (computeLineDiff o leftLines rightLines)).
Proof.
  pose proof (computeLineDiff_Script o leftLines rightLines) as Hs.
  rewrite (Script_left_nums _ _ _ _ Hs), (Script_right_nums _ _ _ _ Hs).
  split; apply survivors_from_sorted.
Qed.

(** *** Identical inputs *)

Section SameKeys.
Context {K : Type} `{EqDecision K}.

(** On two equal sequences the loop steps diagonally all the way, whatever
    the table holds. *)
Lemma backtrack_same (keys : list K) dp i lcs :
  backtrack keys keys dp i i lcs
  = ((λ k, mkMatch k k (keys !! k)) <$> seq 0 i) ++ lcs.
Proof.
  revert lcs. induction i as [|i IH]; intros lcs; [done|].
  rewrite backtrack_S. unfold keyEq. rewrite bool_decide_eq_true_2 by done.
  rewrite IH, seq_S, fmap_app. simpl. by rewrite <- app_assoc.
Qed.

Lemma computeLCS_same (keys : list K) :
  computeLCS keys keys
  = (λ k, mkMatch k k (keys !! k)) <$> seq 0 (length keys).
Proof. unfold computeLCS. by rewrite backtrack_same, app_nil_r. Qed.
End SameKeys.

(** With a match at every position the main loop pushes only unchanged
    entries. *)
Lemma rawDiff_same (lines : list string) (mapping : list nat)
    (values : nat → option string) len a :
  a + len = length lines →
  rawDiff lines lines mapping mapping
          ((λ k, mkMatch k k (values k)) <$> seq a len) a a
  = (λ k, unchangedAt lines lines mapping mapping k k) <$> seq a len.
Proof.
  revert a. induction len as [|len IH]; intros a Ha; simpl.
  - by rewrite !bool_decide_eq_false_2 by lia.
  - rewrite !bool_decide_eq_true_2 by lia. simpl.
    unfold pushWhileBelow. rewrite Nat.sub_diag, Nat.max_id. simpl.
    f_equal. rewrite Nat.add_1_r. apply IH. lia.
Qed.

(** C2. For every list of lines, diffing it against itself with the default
    options returns one unchanged entry per line, in order: the entry for
    line [i + 1] carries that line and that number on both sides. *)
Theorem computeLineDiff_same (lines : list string) :
  computeLineDiff defaultOptions lines lines
  = imap (λ i line, mkEntry unchanged (Some line) (Some (i + 1))
                            (Some line) (Some (i + 1))) lines.
Proof.
  unfold computeLineDiff. simpl.
  assert (Hid : processLine defaultOptions <$> lines = lines).
  { rewrite <- (list_fmap_id lines) at 2. by apply list_fmap_ext. }
  rewrite Hid, computeLCS_same, rawDiff_same by done.
  rewrite mergeBlocks_no_deleted.
  - apply list_eq. intros i.
    rewrite list_lookup_fmap, list_lookup_imap.
    destruct (lines !! i) as [line|] eqn:Hline.
    + pose proof (lookup_lt_Some _ _ _ Hline) as Hi.
      rewrite lookup_seq_lt by done. simpl.
      unfold unchangedAt, lineNum. by rewrite Hline, lookup_seq_lt.
    + apply lookup_ge_None in Hline. by rewrite lookup_seq_ge.
  - apply Forall_fmap, Forall_forall. by intros k _.
Qed.

(** ** The Alignment Calculator *)

Lemma flushZones_rows st :
  sum_list (heightInLines <$> flushZones st) = heldRows st.
Proof.
  unfold flushZones, heldRows. case_bool_decide.
  - rewrite fmap_app, sum_list_with_app. simpl. lia.
  - lia.
Qed.

Lemma zoneStep_rows side st e :
  heldRows (zoneStep side st e)
  = heldRows st + (if decide (needsGap side e) then 1 else 0).
Proof.
  unfold zoneStep.
  destruct (decide (needsGap side e)) as [[Hthis [n Hother]]|Hno].
  - rewrite Hthis, Hother. unfold heldRows. simpl. lia.
  - destruct (thisSideNum side e) as [n|] eqn:Hthis.
    + unfold heldRows at 1. simpl. rewrite flushZones_rows. unfold heldRows.
      case_bool_decide; lia.
    + destruct (otherSideNum side e) as [n|] eqn:Hother; [|lia].
      destruct Hno. split; [done|by eexists].
Qed.

Lemma zoneLoop_rows side diff st :
  heldRows (foldl (zoneStep side) st diff)
  = heldRows st + length (filter (needsGap side) diff).
Proof.
  revert st. induction diff as [|e diff IH]; intros st; simpl; [lia|].
  rewrite IH, zoneStep_rows, filter_cons.
  destruct (decide (needsGap side e)); simpl; lia.
Qed.

(** The entries that the loop gives a placeholder row are those that lack a
    line on the side while they have one on the other side. *)
Lemma needsGap_lacksLineOn side e : needsGap side e ↔ lacksLineOn side e.
Proof.
  unfold needsGap. destruct side; simpl;
    (split; intros [Hthis Hother]; split; [done| |done|]).
  - intros Hnone. rewrite Hnone in Hother. by destruct Hother.
  - by destruct (rightLineNum e); [eexists|].
  - intros Hnone. rewrite Hnone in Hother. by destruct Hother.
  - by destruct (leftLineNum e); [eexists|].
Qed.

(** C8. For every sequence of diff entries and each side, the heights of
    the zones of [computeViewZones] add up to the number of entries that
    have no line number on that side and have one on the other side: for the
    left side, the entries whose [leftLineNum] is null and whose
    [rightLineNum] is not, and the other way round for the right side. *)
Theorem computeViewZones_sum (diff : list DiffEntry) (side : Side) :
  sum_list (heightInLines <$> computeViewZones diff side)
  = length (filter (lacksLineOn side) diff).
Proof.
  unfold computeViewZones. rewrite flushZones_rows, zoneLoop_rows.
  unfold heldRows. simpl.
  rewrite (list_filter_iff (needsGap side) (lacksLineOn side))
    by apply needsGap_lacksLineOn.
  lia.
Qed.

(** ** Empty inputs *)

Lemma Script_no_left key diff rs :
  Script key diff [] rs → diff = addedOf <$> rs.
Proof.
  intros Hs. remember [] as none eqn:Hnone in Hs.
  induction Hs; try discriminate; [done|].
  simpl. f_equal. by apply IHHs.
Qed.

Lemma Script_no_right key diff ls :
  Script key diff ls [] → diff = deletedOf <$> ls.
Proof.
  intros Hs. remember [] as none eqn:Hnone in Hs.
  induction Hs; try discriminate; [done|].
  simpl. f_equal. by apply IHHs.
Qed.

Lemma survivors_empty_text ws ic :
  survivors (mkOptions ws ic true) (splitLines "") = [].
Proof. reflexivity. Qed.

(** With one line on the left, the entry that carries it is the only one
    that is not added. *)
Lemma Script_one_left key diff n l rs :
  Script key diff [(n, l)] rs →
  ∃ before e after,
    diff = (addedOf <$> before) ++ e :: (addedOf <$> after) ∧
    leftLine e = Some l ∧ leftLineNum e = Some n.
Proof.
  intros Hs. remember [(n, l)] as one eqn:Hone in Hs.
  induction Hs as [ | ? ? n' l' diff ? rs Hl Hs _ | ? ? diff ? rs Hs _
                    | n' l' diff ls rs Hs IH | ? ? n' l' diff ? rs Hs _ ];
    try discriminate; try (injection Hone as -> -> ->).
  - apply Script_no_left in Hs as ->.
    eexists [], _, rs. split_and!; reflexivity.
  - apply Script_no_left in Hs as ->.
    eexists [], _, rs. split_and!; reflexivity.
  - destruct (IH Hone) as (before & e & after & -> & ? & ?).
    by exists ((n', l') :: before), e, after.
  - apply Script_no_left in Hs as ->.
    eexists [], _, rs. split_and!; reflexivity.
Qed.

Lemma Script_one_right key diff n l ls :
  Script key diff ls [(n, l)] →
  ∃ before e after,
    diff = (deletedOf <$> before) ++ e :: (deletedOf <$> after) ∧
    rightLine e = Some l ∧ rightLineNum e = Some n.
Proof.
  intros Hs. remember [(n, l)] as one eqn:Hone in Hs.
  induction Hs as [ | n' l' ? ? diff ls ? Hl Hs _ | n' l' diff ls ? Hs IH
                    | ? ? diff ls ? Hs _ | n' l' ? ? diff ls ? Hs _ ];
    try discriminate; try (injection Hone as -> -> ->).
  - apply Script_no_right in Hs as ->.
    eexists [], _, ls. split_and!; reflexivity.
  - destruct (IH Hone) as (before & e & after & -> & ? & ?).
    by exists ((n', l') :: before), e, after.
  - apply Script_no_right in Hs as ->.
    eexists [], _, ls. split_and!; reflexivity.
  - apply Script_no_right in Hs as ->.
    eexists [], _, ls. split_and!; reflexivity.
Qed.

(** C9, as the program has it. An empty list of lines is a valid input and
    gives the degenerate diff: against no left lines every surviving right
    line is one added entry, against no right lines every surviving left
    line is one deleted entry. The empty text is split into one empty line.
    When [ignoreBlankLines] drops that line the diff is the degenerate one;
    when it does not, the entry that carries the empty line as line 1 is the
    only one that is not added (deleted). The functions are total: no call
    raises an error. *)
Theorem computeLineDiff_empty_side (o : Options) (ws ic : bool)
    (lines : list string) (text : string) :
  computeLineDiff o [] lines = addedOf <$> survivors o lines ∧
  computeLineDiff o lines [] = deletedOf <$> survivors o lines ∧
  splitLines "" = [""] ∧
  diffTexts (mkOptions ws ic true) "" text
    = addedOf <$> survivors (mkOptions ws ic true) (splitLines text) ∧
  diffTexts (mkOptions ws ic true) text ""
    = deletedOf <$> survivors (mkOptions ws ic true) (splitLines text) ∧
  (∃ before e after,
     diffTexts (mkOptions ws ic false) "" text
       = (addedOf <$> before) ++ e :: (addedOf <$> after) ∧
     leftLine e = Some "" ∧ leftLineNum e = Some 1) ∧
  (∃ before e after,
     diffTexts (mkOptions ws ic false) text ""
       = (deletedOf <$> before) ++ e :: (deletedOf <$> after) ∧
     rightLine e = Some "" ∧ rightLineNum e = Some 1).
Proof.
  split_and!.
  - apply (Script_no_left (processLine o)).
    apply (computeLineDiff_Script o [] lines).
  - apply (Script_no_right (processLine o)).
    apply (computeLineDiff_Script o lines []).
  - done.
  - apply (Script_no_left (processLine (mkOptions ws ic true))).
    rewrite <- (survivors_empty_text ws ic). apply computeLineDiff_Script.
  - apply (Script_no_right (processLine (mkOptions ws ic true))).
    rewrite <- (survivors_empty_text ws ic). apply computeLineDiff_Script.
  - apply (Script_one_left (processLine (mkOptions ws ic false)) _ _ _
             (survivors (mkOptions ws ic false) (splitLines text))).
    apply (computeLineDiff_Script (mkOptions ws ic false) [""] (splitLines text)).
  - apply (Script_one_right (processLine (mkOptions ws ic false)) _ _ _
             (survivors (mkOptions ws ic false) (splitLines text))).
    apply (computeLineDiff_Script (mkOptions ws ic false) (splitLines text) [""]).
Qed.

(** The empty left text against the text ["a"]: the one entry is modified,
    not added. *)
Lemma empty_left_text_is_modified :
  diffTexts defaultOptions "" "a"
    = [mkEntry modified (Some "") (Some 1) (Some "a") (Some 1)] ∧
  forallb (isType added) (diffTexts defaultOptions "" "a") = false.
Proof. split; reflexivity. Qed.

(** ** Strings: lines and numbers *)

Lemma joinLines_cons line lines :
  lines ≠ [] →
  joinLines (line :: lines) = line +:+ String newline (joinLines lines).
Proof. by destruct lines. Qed.

Lemma splitLines_nonempty s : splitLines s ≠ [].
Proof.
  destruct s as [|c s]; simpl; [done|].
  destruct (Ascii.eqb c newline); [done|]. by destruct (splitLines s).
Qed.

(** [s.split('\n').join('\n')] is [s]. *)
Lemma joinLines_splitLines s : joinLines (splitLines s) = s.
Proof.
  induction s as [|c s IH]; [done|]. simpl.
  pose proof (splitLines_nonempty s) as Hne.
  destruct (Ascii.eqb c newline) eqn:Hc.
  - apply Ascii.eqb_eq in Hc as ->.
    rewrite joinLines_cons by done. simpl. by rewrite IH.
  - destruct (splitLines s) as [|line lines]; [done|].
    rewrite <- IH. destruct lines as [|line' lines]; [done|].
    by rewrite !(joinLines_cons _ (line' :: lines)) by done.
Qed.






Lemma string_of_uint_digits d : allDigits (NilEmpty.string_of_uint d) = true.
Proof. induction d; simpl; by rewrite ?IHd. Qed.











(** ** The Patch Serializer *)

Lemma leftCount_cons e diff :
  leftCount (e :: diff) = (if hasLeft e then 1 else 0) + leftCount diff.
Proof.
  unfold leftCount. rewrite filter_cons.
  destruct (hasLeft e); [by rewrite decide_True|by rewrite decide_False].
Qed.

Lemma rightCount_cons e diff :
  rightCount (e :: diff) = (if hasRight e then 1 else 0) + rightCount diff.
Proof.
  unfold rightCount. rewrite filter_cons.
  destruct (hasRight e); [by rewrite decide_True|by rewrite decide_False].
Qed.

Lemma bodyLines_nonempty e : bodyLines e ≠ [].
Proof. unfold bodyLines. by destruct (type e). Qed.

(** An iteration with a hunk open. *)
Lemma patchStep_open a b hunk s1 s2 c1 c2 e :
  hunk ≠ [] →
  patchStep (Hunk.mk a b hunk s1 s2 c1 c2) e
  = Hunk.mk (a + (if hasLeft e then 1 else 0)) (b + (if hasRight e then 1 else 0))
            (hunk ++ bodyLines e) s1 s2
            (c1 + (if hasLeft e then 1 else 0))
            (c2 + (if hasRight e then 1 else 0)).
Proof.
  intros Hopen. unfold patchStep, bodyLines, hasLeft, hasRight, isType. simpl.
  rewrite (bool_decide_eq_true_2 (0 < length hunk))
    by (destruct hunk; [done|simpl; lia]).
  rewrite (bool_decide_eq_false_2 (length hunk = 0)) by by destruct hunk.
  destruct (type e); simpl; by rewrite ?Nat.add_0_r.
Qed.

(** An iteration with no hunk open. *)
Lemma patchStep_closed a b s1 s2 c1 c2 e :
  patchStep (Hunk.mk a b [] s1 s2 c1 c2) e
  = if isType unchanged e then Hunk.mk (a + 1) (b + 1) [] s1 s2 c1 c2
    else Hunk.mk (a + (if hasLeft e then 1 else 0))
                 (b + (if hasRight e then 1 else 0))
                 (bodyLines e)
                 (orCounter (leftLineNum e) a) (orCounter (rightLineNum e) b)
                 (if hasLeft e then 1 else 0) (if hasRight e then 1 else 0).
Proof.
  unfold patchStep, bodyLines, hasLeft, hasRight, isType. simpl.
  destruct (type e); simpl; by rewrite ?Nat.add_0_r.
Qed.

(** Once a hunk is open it takes every entry to the end of the diff. *)
Lemma patchLoop_open diff a b hunk s1 s2 c1 c2 :
  hunk ≠ [] →
  foldl patchStep (Hunk.mk a b hunk s1 s2 c1 c2) diff
  = Hunk.mk (a + leftCount diff) (b + rightCount diff)
            (hunk ++ (diff ≫= bodyLines)) s1 s2
            (c1 + leftCount diff) (c2 + rightCount diff).
Proof.
  revert a b hunk c1 c2. induction diff as [|e diff IH]; intros a b hunk c1 c2 Hopen.
  - simpl. unfold leftCount, rightCount. simpl.
    by rewrite !Nat.add_0_r, app_nil_r.
  - simpl. rewrite patchStep_open by done.
    rewrite IH by (by destruct hunk).
    rewrite leftCount_cons, rightCount_cons, <- app_assoc.
    f_equal; lia.
Qed.

Lemma patchLoop_closed diff a b s1 s2 c1 c2 :
  flushHunk (foldl patchStep (Hunk.mk a b [] s1 s2 c1 c2) diff)
  = hunkFrom a b diff.
Proof.
  revert a b s1 s2 c1 c2.
  induction diff as [|e diff IH]; intros a b s1 s2 c1 c2; [done|].
  simpl. rewrite patchStep_closed. unfold hunkFrom. simpl.
  destruct (isType unchanged e) eqn:He.
  - rewrite IH. unfold hunkFrom. simpl.
    destruct (dropWhile (isType unchanged) diff) as [|first hunk]; [done|].
    do 2 f_equal; f_equal; lia.
  - rewrite patchLoop_open by apply bodyLines_nonempty.
    unfold flushHunk. simpl.
    rewrite bool_decide_eq_true_2.
    + rewrite leftCount_cons, rightCount_cons. done.
    + rewrite length_app. pose proof (bodyLines_nonempty e).
      destruct (bodyLines e); [done|simpl; lia].
Qed.

(** The lines of the patch: the two header lines and the one hunk. *)
Lemma patchLines_singleHunk diff leftFileName rightFileName :
  patchLines diff leftFileName rightFileName
  = ["--- " +:+ leftFileName; "+++ " +:+ rightFileName] ++ singleHunk diff.
Proof. unfold patchLines. rewrite patchLoop_closed. reflexivity. Qed.

(** C6, as the program has it. The patch is the two header lines followed,
    when some diff entry is not unchanged, by exactly one hunk: it opens at
    the first entry that is not unchanged and holds every entry from there to
    the end of the diff, the unchanged ones as context lines; its range line
    gives, for each side, the original line number of that first entry (the
    number of the next line of the side when the entry has no line there) and
    the number of lines of the hunk on that side. *)
Theorem generateUnifiedPatch_single_hunk
    (leftCode rightCode leftFileName rightFileName : string) :
  generateUnifiedPatch leftCode rightCode leftFileName rightFileName
  = joinLines (["--- " +:+ leftFileName; "+++ " +:+ rightFileName]
               ++ singleHunk (diffTexts defaultOptions leftCode rightCode)).
Proof.
  unfold generateUnifiedPatch, diffTexts. by rewrite patchLines_singleHunk.
Qed.

(** The texts [a, b, c] and [x, b, y]: the diff has two runs of changed
    entries, the patch has one hunk, with the unchanged line between them
    inside it. *)
Lemma one_hunk_for_two_runs :
  changeRuns (diffTexts defaultOptions (joinLines ["a"; "b"; "c"])
                        (joinLines ["x"; "b"; "y"]))
    = [[mkEntry modified (Some "a") (Some 1) (Some "x") (Some 1)];
       [mkEntry modified (Some "c") (Some 3) (Some "y") (Some 3)]] ∧
  splitLines (generateUnifiedPatch (joinLines ["a"; "b"; "c"])
                (joinLines ["x"; "b"; "y"])
                defaultLeftFileName defaultRightFileName)
    = ["--- original"; "+++ modified"; "@@ -1,3 +1,3 @@";
       "-a"; "+x"; " b"; "-c"; "+y"] ∧
  omap parseRange
       (splitLines (generateUnifiedPatch (joinLines ["a"; "b"; "c"])
                      (joinLines ["x"; "b"; "y"])
                      defaultLeftFileName defaultRightFileName))
    = [RangeLine 1 3 1 3].
Proof. split_and!; vm_compute; reflexivity. Qed.

(** ** Applying the patch *)






Lemma Script_split key d1 d2 ls rs :
  Script key (d1 ++ d2) ls rs →
  ∃ ls1 ls2 rs1 rs2, ls = ls1 ++ ls2 ∧ rs = rs1 ++ rs2 ∧
    Script key d1 ls1 rs1 ∧ Script key d2 ls2 rs2.
Proof.
  revert ls rs. induction d1 as [|e d1 IH]; intros ls rs Hs.
  - exists [], ls, [], rs. split_and!; [done..|constructor|done].
  - simpl in Hs. inversion Hs as
      [ | n l n' l' ? ls' rs' Hl Hs' | n l ? ls' rs' Hs'
        | n' l' ? ls' rs' Hs' | n l n' l' ? ls' rs' Hs' ]; subst;
      destruct (IH _ _ Hs') as (ls1 & ls2 & rs1 & rs2 & -> & -> & H1 & H2).
    + exists ((n, l) :: ls1), ls2, ((n', l') :: rs1), rs2.
      split_and!; [done..|by constructor|done].
    + exists ((n, l) :: ls1), ls2, rs1, rs2.
      split_and!; [done..|by constructor|done].
    + exists ls1, ls2, ((n', l') :: rs1), rs2.
      split_and!; [done..|by constructor|done].
    + exists ((n, l) :: ls1), ls2, ((n', l') :: rs1), rs2.
      split_and!; [done..|by constructor|done].
Qed.

(** Unchanged entries carry the same lines on both sides. *)
Lemma Script_all_unchanged key diff ls rs :
  (∀ l, key l = l) → Script key diff ls rs →
  Forall (λ e, isType unchanged e = true) diff →
  snd <$> ls = snd <$> rs ∧ length ls = length diff.
Proof.
  intros Hkey. induction 1 as [ | n l n' l' diff ls rs Hl _ IH | | | ];
    intros Hall; try (by apply Forall_cons in Hall as [? _]).
  - done.
  - apply Forall_cons in Hall as [_ Hall]. destruct (IH Hall) as [Heq Hlen].
    rewrite !Hkey in Hl. subst l'. rewrite !fmap_cons. simpl.
    by rewrite Heq, Hlen.
Qed.


Lemma numberedFrom_lines start lines : snd <$> numberedFrom start lines = lines.
Proof. unfold numberedFrom. apply snd_zip. by rewrite length_seq. Qed.

Lemma numberedFrom_number start lines ls1 n l ls2 :
  numberedFrom start lines = ls1 ++ (n, l) :: ls2 → n = length ls1 + start.
Proof.
  intros Heq.
  assert (Hn : numberedFrom start lines !! length ls1 = Some (n, l)).
  { rewrite Heq. by apply list_lookup_middle. }
  unfold numberedFrom in Hn.
  apply lookup_zip_with_Some in Hn as (n0 & l0 & [= <- <-] & Hseq & _).
  apply lookup_seq in Hseq as [-> _]. lia.
Qed.

Lemma survivors_default lines :
  survivors defaultOptions lines = numberedFrom 1 lines.
Proof. unfold survivors. by apply filter_all. Qed.

(** The first entry of the hunk has on each side no number or the number of
    the next line of that side. *)
Lemma Script_head_numbers key e diff ls1 ls2 rs1 rs2 leftLines rightLines :
  Script key (e :: diff) ls2 rs2 →
  numberedFrom 1 leftLines = ls1 ++ ls2 →
  numberedFrom 1 rightLines = rs1 ++ rs2 →
  orCounter (leftLineNum e) (length ls1 + 1) = length ls1 + 1 ∧
  orCounter (rightLineNum e) (length rs1 + 1) = length rs1 + 1.
Proof.
  intros Hs Hl Hr.
  inversion Hs; subst; simpl;
    repeat match goal with
    | H : numberedFrom _ _ = _ ++ (_, _) :: _ |- _ =>
      apply numberedFrom_number in H as ->
    end;
    rewrite ?Nat.add_1_r; done.
Qed.




(** * Further properties *)

(** ** The entries of [computeLineDiff] *)

Lemma Script_wellFormed key diff ls rs :
  Script key diff ls rs → Forall wellFormed diff.
Proof.
  induction 1; constructor; try done; unfold wellFormed; simpl;
    split_and!; by eauto.
Qed.

Lemma numberedFrom_elem start lines n l :
  (n, l) ∈ numberedFrom start lines → start ≤ n ∧ lines !! (n - start) = Some l.
Proof.
  intros [i Hi]%list_elem_of_lookup. unfold numberedFrom in Hi.
  apply lookup_zip_with_Some in Hi as (n0 & l0 & [= <- <-] & Hseq & Hl).
  apply lookup_seq in Hseq as [-> _].
  split; [lia|]. by replace (start + i - start) with i by lia.
Qed.

Lemma survivors_elem o lines n l :
  (n, l) ∈ survivors o lines → 1 ≤ n ∧ lines !! (n - 1) = Some l.
Proof.
  unfold survivors. intros [_ Hin]%list_elem_of_filter.
  by apply numberedFrom_elem.
Qed.

Lemma Script_carries key diff ls rs leftLines rightLines :
  Script key diff ls rs →
  Forall (lineOf leftLines) ls → Forall (lineOf rightLines) rs →
  Forall (λ e, carriesLineOf leftLines (leftLineNum e) (leftLine e) ∧
               carriesLineOf rightLines (rightLineNum e) (rightLine e) ∧
               (type e = unchanged →
                key <$> leftLine e = key <$> rightLine e)) diff.
Proof.
  induction 1 as [ | n l n' l' diff ls rs Hl _ IH | n l diff ls rs _ IH
                   | n' l' diff ls rs _ IH | n l n' l' diff ls rs _ IH ];
    intros Hls Hrs.
  - by apply Forall_nil.
  - apply Forall_cons in Hls as [[? Hline] ?].
    apply Forall_cons in Hrs as [[? Hline'] ?]. simpl in *.
    constructor; [|by apply IH].
    unfold carriesLineOf. simpl. rewrite Hline, Hline', Hl. by eauto 10.
  - apply Forall_cons in Hls as [[? Hline] ?]. simpl in *.
    constructor; [|by apply IH].
    unfold carriesLineOf. simpl. rewrite Hline. by eauto 10.
  - apply Forall_cons in Hrs as [[? Hline'] ?]. simpl in *.
    constructor; [|by apply IH].
    unfold carriesLineOf. simpl. rewrite Hline'. by eauto 10.
  - apply Forall_cons in Hls as [[? Hline] ?].
    apply Forall_cons in Hrs as [[? Hline'] ?]. simpl in *.
    constructor; [|by apply IH].
    unfold carriesLineOf. simpl. rewrite Hline, Hline'. by eauto 10.
Qed.

(** X1. Every entry of [computeLineDiff], for every options setting, has
    the fields of its type: unchanged and modified entries carry a line and a
    line number on both sides, a deleted entry only on the left, an added
    entry only on the right. *)
Theorem computeLineDiff_well_formed (o : Options)
    (leftLines rightLines : list string) :
  Forall wellFormed (computeLineDiff o leftLines rightLines).
Proof.
  eapply Script_wellFormed, (computeLineDiff_Script o leftLines rightLines).
Qed.

(** X2. The options change what is compared, never what is stored: the
    line an entry of [computeLineDiff] carries on a side is the input line of
    that side with the entry's number, as it was given; and the two lines
    of an unchanged entry have the same comparison key. *)
Theorem computeLineDiff_stores_input_lines (o : Options)
    (leftLines rightLines : list string) :
  Forall (λ e,
      carriesLineOf leftLines (leftLineNum e) (leftLine e) ∧
      carriesLineOf rightLines (rightLineNum e) (rightLine e) ∧
      (type e = unchanged →
       processLine o <$> leftLine e = processLine o <$> rightLine e))
    (computeLineDiff o leftLines rightLines).
Proof.
  eapply Script_carries; [apply computeLineDiff_Script|..];
    apply Forall_forall; intros [n l]; apply survivors_elem.
Qed.

(** *** Identical inputs, and inputs with nothing in common *)

(** Entries made position by position are entries of the numbered lines. *)
Lemma entries_of_numbered (mk : nat → DiffEntry)
    (entryOf : nat * string → DiffEntry)
    (filtered : list string) (mapping : list nat) :
  length mapping = length filtered →
  (∀ i n l, filtered !! i = Some l → lineNum mapping i = Some n →
            mk i = entryOf (n, l)) →
  mk <$> seq 0 (length filtered) = entryOf <$> numbered filtered mapping.
Proof.
  intros Hlen Hmk. apply list_eq. intros i.
  rewrite !list_lookup_fmap.
  destruct (decide (i < length filtered)) as [Hi|Hi].
  - destruct (numbered_lookup filtered filtered mapping mapping Hlen Hlen
                filtered mapping i Hlen Hi) as (n & l & -> & Hl & Hn).
    rewrite lookup_seq_lt by done. simpl. f_equal. by apply Hmk.
  - rewrite lookup_seq_ge by lia.
    rewrite (lookup_ge_None_2 (numbered _ _)); [done|].
    rewrite (numbered_length filtered filtered mapping mapping Hlen Hlen)
      by done. lia.
Qed.

(** X3. For every options setting, diffing a list of lines against itself
    gives one unchanged entry per surviving line, in order, with the line
    and its number on both sides. *)
Theorem computeLineDiff_same_any_options (o : Options) (lines : list string) :
  computeLineDiff o lines lines = unchangedOf <$> survivors o lines.
Proof.
  unfold computeLineDiff. rewrite <- filterLines_numbered.
  pose proof (filterLines_lengths o lines) as Hlen.
  destruct (filterLines o lines) as [lf lm]. simpl in *.
  rewrite computeLCS_same, length_fmap, rawDiff_same by done.
  rewrite mergeBlocks_no_deleted.
  - apply entries_of_numbered; [done|].
    intros i n l Hl Hn. unfold unchangedAt. by rewrite Hl, Hn.
  - apply Forall_fmap, Forall_forall. by intros k _.
Qed.

Section NothingInCommon.
Context {K : Type} `{EqDecision K}.

(** Without a key in common there is nothing to match. *)
Lemma computeLCS_disjoint (left right : list K) :
  Forall (λ x, x ∉ right) left → computeLCS left right = [].
Proof.
  intros Hdisjoint. destruct (computeLCS_ok left right) as [Hok _].
  destruct (computeLCS left right) as [|p lcs]; [done|].
  apply Forall_cons in Hok as [(_ & _ & x & _ & Hl & Hr) _].
  rewrite Forall_forall in Hdisjoint.
  destruct (Hdisjoint x); by eapply list_elem_of_lookup_2.
Qed.
End NothingInCommon.

Lemma rawDiff_no_match lf rf lm rm :
  rawDiff lf rf lm rm [] 0 0
  = (deletedAt lf lm <$> seq 0 (length lf)) ++ (addedAt rf rm <$> seq 0 (length rf)).
Proof.
  simpl. unfold pushWhileBelow. rewrite !Nat.sub_0_r.
  destruct lf, rf; simpl; done.
Qed.

(** X5. When no compared line of the left input has the comparison key of a
    compared line of the right input, nothing is unchanged: the surviving
    left lines are paired in order with the surviving right lines into
    modified entries, and what is beyond the shorter side follows as deleted
    or as added entries. Lines that [ignoreBlankLines] leaves out are not
    compared and may be the same on both sides. *)
Theorem computeLineDiff_nothing_in_common (o : Options)
    (leftLines rightLines : list string) :
  Forall (λ l, Forall (λ r, processLine o l.2 ≠ processLine o r.2)
                      (survivors o rightLines))
         (survivors o leftLines) →
  computeLineDiff o leftLines rightLines
  = pairRuns (deletedOf <$> survivors o leftLines)
             (addedOf <$> survivors o rightLines).
Proof.
  unfold computeLineDiff. rewrite <- !filterLines_numbered.
  pose proof (filterLines_lengths o leftLines) as Hl.
  pose proof (filterLines_lengths o rightLines) as Hr.
  destruct (filterLines o leftLines) as [lf lm].
  destruct (filterLines o rightLines) as [rf rm]. simpl in *.
  intros Hdisjoint.
  assert (HL : lf = (numbered lf lm).*2).
  { unfold numbered. rewrite snd_zip; [done|]. rewrite length_fmap. lia. }
  assert (HR : rf = (numbered rf rm).*2).
  { unfold numbered. rewrite snd_zip; [done|]. rewrite length_fmap. lia. }
  rewrite computeLCS_disjoint, rawDiff_no_match.
  - rewrite pairRuns_zipRuns.
    rewrite (entries_of_numbered (deletedAt lf lm) deletedOf lf lm Hl)
      by (intros i n l Hi Hn; unfold deletedAt; by rewrite Hi, Hn).
    rewrite (entries_of_numbered (addedAt rf rm) addedOf rf rm Hr)
      by (intros i n l Hi Hn; unfold addedAt; by rewrite Hi, Hn).
    destruct (numbered lf lm) as [|nl ls] eqn:Hls.
    + simpl. rewrite mergeBlocks_no_deleted.
      * by destruct (addedOf <$> numbered rf rm).
      * apply Forall_fmap, Forall_forall. by intros x _.
    + pose proof (mergeBlocks_runs (deletedOf <$> nl :: ls)
                    (addedOf <$> numbered rf rm) []) as Hruns.
      rewrite app_nil_r in Hruns. rewrite Hruns; try done.
      * simp mergeBlocks. by rewrite app_nil_r.
      * apply Forall_fmap, Forall_forall. by intros x _.
      * apply Forall_fmap, Forall_forall. by intros x _.
  - apply Forall_forall. intros k [l [-> Hl']]%list_elem_of_fmap
      [r [Heq Hr']]%list_elem_of_fmap.
    rewrite HL in Hl'. rewrite HR in Hr'.
    apply list_elem_of_fmap in Hl' as (nl & -> & Hnl).
    apply list_elem_of_fmap in Hr' as (nr & -> & Hnr).
    rewrite Forall_forall in Hdisjoint.
    specialize (Hdisjoint nl Hnl). rewrite Forall_forall in Hdisjoint.
    by apply (Hdisjoint nr Hnr).
Qed.

Lemma computeLineDiff_nothing_in_common_witness :
  Forall (λ l, Forall (λ r, processLine (mkOptions false false true) l.2
                            ≠ processLine (mkOptions false false true) r.2)
                      (survivors (mkOptions false false true) [""; "X"]))
         (survivors (mkOptions false false true) ["A"; ""; "B"]) ∧
  computeLineDiff (mkOptions false false true) ["A"; ""; "B"] [""; "X"]
  = pairRuns
      (deletedOf <$> survivors (mkOptions false false true) ["A"; ""; "B"])
      (addedOf <$> survivors (mkOptions false false true) [""; "X"]) ∧
  pairRuns
    (deletedOf <$> survivors (mkOptions false false true) ["A"; ""; "B"])
    (addedOf <$> survivors (mkOptions false false true) [""; "X"])
  = [mkEntry modified (Some "A") (Some 1) (Some "X") (Some 2);
     mkEntry deleted (Some "B") (Some 3) None None].
Proof.
  assert (H : Forall (λ l, Forall (λ r,
                processLine (mkOptions false false true) l.2
                ≠ processLine (mkOptions false false true) r.2)
                (survivors (mkOptions false false true) [""; "X"]))
              (survivors (mkOptions false false true) ["A"; ""; "B"]))
    by (repeat constructor; discriminate).
  split; [exact H|]. split; [|reflexivity].
  exact (computeLineDiff_nothing_in_common (mkOptions false false true)
           ["A"; ""; "B"] [""; "X"] H).
Defined.

(** ** More on the Block Merger *)

Lemma hasDeleteThenAdd_cons e l :
  hasDeleteThenAdd (e :: l)
  = match l with
    | a :: _ => (isType deleted e && isType added a) || hasDeleteThenAdd l
    | [] => false
    end.
Proof. done. Qed.

Lemma hasDeleteThenAdd_app l1 l2 :
  hasDeleteThenAdd l1 = false → hasDeleteThenAdd l2 = false →
  notStartingWith added l2 →
  hasDeleteThenAdd (l1 ++ l2) = false.
Proof.
  intros H1 H2 Hhead. induction l1 as [|e l1 IH]; [done|].
  rewrite hasDeleteThenAdd_cons in H1.
  rewrite <- app_comm_cons, hasDeleteThenAdd_cons.
  destruct l1 as [|e' l1]; simpl app.
  - destruct l2 as [|a l2]; [done|].
    rewrite H2, orb_false_r.
    assert (isType added a = false) as -> by (apply isType_false; by apply Hhead).
    by rewrite andb_false_r.
  - apply orb_false_iff in H1 as [-> H1]. simpl. by apply IH.
Qed.

Lemma hasDeleteThenAdd_app_inv l1 l2 :
  hasDeleteThenAdd (l1 ++ l2) = false →
  hasDeleteThenAdd l1 = false ∧ hasDeleteThenAdd l2 = false.
Proof.
  induction l1 as [|e l1 IH]; [done|].
  rewrite <- app_comm_cons, !hasDeleteThenAdd_cons.
  destruct l1 as [|e' l1]; simpl app.
  - destruct l2 as [|a l2]; [done|]. by intros [_ ?]%orb_false_iff.
  - intros [-> H]%orb_false_iff. simpl. by apply IH.
Qed.

Lemma zipRuns_no_delete_then_add deletes adds :
  Forall (λ e, type e = deleted) deletes →
  Forall (λ e, type e = added) adds →
  hasDeleteThenAdd (zipRuns deletes adds) = false.
Proof.
  intros Hd. revert adds. induction Hd as [|d ds Hd Hds IH]; intros adds Ha.
  - replace (zipRuns [] adds) with adds by by destruct adds.
    induction Ha as [|a as' Ha _ IHa]; [done|].
    rewrite hasDeleteThenAdd_cons. destruct as' as [|a' as']; [done|].
    rewrite IHa, orb_false_r. unfold isType at 1.
    by rewrite bool_decide_eq_false_2 by (by rewrite Ha).
  - destruct Ha as [|a as' Ha Has].
    + change (zipRuns (d :: ds) []) with (d :: ds). clear IH.
      revert d Hd. induction Hds as [|d' ds Hd' _ IHd]; intros d Hd; [done|].
      rewrite hasDeleteThenAdd_cons, IHd by done. rewrite orb_false_r.
      unfold isType at 2.
      rewrite (bool_decide_eq_false_2 (type d' = added)) by (by rewrite Hd').
      by rewrite andb_false_r.
    + change (zipRuns (d :: ds) (a :: as'))
        with (modifiedOf d a :: zipRuns ds as').
      rewrite hasDeleteThenAdd_cons, IH by done.
      by destruct (zipRuns ds as').
Qed.

Lemma mergeBlocks_head_not_added l :
  notStartingWith added l → notStartingWith added (mergeBlocks l).
Proof.
  intros Hhead. destruct l as [|e l]; [by simp mergeBlocks|].
  destruct (decide (type e = deleted)) as [He|He].
  - rewrite mergeBlocks_deleted, mergeRun_zipRuns by done.
    intros x Hx.
    destruct (takeWhile (isType added) (dropWhile (isType deleted) l));
      simpl in Hx; injection Hx as <-; [by rewrite He|done].
  - rewrite mergeBlocks_other by done. intros x [= <-]. by apply Hhead.
Qed.

Lemma mergeBlocks_pairs_all result :
  hasDeleteThenAdd (mergeBlocks result) = false.
Proof.
  remember (length result) as n eqn:Hn. revert result Hn.
  induction n as [n IH] using lt_wf_ind. intros result ->.
  destruct result as [|e rest]; [by simp mergeBlocks|].
  destruct (decide (type e = deleted)) as [He|He].
  - destruct (runs_split rest) as (ds & as' & post & -> & Hds & Has & Hpost & Hpost').
    rewrite app_comm_cons, mergeBlocks_runs by (done || by constructor).
    apply hasDeleteThenAdd_app.
    + apply zipRuns_no_delete_then_add; [by constructor|done].
    + apply (IH (length post)); [|done]. simpl. rewrite !length_app. lia.
    + by apply mergeBlocks_head_not_added.
  - rewrite mergeBlocks_other, hasDeleteThenAdd_cons by done.
    destruct (mergeBlocks rest) as [|a l] eqn:Hm; [done|].
    rewrite <- Hm, (IH (length rest)) by (simpl; lia || done).
    unfold isType at 1. by rewrite bool_decide_eq_false_2.
Qed.

(** X6. After the merge no deleted entry is immediately followed by an added
    entry, whatever the entries given to it. *)
Theorem mergeBlocks_no_delete_then_add (result : list DiffEntry) :
  hasDeleteThenAdd (mergeBlocks result) = false.
Proof. apply mergeBlocks_pairs_all. Qed.

(** Entries without a delete right before an add are left as they are. *)
Lemma mergeBlocks_fixed l : hasDeleteThenAdd l = false → mergeBlocks l = l.
Proof.
  remember (length l) as n eqn:Hn. revert l Hn.
  induction n as [n IH] using lt_wf_ind. intros l -> Hl.
  destruct l as [|e rest]; [by simp mergeBlocks|].
  destruct (decide (type e = deleted)) as [He|He].
  - destruct (runs_split rest) as (ds & as' & post & -> & Hds & Has & Hpost & Hpost').
    assert (as' = []) as ->.
    { destruct as' as [|a as']; [done|]. exfalso.
      apply Forall_cons in Has as [Ha _].
      assert (Hlast : ∃ pre d, e :: ds = pre ++ [d] ∧ type d = deleted).
      { destruct (last (e :: ds)) as [d|] eqn:Hd; [|by apply last_None in Hd].
        pose proof (Forall_last _ _ _ (Forall_cons_2 _ _ _ He Hds) Hd).
        apply last_Some in Hd as [pre ->]. by eauto. }
      destruct Hlast as (pre & d & Heq & Hd).
      rewrite app_comm_cons, Heq, <- !app_assoc in Hl.
      apply hasDeleteThenAdd_app_inv in Hl as [_ Hl].
      simpl in Hl. unfold isType in Hl.
      rewrite !bool_decide_eq_true_2 in Hl by done. done. }
    simpl app in *.
    rewrite app_comm_cons in Hl |- *.
    change ((e :: ds) ++ post) with ((e :: ds) ++ [] ++ post) at 1.
    rewrite mergeBlocks_runs by (done || by constructor).
    rewrite zipRuns_nil_r. f_equal.
    apply hasDeleteThenAdd_app_inv in Hl as [_ Hl].
    apply (IH (length post)); [|done..]. simpl. rewrite length_app. lia.
  - rewrite mergeBlocks_other by done. f_equal.
    apply (IH (length rest)); [simpl; lia|done|].
    rewrite hasDeleteThenAdd_cons in Hl. destruct rest; [done|].
    by apply orb_false_iff in Hl as [_ ?].
Qed.

(** X7. Merging is idempotent: a second merge changes nothing. *)
Theorem mergeBlocks_idempotent (result : list DiffEntry) :
  mergeBlocks (mergeBlocks result) = mergeBlocks result.
Proof. apply mergeBlocks_fixed, mergeBlocks_pairs_all. Qed.

(** ** The statistics *)

Lemma countType_cons t e diff :
  countType t (e :: diff)
  = (if decide (type e = t) then 1 else 0) + countType t diff.
Proof. unfold countType. rewrite filter_cons. by destruct (decide _). Qed.

Lemma countType_app t l1 l2 :
  countType t (l1 ++ l2) = countType t l1 + countType t l2.
Proof. unfold countType. by rewrite filter_app, length_app. Qed.

Lemma countType_none t diff :
  Forall (λ e, type e ≠ t) diff → countType t diff = 0.
Proof.
  induction 1 as [|e diff He _ IH]; [done|].
  by rewrite countType_cons, decide_False, IH.
Qed.

Lemma countType_all t diff :
  Forall (λ e, type e = t) diff → countType t diff = length diff.
Proof.
  induction 1 as [|e diff He _ IH]; [done|].
  rewrite countType_cons, decide_True, IH by done. done.
Qed.

Lemma stats_fold acc diff :
  foldl countEntry acc diff
  = Stats.mk (Stats.added acc + countType added diff)
             (Stats.deleted acc + countType deleted diff)
             (Stats.modified acc + countType modified diff)
             (Stats.unchanged acc + countType unchanged diff).
Proof.
  revert acc. induction diff as [|e diff IH]; intros acc.
  - destruct acc. simpl. unfold countType. simpl. f_equal; lia.
  - simpl foldl. rewrite IH, !countType_cons. unfold countEntry.
    destruct (type e); simpl; f_equal; lia.
Qed.

(** Each counter of [stats] is the number of entries of its type. *)
Lemma stats_counts diff :
  stats diff
  = Stats.mk (countType added diff) (countType deleted diff)
             (countType modified diff) (countType unchanged diff).
Proof. unfold stats. by rewrite stats_fold. Qed.

Lemma countType_total diff :
  countType added diff + countType deleted diff + countType modified diff
  + countType unchanged diff = length diff.
Proof.
  induction diff as [|e diff IH]; [done|].
  rewrite !countType_cons. destruct (type e); simpl; lia.
Qed.

(** X8. The four counters of the statistics add up to the number of entries,
    for any list of entries. *)
Theorem stats_total (diff : list DiffEntry) :
  Stats.added (stats diff) + Stats.deleted (stats diff)
  + Stats.modified (stats diff) + Stats.unchanged (stats diff)
  = length diff.
Proof. rewrite stats_counts. simpl. apply countType_total. Qed.

Lemma Script_counts key diff ls rs :
  Script key diff ls rs →
  countType unchanged diff + countType deleted diff + countType modified diff
  = length ls ∧
  countType unchanged diff + countType added diff + countType modified diff
  = length rs.
Proof.
  induction 1; rewrite ?countType_cons; simpl in *; [done|lia..].
Qed.

(** X9. In the statistics of a diff, unchanged + deleted + modified is the
    number of left lines compared and unchanged + added + modified the number
    of right lines compared; with [ignoreBlankLines] off these are all the
    lines of the inputs. *)
Theorem stats_count_lines (o : Options) (leftLines rightLines : list string) :
  Stats.unchanged (stats (computeLineDiff o leftLines rightLines))
  + Stats.deleted (stats (computeLineDiff o leftLines rightLines))
  + Stats.modified (stats (computeLineDiff o leftLines rightLines))
  = length (survivors o leftLines) ∧
  Stats.unchanged (stats (computeLineDiff o leftLines rightLines))
  + Stats.added (stats (computeLineDiff o leftLines rightLines))
  + Stats.modified (stats (computeLineDiff o leftLines rightLines))
  = length (survivors o rightLines) ∧
  length (survivors (mkOptions (ignoreWhitespace o) (ignoreCase o) false)
                    leftLines) = length leftLines.
Proof.
  rewrite stats_counts. simpl.
  destruct (Script_counts _ _ _ _ (computeLineDiff_Script o leftLines rightLines))
    as [Hl Hr].
  split_and!; [done..|].
  unfold survivors. rewrite filter_all by done.
  unfold numberedFrom. rewrite length_zip, length_seq. lia.
Qed.

(** *** The unchanged entries are a longest common subsequence *)

Lemma countType_pushWhileBelow t entryAt a stop :
  (∀ i, type (entryAt i) ≠ t) →
  countType t (pushWhileBelow entryAt a stop) = 0.
Proof.
  intros Hno. apply countType_none, Forall_fmap, Forall_forall.
  intros i _. apply Hno.
Qed.

Lemma rawDiff_unchanged_count leftFiltered rightFiltered leftMapping
    rightMapping (lcs : list (LcsMatch string)) a b :
  Forall (λ p, leftIndex p < length leftFiltered) lcs →
  StronglySorted matchLt lcs →
  Forall (λ p, a ≤ leftIndex p ∧ b ≤ rightIndex p) lcs →
  countType unchanged
    (rawDiff leftFiltered rightFiltered leftMapping rightMapping lcs a b)
  = length lcs.
Proof.
  revert a b. induction lcs as [|p lcs IH]; intros a b Hin Hsorted Hfrom.
  - simpl. destruct (_ || _); [|done].
    by rewrite countType_app, !countType_pushWhileBelow.
  - apply Forall_cons in Hin as [Hp Hin].
    apply StronglySorted_cons in Hsorted as [Hnext Hsorted].
    apply Forall_cons in Hfrom as [[Hla Hrb] _].
    simpl.
    replace (bool_decide _ || bool_decide _) with true
      by (symmetry; apply orb_true_iff; rewrite !bool_decide_eq_true; lia).
    rewrite !countType_app, !countType_pushWhileBelow by done.
    rewrite countType_cons. simpl. f_equal.
    apply IH; [done..|].
    eapply Forall_impl; [exact Hnext|]. intros q [? ?]. lia.
Qed.

Lemma zipRuns_no_unchanged deletes adds :
  Forall (λ e, type e = deleted) deletes →
  Forall (λ e, type e = added) adds →
  countType unchanged (zipRuns deletes adds) = 0.
Proof.
  intros Hd. revert adds. induction Hd as [|d ds Hd Hds IH]; intros adds Ha.
  - replace (zipRuns [] adds) with adds by by destruct adds.
    apply countType_none. eapply Forall_impl; [exact Ha|].
    intros e He. by rewrite He.
  - destruct Ha as [|a as' Ha Has].
    + rewrite zipRuns_nil_r. apply countType_none.
      eapply Forall_impl; [exact (Forall_cons_2 _ _ _ Hd Hds)|].
      intros e He. by rewrite He.
    + change (zipRuns (d :: ds) (a :: as'))
        with (modifiedOf d a :: zipRuns ds as').
      rewrite countType_cons, IH by done. done.
Qed.

(** The merge keeps the unchanged entries. *)
Lemma mergeBlocks_unchanged_count result :
  countType unchanged (mergeBlocks result) = countType unchanged result.
Proof.
  remember (length result) as n eqn:Hn. revert result Hn.
  induction n as [n IH] using lt_wf_ind. intros result ->.
  destruct result as [|e rest]; [by simp mergeBlocks|].
  destruct (decide (type e = deleted)) as [He|He].
  - destruct (runs_split rest) as (ds & as' & post & -> & Hds & Has & Hpost & Hpost').
    rewrite app_comm_cons, mergeBlocks_runs by (done || by constructor).
    rewrite !countType_app, zipRuns_no_unchanged by (done || by constructor).
    rewrite (IH (length post)) by (simpl; rewrite ?length_app; lia || done).
    rewrite (countType_none unchanged (e :: ds)),
            (countType_none unchanged as'); [done| |].
    + eapply Forall_impl; [exact Has|]. intros x Hx. by rewrite Hx.
    + eapply Forall_impl; [exact (Forall_cons_2 _ _ _ He Hds)|].
      intros x Hx. by rewrite Hx.
  - rewrite mergeBlocks_other, !countType_cons by done.
    by rewrite (IH (length rest)) by (simpl; lia || done).
Qed.

Lemma survivors_lines o lines :
  (survivors o lines).*2 = (filterLines o lines).1.
Proof.
  rewrite <- filterLines_numbered. unfold numbered.
  apply snd_zip. rewrite length_fmap, filterLines_lengths. lia.
Qed.

Lemma unchanged_count_is_lcs_length o leftLines rightLines :
  IsLcsLength (processLine o <$> (survivors o leftLines).*2)
              (processLine o <$> (survivors o rightLines).*2)
              (countType unchanged (computeLineDiff o leftLines rightLines)).
Proof.
  rewrite !survivors_lines. unfold computeLineDiff.
  destruct (filterLines o leftLines) as [lf lm].
  destruct (filterLines o rightLines) as [rf rm]. simpl.
  rewrite mergeBlocks_unchanged_count.
  destruct (computeLCS_ok (processLine o <$> lf) (processLine o <$> rf))
    as [Hok Hsorted].
  rewrite rawDiff_unchanged_count; [| |done|].
  - rewrite computeLCS_selectLCS, selectLCS_length.
    pose proof (lcsLen_IsLcsLength (processLine o <$> lf) (processLine o <$> rf)
                  (length (processLine o <$> lf))
                  (length (processLine o <$> rf))) as H.
    rewrite !firstn_all in H. by apply H.
  - eapply Forall_impl; [exact Hok|].
    intros p (Hp & _). by rewrite length_fmap in Hp.
  - apply Forall_forall. intros; lia.
Qed.

(** X4. The [unchanged] counter of the statistics of a diff is the length of
    the longest common subsequence of the keys of the lines compared: no
    other alignment of the two inputs keeps more lines. *)
Theorem stats_unchanged_is_lcs_length (o : Options)
    (leftLines rightLines : list string) :
  IsLcsLength (processLine o <$> (survivors o leftLines).*2)
              (processLine o <$> (survivors o rightLines).*2)
              (Stats.unchanged (stats (computeLineDiff o leftLines rightLines))).
Proof. rewrite stats_counts. apply unchanged_count_is_lcs_length. Qed.

(** ** More on the Alignment Calculator *)

Lemma flushZones_heights st :
  Forall (λ z, 1 ≤ heightInLines z) (Zones.zones st) →
  Forall (λ z, 1 ≤ heightInLines z) (flushZones st).
Proof.
  intros Hz. unfold flushZones. case_bool_decide; [|done].
  apply Forall_app. split; [done|]. by repeat constructor.
Qed.

Lemma zoneLoop_heights side diff st :
  Forall (λ z, 1 ≤ heightInLines z) (Zones.zones st) →
  Forall (λ z, 1 ≤ heightInLines z)
         (Zones.zones (foldl (zoneStep side) st diff)).
Proof.
  revert st. induction diff as [|e diff IH]; intros st Hz; [done|].
  simpl. apply IH. unfold zoneStep.
  destruct (thisSideNum side e); simpl; [by apply flushZones_heights|].
  by destruct (otherSideNum side e).
Qed.

(** X10. A zone is never empty: every zone of [computeViewZones] is at least
    one line high, for any list of entries and each side. *)
Theorem computeViewZones_heights_positive (diff : list DiffEntry) (side : Side) :
  Forall (λ z, 1 ≤ heightInLines z) (computeViewZones diff side).
Proof.
  unfold computeViewZones. apply flushZones_heights, zoneLoop_heights.
  constructor.
Qed.

Lemma needsGap_left_count diff :
  Forall wellFormed diff →
  length (filter (needsGap LeftSide) diff) = countType added diff.
Proof.
  induction 1 as [|e diff He _ IH]; [done|].
  rewrite filter_cons, countType_cons. unfold wellFormed in He.
  destruct (type e) eqn:Ht.
  - rewrite decide_False, decide_False; [done..|].
    intros [Hn _]. simpl in Hn. destruct He as (_ & [? Hs] & _). congruence.
  - rewrite decide_False, decide_False; [done..|].
    intros [Hn _]. simpl in Hn. destruct He as (_ & [? Hs] & _). congruence.
  - rewrite decide_True, decide_True; [simpl; by rewrite IH|done|].
    destruct He as (_ & Hn & _ & Hr). by split.
  - rewrite decide_False, decide_False; [done..|].
    intros [Hn _]. simpl in Hn. destruct He as (_ & [? Hs] & _). congruence.
Qed.

Lemma needsGap_right_count diff :
  Forall wellFormed diff →
  length (filter (needsGap RightSide) diff) = countType deleted diff.
Proof.
  induction 1 as [|e diff He _ IH]; [done|].
  rewrite filter_cons, countType_cons. unfold wellFormed in He.
  destruct (type e) eqn:Ht.
  - rewrite decide_False, decide_False; [done..|].
    intros [Hn _]. simpl in Hn. destruct He as (_ & _ & _ & [? Hs]). congruence.
  - rewrite decide_True, decide_True; [simpl; by rewrite IH|done|].
    destruct He as (_ & Hl & _ & Hn). by split.
  - rewrite decide_False, decide_False; [done..|].
    intros [Hn _]. simpl in Hn. destruct He as (_ & _ & _ & [? Hs]). congruence.
  - rewrite decide_False, decide_False; [done..|].
    intros [Hn _]. simpl in Hn. destruct He as (_ & _ & _ & [? Hs]). congruence.
Qed.

Lemma computeViewZones_rows diff side :
  sum_list (heightInLines <$> computeViewZones diff side)
  = length (filter (needsGap side) diff).
Proof.
  unfold computeViewZones. rewrite flushZones_rows, zoneLoop_rows.
  unfold heldRows. simpl. lia.
Qed.

(** X11. The zones align the two editors: on each side the lines compared
    plus the placeholder rows are as many as the entries of the diff, so both
    sides show the same number of rows; the left side gets one placeholder
    row per added entry and the right side one per deleted entry. *)
Theorem computeViewZones_aligns (o : Options) (leftLines rightLines : list string) :
  length (survivors o leftLines)
  + sum_list (heightInLines
              <$> computeViewZones (computeLineDiff o leftLines rightLines) LeftSide)
  = length (computeLineDiff o leftLines rightLines) ∧
  length (survivors o rightLines)
  + sum_list (heightInLines
              <$> computeViewZones (computeLineDiff o leftLines rightLines) RightSide)
  = length (computeLineDiff o leftLines rightLines) ∧
  sum_list (heightInLines
            <$> computeViewZones (computeLineDiff o leftLines rightLines) LeftSide)
  = Stats.added (stats (computeLineDiff o leftLines rightLines)) ∧
  sum_list (heightInLines
            <$> computeViewZones (computeLineDiff o leftLines rightLines) RightSide)
  = Stats.deleted (stats (computeLineDiff o leftLines rightLines)).
Proof.
  pose proof (computeLineDiff_Script o leftLines rightLines) as Hs.
  pose proof (Script_wellFormed _ _ _ _ Hs) as Hwf.
  destruct (Script_counts _ _ _ _ Hs) as [Hl Hr].
  pose proof (countType_total (computeLineDiff o leftLines rightLines)) as Ht.
  rewrite !computeViewZones_rows, stats_counts. simpl.
  rewrite needsGap_left_count, needsGap_right_count by done.
  split_and!; lia.
Qed.

Lemma flushZones_sorted bound st :
  zonesBefore bound st →
  StronglySorted lt (afterLineNumber <$> flushZones st) ∧
  Forall (λ z, afterLineNumber z ≤ Zones.currentLineNum st) (flushZones st).
Proof.
  intros (Hsorted & Hbelow & Hbound). unfold flushZones. case_bool_decide.
  - split.
    + rewrite fmap_app. apply StronglySorted_app_2; [|done|repeat constructor].
      intros a c [z [-> Hz]]%list_elem_of_fmap ?%list_elem_of_singleton.
      subst c. simpl. by apply (proj1 (Forall_forall _ _) Hbelow).
    + apply Forall_app. split; [|by repeat constructor].
      eapply Forall_impl; [exact Hbelow|]. intros; simpl in *; lia.
  - split; [done|].
    eapply Forall_impl; [exact Hbelow|]. intros; simpl in *; lia.
Qed.

Lemma zoneLoop_before side bound diff st :
  zonesBefore bound st →
  StronglySorted lt (omap (thisSideNum side) diff) →
  Forall (λ n, Zones.currentLineNum st < n ≤ bound)
         (omap (thisSideNum side) diff) →
  zonesBefore bound (foldl (zoneStep side) st diff).
Proof.
  revert st. induction diff as [|e diff IH]; intros st Hst Hsorted Hnums; [done|].
  simpl foldl. revert Hsorted Hnums. csimpl. unfold zoneStep.
  destruct (thisSideNum side e) as [n|] eqn:Hn.
  - intros [Hnext Hsorted]%StronglySorted_cons [[Hlt Hle] Hnums]%Forall_cons.
    apply IH; [|done|].
    + destruct (flushZones_sorted bound st Hst) as [Hs Hb].
      split_and!; simpl; [done| |done].
      eapply Forall_impl; [exact Hb|]. intros; simpl in *; lia.
    + simpl. apply Forall_forall. intros m Hm. split.
      * by apply (proj1 (Forall_forall _ _) Hnext).
      * by apply (proj1 (Forall_forall _ _) Hnums).
  - intros Hsorted Hnums.
    destruct (otherSideNum side e); apply IH; done.
Qed.

Lemma survivors_numbers_bounded o lines :
  Forall (λ n, 0 < n ≤ length lines) (fst <$> survivors o lines).
Proof.
  apply Forall_fmap, Forall_forall. intros [n l] [Hn Hl]%survivors_elem.
  apply lookup_lt_Some in Hl. simpl. lia.
Qed.

(** X12. For the entries of a diff the zones of each side are placed at
    strictly increasing positions, each at line [0] (the top) or after a line
    of that side's input. *)
Theorem computeViewZones_positions (o : Options)
    (leftLines rightLines : list string) :
  StronglySorted lt
    (afterLineNumber
     <$> computeViewZones (computeLineDiff o leftLines rightLines) LeftSide) ∧
  Forall (λ z, afterLineNumber z ≤ length leftLines)
    (computeViewZones (computeLineDiff o leftLines rightLines) LeftSide) ∧
  StronglySorted lt
    (afterLineNumber
     <$> computeViewZones (computeLineDiff o leftLines rightLines) RightSide) ∧
  Forall (λ z, afterLineNumber z ≤ length rightLines)
    (computeViewZones (computeLineDiff o leftLines rightLines) RightSide).
Proof.
  pose proof (computeLineDiff_Script o leftLines rightLines) as Hs.
  unfold computeViewZones.
  assert (Hl : zonesBefore (length leftLines)
                 (foldl (zoneStep LeftSide) (Zones.mk [] 0 0)
                        (computeLineDiff o leftLines rightLines))).
  { apply zoneLoop_before.
    - split_and!; simpl; [constructor|constructor|lia].
    - change (thisSideNum LeftSide) with leftLineNum.
      rewrite (Script_left_nums _ _ _ _ Hs). apply survivors_from_sorted.
    - change (thisSideNum LeftSide) with leftLineNum.
      rewrite (Script_left_nums _ _ _ _ Hs). apply survivors_numbers_bounded. }
  assert (Hr : zonesBefore (length rightLines)
                 (foldl (zoneStep RightSide) (Zones.mk [] 0 0)
                        (computeLineDiff o leftLines rightLines))).
  { apply zoneLoop_before.
    - split_and!; simpl; [constructor|constructor|lia].
    - change (thisSideNum RightSide) with rightLineNum.
      rewrite (Script_right_nums _ _ _ _ Hs). apply survivors_from_sorted.
    - change (thisSideNum RightSide) with rightLineNum.
      rewrite (Script_right_nums _ _ _ _ Hs). apply survivors_numbers_bounded. }
  destruct (flushZones_sorted _ _ Hl) as [Hl1 Hl2].
  destruct (flushZones_sorted _ _ Hr) as [Hr1 Hr2].
  destruct Hl as (_ & _ & Hlb). destruct Hr as (_ & _ & Hrb).
  split_and!; [done| |done|].
  - eapply Forall_impl; [exact Hl2|]. intros; simpl in *; lia.
  - eapply Forall_impl; [exact Hr2|]. intros; simpl in *; lia.
Qed.

(** ** The Decoration Mapper *)

Lemma decorationOf_unchanged side e :
  type e = unchanged → decorationOf side e = None.
Proof.
  intros He. unfold decorationOf, isType. rewrite He.
  by destruct (thisSideNum side e), side.
Qed.

(** X13. Unchanged entries are never decorated: the decorations of a list of
    entries are those of its entries that are not unchanged, for any entries
    and each side. *)
Theorem getLineDecorations_skips_unchanged (diff : list DiffEntry) (side : Side) :
  getLineDecorations diff side
  = getLineDecorations (filter (λ e, type e ≠ unchanged) diff) side.
Proof.
  unfold getLineDecorations. induction diff as [|e diff IH]; [done|].
  rewrite filter_cons. destruct (decide (type e ≠ unchanged)) as [He|He].
  - csimpl. by rewrite IH.
  - csimpl. rewrite decorationOf_unchanged; [done|].
    by destruct (decide (type e = unchanged)).
Qed.

Lemma decorationOf_line side e :
  wellFormed e →
  decoratedLine <$> decorationOf side e
  = if decide (type e = unchanged) then None else thisSideNum side e.
Proof.
  destruct e as [t ll ln rl rn]. unfold wellFormed, decorationOf, isType. simpl.
  destruct t, side; simpl; intros (H1 & H2 & H3 & H4);
    repeat match goal with
           | H : is_Some _ |- _ => destruct H as [? ->]
           | H : _ = None |- _ => rewrite H
           end; done.
Qed.

Lemma decoratedLines_wellFormed diff side :
  Forall wellFormed diff →
  decoratedLine <$> getLineDecorations diff side
  = omap (thisSideNum side) (filter (λ e, type e ≠ unchanged) diff).
Proof.
  unfold getLineDecorations.
  induction 1 as [|e diff He _ IH]; [done|].
  rewrite filter_cons. csimpl.
  pose proof (decorationOf_line side e He) as Hline.
  destruct (decide (type e = unchanged)) as [Hu|Hu].
  - rewrite decide_False by (by intros ?).
    destruct (decorationOf side e); [done|]. exact IH.
  - rewrite decide_True by done. csimpl.
    destruct (decorationOf side e) as [d|], (thisSideNum side e) as [n|];
      simplify_eq/=; [|done]. by rewrite IH.
Qed.

Lemma omap_filter_sorted {A} (f : A → option nat) (P : A → Prop)
    `{∀ x, Decision (P x)} (l : list A) :
  StronglySorted lt (omap f l) → StronglySorted lt (omap f (filter P l)).
Proof.
  induction l as [|x l IH]; [done|]. rewrite filter_cons. csimpl.
  destruct (f x) as [n|] eqn:Hn.
  - intros [Hnext Hsorted]%StronglySorted_cons.
    destruct (decide (P x)); [|by apply IH]. csimpl. rewrite Hn.
    apply StronglySorted_cons. split; [|by apply IH].
    apply Forall_forall. intros m Hm.
    apply (proj1 (Forall_forall _ _) Hnext).
    apply list_elem_of_omap in Hm as (y & [_ Hy]%list_elem_of_filter & Hfy).
    apply list_elem_of_omap. by exists y.
  - intros Hsorted. destruct (decide (P x)); [|by apply IH].
    csimpl. rewrite Hn. by apply IH.
Qed.

Lemma decorations_left_count diff :
  Forall wellFormed diff →
  length (getLineDecorations diff LeftSide)
  = countType deleted diff + countType modified diff.
Proof.
  unfold getLineDecorations.
  induction 1 as [|e diff He _ IH]; [done|].
  rewrite !countType_cons. csimpl.
  destruct e as [t ll ln rl rn].
  unfold wellFormed, decorationOf, isType in *. simpl in *.
  destruct t; simpl; destruct He as (H1 & H2 & H3 & H4);
    repeat match goal with
           | H : is_Some _ |- _ => destruct H as [? ->]
           | H : _ = None |- _ => rewrite H
           end; simpl; rewrite IH; lia.
Qed.

Lemma decorations_right_count diff :
  Forall wellFormed diff →
  length (getLineDecorations diff RightSide)
  = countType added diff + countType modified diff.
Proof.
  unfold getLineDecorations.
  induction 1 as [|e diff He _ IH]; [done|].
  rewrite !countType_cons. csimpl.
  destruct e as [t ll ln rl rn].
  unfold wellFormed, decorationOf, isType in *. simpl in *.
  destruct t; simpl; destruct He as (H1 & H2 & H3 & H4);
    repeat match goal with
           | H : is_Some _ |- _ => destruct H as [? ->]
           | H : _ = None |- _ => rewrite H
           end; simpl; rewrite IH; lia.
Qed.

(** X14. For the entries of a diff, the lines decorated on the left are the
    left lines of the deleted and modified entries and those decorated on the
    right are the right lines of the added and modified entries, each in
    strictly increasing order; their numbers are the sums of the two counters
    of the statistics. *)
Theorem getLineDecorations_of_diff (o : Options)
    (leftLines rightLines : list string) :
  decoratedLine <$> getLineDecorations (computeLineDiff o leftLines rightLines) LeftSide
  = omap leftLineNum
      (filter (λ e, type e ≠ unchanged) (computeLineDiff o leftLines rightLines)) ∧
  decoratedLine <$> getLineDecorations (computeLineDiff o leftLines rightLines) RightSide
  = omap rightLineNum
      (filter (λ e, type e ≠ unchanged) (computeLineDiff o leftLines rightLines)) ∧
  StronglySorted lt
    (decoratedLine
     <$> getLineDecorations (computeLineDiff o leftLines rightLines) LeftSide) ∧
  StronglySorted lt
    (decoratedLine
     <$> getLineDecorations (computeLineDiff o leftLines rightLines) RightSide) ∧
  length (getLineDecorations (computeLineDiff o leftLines rightLines) LeftSide)
  = Stats.deleted (stats (computeLineDiff o leftLines rightLines))
    + Stats.modified (stats (computeLineDiff o leftLines rightLines)) ∧
  length (getLineDecorations (computeLineDiff o leftLines rightLines) RightSide)
  = Stats.added (stats (computeLineDiff o leftLines rightLines))
    + Stats.modified (stats (computeLineDiff o leftLines rightLines)).
Proof.
  pose proof (computeLineDiff_Script o leftLines rightLines) as Hs.
  pose proof (Script_wellFormed _ _ _ _ Hs) as Hwf.
  rewrite !decoratedLines_wellFormed by done.
  rewrite decorations_left_count, decorations_right_count, stats_counts by done.
  change (thisSideNum LeftSide) with leftLineNum.
  change (thisSideNum RightSide) with rightLineNum.
  split_and!; try done.
  - apply omap_filter_sorted. rewrite (Script_left_nums _ _ _ _ Hs).
    apply survivors_from_sorted.
  - apply omap_filter_sorted. rewrite (Script_right_nums _ _ _ _ Hs).
    apply survivors_from_sorted.
Qed.

(** ** The list of differences and the navigation *)

Lemma diffIndices_indicesFrom diff : diffIndices diff = indicesFrom 0 diff.
Proof. done. Qed.

Lemma indicesFrom_cons k e diff :
  indicesFrom k (e :: diff)
  = (if isType unchanged e then [] else [k]) ++ indicesFrom (S k) diff.
Proof.
  unfold indicesFrom. rewrite imap_cons. csimpl.
  rewrite (imap_ext _ (λ index entry,
             if isType unchanged entry then None else Some (S k + index)))
    by (intros i x _; simpl; by replace (k + S i) with (S (k + i)) by lia).
  rewrite Nat.add_0_r. by destruct (isType unchanged e).
Qed.

Lemma indicesFrom_elem k diff i :
  i ∈ indicesFrom k diff
  ↔ k ≤ i ∧ ∃ e, diff !! (i - k) = Some e ∧ type e ≠ unchanged.
Proof.
  revert k. induction diff as [|e diff IH]; intros k.
  - split; [by intros ?%elem_of_nil|by intros (_ & ? & ? & _)].
  - rewrite indicesFrom_cons, elem_of_app, IH.
    destruct (decide (i = k)) as [->|Hik].
    + rewrite Nat.sub_diag. simpl. unfold isType.
      destruct (decide (type e = unchanged)) as [He|He].
      * rewrite bool_decide_eq_true_2 by done. split.
        -- intros [?%elem_of_nil|[? _]]; [done|lia].
        -- intros (_ & e' & [= <-] & ?). done.
      * rewrite bool_decide_eq_false_2 by done. split; [|left; by left].
        intros _. split; [done|]. by exists e.
    + split.
      * intros [Hi|(Hk & e' & He' & Ht)].
        -- destruct (isType unchanged e);
             [by apply elem_of_nil in Hi|
              by apply list_elem_of_singleton in Hi].
        -- split; [lia|]. exists e'. split; [|done].
           by replace (i - k) with (S (i - S k)) by lia.
      * intros (Hk & e' & He' & Ht). right. split; [lia|]. exists e'.
        split; [|done].
        by replace (i - k) with (S (i - S k)) in He' by lia.
Qed.

Lemma indicesFrom_sorted k diff : StronglySorted lt (indicesFrom k diff).
Proof.
  revert k. induction diff as [|e diff IH]; intros k; [constructor|].
  rewrite indicesFrom_cons. destruct (isType unchanged e); [by apply IH|].
  simpl. constructor; [by apply IH|].
  apply Forall_forall. intros i [Hi _]%indicesFrom_elem. lia.
Qed.

Lemma indicesFrom_length k diff :
  length (indicesFrom k diff) + countType unchanged diff = length diff.
Proof.
  revert k. induction diff as [|e diff IH]; intros k; [done|].
  rewrite indicesFrom_cons, countType_cons, length_app. specialize (IH (S k)).
  unfold isType. destruct (decide (type e = unchanged)).
  - rewrite bool_decide_eq_true_2 by done. simpl. lia.
  - rewrite bool_decide_eq_false_2 by done. simpl. lia.
Qed.

(** X15. [diffIndices] lists, in strictly increasing order, exactly the
    indices of the entries that are not unchanged; there are as many as the
    added, deleted and modified counters of the statistics together. *)
Theorem diffIndices_lists_differences (diff : list DiffEntry) :
  StronglySorted lt (diffIndices diff) ∧
  (∀ i, i ∈ diffIndices diff
        ↔ ∃ e, diff !! i = Some e ∧ type e ≠ unchanged) ∧
  length (diffIndices diff)
  = Stats.added (stats diff) + Stats.deleted (stats diff)
    + Stats.modified (stats diff).
Proof.
  rewrite diffIndices_indicesFrom, stats_counts. simpl. split_and!.
  - apply indicesFrom_sorted.
  - intros i. rewrite indicesFrom_elem, Nat.sub_0_r. split.
    + by intros [_ ?].
    + intros ?. split; [lia|done].
  - pose proof (indicesFrom_length 0 diff).
    pose proof (countType_total diff). lia.
Qed.

Lemma rem_wrap (a n : Z) :
  (0 ≤ a < n)%Z → Z.rem a n = a ∧ Z.rem (a + n) n = a.
Proof.
  intros Ha. split; [apply Z.rem_small; lia|].
  rewrite Z.rem_mod_nonneg by lia.
  replace (a + n)%Z with (a + 1 * n)%Z by lia.
  rewrite Z_mod_plus_full. apply Z.mod_small. lia.
Qed.

Lemma goToNextDiff_range indices cur :
  0 < length indices →
  (-1 ≤ cur < Z.of_nat (length indices))%Z →
  (0 ≤ goToNextDiff indices cur < Z.of_nat (length indices))%Z.
Proof.
  intros Hn Hcur. unfold goToNextDiff.
  rewrite bool_decide_eq_false_2 by lia.
  apply Z.rem_bound_pos; lia.
Qed.

Lemma goToPrevDiff_range indices cur :
  0 < length indices →
  (-1 ≤ cur < Z.of_nat (length indices))%Z →
  (0 ≤ goToPrevDiff indices cur < Z.of_nat (length indices))%Z.
Proof.
  intros Hn Hcur. unfold goToPrevDiff.
  rewrite bool_decide_eq_false_2 by lia.
  destruct (decide (0 ≤ cur - 1 + Z.of_nat (length indices))%Z).
  - apply Z.rem_bound_pos; lia.
  - assert (Z.of_nat (length indices) = 1%Z) as -> by lia.
    rewrite Z.rem_1_r. lia.
Qed.

(** X16. With a difference selected, [goToNextDiff] and [goToPrevDiff] select
    a difference again, and each undoes the other: they walk the list of
    differences cyclically in opposite directions. *)
Theorem navigation_cycles (indices : list nat) (currentDiffIndex : Z) :
  (0 ≤ currentDiffIndex < Z.of_nat (length indices))%Z →
  (0 ≤ goToNextDiff indices currentDiffIndex < Z.of_nat (length indices))%Z ∧
  (0 ≤ goToPrevDiff indices currentDiffIndex < Z.of_nat (length indices))%Z ∧
  goToPrevDiff indices (goToNextDiff indices currentDiffIndex)
  = currentDiffIndex ∧
  goToNextDiff indices (goToPrevDiff indices currentDiffIndex)
  = currentDiffIndex.
Proof.
  intros Hcur.
  split; [apply goToNextDiff_range; lia|].
  split; [apply goToPrevDiff_range; lia|].
  split.
  - unfold goToPrevDiff, goToNextDiff.
    rewrite bool_decide_eq_false_2 by lia.
    set (n := Z.of_nat (length indices)) in *.
    destruct (decide (currentDiffIndex + 1 = n)%Z) as [Hn|Hn].
    + rewrite Hn, Z.rem_same by lia.
      replace (0 - 1 + n)%Z with currentDiffIndex by lia.
      apply Z.rem_small. lia.
    + rewrite (proj1 (rem_wrap (currentDiffIndex + 1) n ltac:(lia))).
      replace (currentDiffIndex + 1 - 1 + n)%Z with (currentDiffIndex + n)%Z
        by lia.
      apply rem_wrap. lia.
  - unfold goToPrevDiff, goToNextDiff.
    rewrite bool_decide_eq_false_2 by lia.
    set (n := Z.of_nat (length indices)) in *.
    destruct (decide (currentDiffIndex = 0)%Z) as [->|Hn].
    + replace (0 - 1 + n)%Z with (n - 1)%Z by lia.
      rewrite (proj1 (rem_wrap (n - 1) n ltac:(lia))).
      replace (n - 1 + 1)%Z with n by lia. apply Z.rem_same. lia.
    + replace (currentDiffIndex - 1 + n)%Z with (currentDiffIndex - 1 + n)%Z
        by lia.
      rewrite (proj2 (rem_wrap (currentDiffIndex - 1) n ltac:(lia))).
      replace (currentDiffIndex - 1 + 1)%Z with currentDiffIndex by lia.
      apply Z.rem_small. lia.
Qed.

Lemma navigation_cycles_witness :
  (0 ≤ 2 < Z.of_nat (length [4; 7; 9]))%Z ∧
  goToNextDiff [4; 7; 9] 2 = 0%Z ∧
  goToPrevDiff [4; 7; 9] (goToNextDiff [4; 7; 9] 2) = 2%Z.
Proof.
  split; [simpl; lia|]. split; [reflexivity|].
  apply (navigation_cycles [4; 7; 9] 2). simpl. lia.
Defined.

(** X17. From the initial state, where no difference is selected
    ([currentDiffIndex] is [-1]), [goToNextDiff] selects the first difference
    and [goToPrevDiff] the last but one (the only one, when there is one). *)
Theorem navigation_from_start (indices : list nat) :
  0 < length indices →
  goToNextDiff indices (-1) = 0%Z ∧
  goToPrevDiff indices (-1) = (0 `max` (Z.of_nat (length indices) - 2))%Z.
Proof.
  intros Hn. unfold goToNextDiff, goToPrevDiff.
  rewrite bool_decide_eq_false_2 by lia. split.
  - apply Z.rem_0_l. lia.
  - destruct (decide (length indices = 1)) as [->|Hne].
    + reflexivity.
    + rewrite Z.max_r by lia.
      replace (-1 - 1 + Z.of_nat (length indices))%Z
        with (Z.of_nat (length indices) - 2)%Z by lia.
      apply Z.rem_small. lia.
Qed.

Lemma navigation_from_start_witness :
  0 < length [4; 7; 9] ∧ goToPrevDiff [4; 7; 9] (-1) = 1%Z.
Proof.
  split; [simpl; lia|]. apply (navigation_from_start [4; 7; 9]). simpl. lia.
Defined.

Lemma indexOf_absent indices x : x ∉ indices → indexOf indices x = (-1)%Z.
Proof.
  induction indices as [|y rest IH]; [done|].
  intros [Hne Hrest]%not_elem_of_cons. simpl.
  rewrite bool_decide_eq_false_2 by done. rewrite IH by done. done.
Qed.

Lemma indexOf_present indices x :
  x ∈ indices →
  (0 ≤ indexOf indices x < Z.of_nat (length indices))%Z ∧
  indices !! Z.to_nat (indexOf indices x) = Some x.
Proof.
  induction indices as [|y rest IH]; [by intros ?%elem_of_nil|].
  intros Hin. simpl indexOf.
  destruct (decide (y = x)) as [->|Hne].
  - rewrite bool_decide_eq_true_2 by done. simpl. split; [lia|done].
  - rewrite bool_decide_eq_false_2 by done.
    apply elem_of_cons in Hin as [->|Hin]; [done|].
    destruct (IH Hin) as [Hrange Hlookup].
    rewrite bool_decide_eq_false_2 by lia.
    split; [simpl length; lia|].
    replace (Z.to_nat (indexOf rest x + 1)) with (S (Z.to_nat (indexOf rest x)))
      by lia.
    done.
Qed.

Lemma nearest_spec lineIndex indices first :
  (foldl (nearer lineIndex) first indices = first
   ∨ foldl (nearer lineIndex) first indices ∈ indices) ∧
  (distance (foldl (nearer lineIndex) first indices) lineIndex
   ≤ distance first lineIndex)%Z ∧
  Forall (λ y, (distance (foldl (nearer lineIndex) first indices) lineIndex
                ≤ distance y lineIndex)%Z) indices.
Proof.
  revert first. induction indices as [|y rest IH]; intros first.
  - simpl. split_and!; [by left|lia|constructor].
  - simpl foldl. destruct (IH (nearer lineIndex first y)) as (Hin & Hle & Hall).
    assert (Hstep : (nearer lineIndex first y = first
                     ∧ (distance first lineIndex ≤ distance y lineIndex)%Z)
                    ∨ (nearer lineIndex first y = y
                       ∧ (distance y lineIndex < distance first lineIndex)%Z)).
    { unfold nearer. case_bool_decide; [right|left]; split; (done || lia). }
    set (r := foldl (nearer lineIndex) (nearer lineIndex first y) rest) in *.
    split_and!.
    + destruct Hin as [->|Hin]; [|right; by right].
      destruct Hstep as [[-> _]|[-> _]]; [by left|right; by left].
    + destruct Hstep as [[Heq ?]|[Heq ?]]; rewrite Heq in Hle; lia.
    + constructor; [|done].
      destruct Hstep as [[Heq ?]|[Heq ?]]; rewrite Heq in Hle; lia.
Qed.

Lemma jumpToDiff_range indices lineIndex :
  0 < length indices →
  ∃ x, (0 ≤ jumpToDiff indices lineIndex < Z.of_nat (length indices))%Z ∧
       indices !! Z.to_nat (jumpToDiff indices lineIndex) = Some x ∧
       Forall (λ y, (distance x lineIndex ≤ distance y lineIndex)%Z) indices.
Proof.
  intros Hn. unfold jumpToDiff.
  destruct (decide (lineIndex ∈ indices)) as [Hin|Hin].
  - destruct (indexOf_present _ _ Hin) as [Hrange Hlookup].
    rewrite bool_decide_eq_true_2 by lia.
    exists lineIndex. split_and!; [lia|lia|done|].
    apply Forall_forall. intros y _. unfold distance. lia.
  - rewrite indexOf_absent by done. rewrite bool_decide_eq_false_2 by lia.
    destruct indices as [|first rest]; [simpl in Hn; lia|].
    destruct (nearest_spec lineIndex (first :: rest) first) as (Hmem & _ & Hall).
    set (nearest := foldl (nearer lineIndex) first (first :: rest)) in *.
    assert (Hnearest : nearest ∈ first :: rest).
    { destruct Hmem as [->|?]; [by left|done]. }
    destruct (indexOf_present _ _ Hnearest) as [Hrange Hlookup].
    exists nearest. split_and!; [lia|lia|done..].
Qed.






(** ** The Report Serializer *)

Lemma string_app_cons d (a b : string) : String d a +:+ b = String d (a +:+ b).
Proof. done. Qed.

Lemma string_app_assoc (a b c : string) : (a +:+ b) +:+ c = a +:+ (b +:+ c).
Proof.
  induction a as [|d a IH]; [done|]. by rewrite !string_app_cons, IH.
Qed.

Lemma replaceChar_app c by' a b :
  replaceChar c by' (a +:+ b) = replaceChar c by' a +:+ replaceChar c by' b.
Proof.
  induction a as [|d a IH]; [done|]. simpl.
  destruct (Ascii.eqb d c); simpl; rewrite IH; [|done].
  by rewrite string_app_assoc.
Qed.

Lemma replaceAll_app a b : replaceAll (a +:+ b) = replaceAll a +:+ replaceAll b.
Proof. unfold replaceAll. by rewrite !replaceChar_app. Qed.

Ltac classify c :=
  let E := fresh "E" in
  destruct (Ascii.eqb c "&") eqn:E;
  [apply Ascii.eqb_eq in E; subst c|
   let E := fresh "E" in
   destruct (Ascii.eqb c "<") eqn:E;
   [apply Ascii.eqb_eq in E; subst c|
    let E := fresh "E" in
    destruct (Ascii.eqb c ">") eqn:E;
    [apply Ascii.eqb_eq in E; subst c|
     let E := fresh "E" in
     destruct (Ascii.eqb c "034") eqn:E;
     [apply Ascii.eqb_eq in E; subst c|]]]].

Lemma replaceAll_one c : replaceAll (String c "") = escapeChar c.
Proof.
  unfold replaceAll, escapeChar. classify c; try reflexivity.
  simpl. rewrite E. simpl. rewrite E0. simpl. rewrite E1. simpl. by rewrite E2.
Qed.

Lemma replaceAll_each s : replaceAll s = escapeEach s.
Proof.
  induction s as [|c s IH]; [done|].
  change (String c s) with (String c "" +:+ s).
  rewrite replaceAll_app, replaceAll_one, IH. done.
Qed.

Lemma escapeHtml_each s : escapeHtml (Some s) = escapeEach s.
Proof.
  unfold escapeHtml. destruct s as [|c s]; [done|]. simpl negb. cbv iota.
  apply replaceAll_each.
Qed.

Lemma countChar_app c a b :
  countChar c (a +:+ b) = countChar c a + countChar c b.
Proof. induction a as [|d a IH]; [done|]. simpl. rewrite IH. lia. Qed.

Lemma escapeEach_counts s :
  countChar "<" (escapeEach s) = 0 ∧
  countChar ">" (escapeEach s) = 0 ∧
  countChar "034" (escapeEach s) = 0 ∧
  countChar "&" (escapeEach s)
  = countChar "&" s + countChar "<" s + countChar ">" s + countChar "034" s.
Proof.
  induction s as [|c s (IH1 & IH2 & IH3 & IH4)]; [done|].
  simpl escapeEach. rewrite !countChar_app, IH1, IH2, IH3, IH4.
  unfold escapeChar. classify c; simpl; try (split_and!; lia).
  rewrite E, E0, E1, E2. split_and!; lia.
Qed.

(** X20. [escapeHtml] replaces each code unit on its own, although it runs
    four replacements one after the other: the entities it has written are
    not escaped again. Its result holds no [<], no [>] and no double quote,
    and one [&] for each of the four characters of its argument. *)
Theorem escapeHtml_escapes (str : option string) :
  escapeHtml str = escapeEach (default "" str) ∧
  countChar "<" (escapeHtml str) = 0 ∧
  countChar ">" (escapeHtml str) = 0 ∧
  countChar "034" (escapeHtml str) = 0 ∧
  countChar "&" (escapeHtml str)
  = countChar "&" (default "" str) + countChar "<" (default "" str)
    + countChar ">" (default "" str) + countChar "034" (default "" str).
Proof.
  assert (escapeHtml str = escapeEach (default "" str)) as ->.
  { destruct str as [s|]; [apply escapeHtml_each|done]. }
  split; [done|]. apply escapeEach_counts.
Qed.

Lemma escapeEach_inj s t : escapeEach s = escapeEach t → s = t.
Proof.
  revert t. induction s as [|c s IH]; intros [|d t]; simpl.
  - done.
  - unfold escapeChar. classify d; simpl; discriminate.
  - unfold escapeChar. classify c; simpl; discriminate.
  - unfold escapeChar. classify c; classify d; simpl; intros H;
      simplify_eq/=; try (f_equal; by apply IH).
Qed.

(** X21. [escapeHtml] loses nothing: two strings with the same escaped form
    are the same string. *)
Theorem escapeHtml_injective (s t : string) :
  escapeHtml (Some s) = escapeHtml (Some t) → s = t.
Proof. rewrite !escapeHtml_each. apply escapeEach_inj. Qed.

Lemma escapeHtml_injective_witness :
  escapeHtml (Some "a<b") = escapeHtml (Some "a<b") ∧ "a<b" = "a<b".
Proof.
  split; [reflexivity|]. apply (escapeHtml_injective "a<b" "a<b"). reflexivity.
Defined.

Lemma orEmpty_id x : orEmpty x = x.
Proof. by destruct x. Qed.

Lemma countChar_digits c s :
  isDigit c = false → allDigits s = true → countChar c s = 0.
Proof.
  intros Hc. induction s as [|d s IH]; [done|]. simpl.
  intros [Hd Hs]%andb_true_iff. rewrite IH by done.
  destruct (Ascii.eqb d c) eqn:E; [|done].
  apply Ascii.eqb_eq in E. congruence.
Qed.

Lemma countChar_showNat c n : isDigit c = false → countChar c (showNat n) = 0.
Proof. intros Hc. apply countChar_digits; [done|apply string_of_uint_digits]. Qed.

Lemma countChar_showNumOrEmpty c num :
  isDigit c = false → countChar c (showNumOrEmpty num) = 0.
Proof.
  intros Hc. destruct num as [[|k]|]; [done| |done].
  by apply countChar_showNat.
Qed.

Lemma countChar_cons c d s :
  countChar c (String d s) = (if Ascii.eqb d c then 1 else 0) + countChar c s.
Proof. done. Qed.

Lemma countChar_joinLines c lines :
  c ≠ newline →
  countChar c (joinLines lines) = sum_list (countChar c <$> lines).
Proof.
  intros Hc. induction lines as [|line lines IH]; [done|].
  destruct lines as [|line' lines].
  { change (joinLines [line]) with line. simpl. lia. }
  rewrite joinLines_cons by done.
  rewrite countChar_app, countChar_cons, IH.
  replace (Ascii.eqb newline c) with false; [done|].
  symmetry. apply Ascii.eqb_neq. congruence.
Qed.

Lemma countChar_concat c lines :
  countChar c (String.concat "" lines) = sum_list (countChar c <$> lines).
Proof.
  induction lines as [|line lines IH]; [done|].
  destruct lines as [|line' lines].
  { change (String.concat "" [line]) with line. simpl. lia. }
  change (String.concat "" (line :: line' :: lines))
    with (line +:+ "" +:+ String.concat "" (line' :: lines)).
  rewrite !countChar_app, IH. done.
Qed.

Lemma countChar_trimStart c s :
  isWhiteSpace c = false → countChar c (trimStart s) = countChar c s.
Proof.
  intros Hc. induction s as [|d s IH]; [done|]. simpl.
  destruct (isWhiteSpace d) eqn:Hd; [|done].
  rewrite IH. destruct (Ascii.eqb d c) eqn:E; [|done].
  apply Ascii.eqb_eq in E. congruence.
Qed.

Lemma countChar_trimEnd c s :
  isWhiteSpace c = false → countChar c (trimEnd s) = countChar c s.
Proof.
  intros Hc. induction s as [|d s IH]; [done|]. simpl.
  destruct (trimEnd s) as [|d' t] eqn:Ht.
  - simpl in IH. rewrite <- IH.
    destruct (isWhiteSpace d) eqn:Hd; [|done].
    destruct (Ascii.eqb d c) eqn:E; [|done].
    apply Ascii.eqb_eq in E. congruence.
  - simpl in *. by rewrite IH.
Qed.

Lemma countChar_trim c s :
  isWhiteSpace c = false → countChar c (trim s) = countChar c s.
Proof.
  intros Hc. unfold trim. by rewrite countChar_trimEnd, countChar_trimStart.
Qed.

Lemma countChar_escapeHtml c str : markupChar c → countChar c (escapeHtml str) = 0.
Proof.
  assert (escapeHtml str = escapeEach (default "" str)) as ->.
  { destruct str as [s|]; [apply escapeHtml_each|done]. }
  destruct (escapeEach_counts (default "" str)) as (H1 & H2 & H3 & _).
  by intros [ -> | [ -> | -> ] ].
Qed.

Lemma countChar_reportRow c e :
  markupChar c →
  countChar c (reportRow e)
  = if Ascii.eqb c "034" then 8 else 10.
Proof.
  intros Hc. unfold reportRow.
  rewrite countChar_joinLines by (by destruct Hc as [ -> | [ -> | -> ] ]).
  cbn [fmap list_fmap sum_list sum_list_with].
  rewrite !countChar_app, !orEmpty_id, !countChar_escapeHtml by done.
  rewrite !countChar_showNumOrEmpty by (by destruct Hc as [ -> | [ -> | -> ] ]).
  destruct e as [[] ll ln rl rn]; destruct Hc as [ -> | [ -> | -> ] ]; reflexivity.
Qed.

Lemma countChar_reportRows c diff :
  markupChar c →
  countChar c (reportRows diff)
  = (if Ascii.eqb c "034" then 8 else 10) * length diff.
Proof.
  intros Hc. unfold reportRows. rewrite countChar_concat.
  induction diff as [|e diff IH]; [simpl; lia|].
  cbn [fmap list_fmap sum_list sum_list_with length] in *.
  rewrite IH, countChar_reportRow by done. unfold id.
  destruct (Ascii.eqb c "034"); lia.
Qed.

(** X22. The markup of the report does not depend on the text of the lines:
    whatever the entries hold, the report has ten [<], ten [>] and eight
    double quotes for each entry, besides those of its fixed frame. *)
Theorem generateHTMLReport_markup (leftCode rightCode : string)
    (diff : list DiffEntry) (stats : Stats.t) :
  countChar "<" (generateHTMLReport leftCode rightCode diff stats)
  = 40 + 10 * length diff ∧
  countChar ">" (generateHTMLReport leftCode rightCode diff stats)
  = 40 + 10 * length diff ∧
  countChar "034" (generateHTMLReport leftCode rightCode diff stats)
  = 10 + 8 * length diff.
Proof.
  unfold generateHTMLReport. rewrite !countChar_trim by done.
  unfold reportTemplate. rewrite !countChar_joinLines by done.
  cbn [fmap list_fmap sum_list sum_list_with].
  rewrite !countChar_app, !countChar_showNat by done.
  rewrite !countChar_reportRows by (unfold markupChar; auto).
  split_and!; simpl; lia.
Qed.

(** ** Inputs that are equal up to the normalisation *)

(** With a match at every position of two lists of the same length the main
    loop pushes only unchanged entries. *)
Lemma rawDiff_diagonal (leftFiltered rightFiltered : list string)
    (leftMapping rightMapping : list nat)
    (values : nat → option string) len a :
  a + len = length leftFiltered → a + len = length rightFiltered →
  rawDiff leftFiltered rightFiltered leftMapping rightMapping
          ((λ k, mkMatch k k (values k)) <$> seq a len) a a
  = (λ k, unchangedAt leftFiltered rightFiltered leftMapping rightMapping k k)
    <$> seq a len.
Proof.
  revert a. induction len as [|len IH]; intros a Hl Hr; simpl.
  - by rewrite !bool_decide_eq_false_2 by lia.
  - rewrite !bool_decide_eq_true_2 by lia. simpl.
    unfold pushWhileBelow. rewrite Nat.sub_diag, Nat.max_id. simpl.
    f_equal. rewrite Nat.add_1_r. apply IH; lia.
Qed.

Lemma computeLineDiff_equal_keys_entries o leftLines rightLines :
  processLine o <$> (survivors o leftLines).*2
  = processLine o <$> (survivors o rightLines).*2 →
  computeLineDiff o leftLines rightLines
  = zip_with unchangedPair (survivors o leftLines) (survivors o rightLines).
Proof.
  rewrite !survivors_lines. unfold computeLineDiff.
  rewrite <- !filterLines_numbered.
  pose proof (filterLines_lengths o leftLines) as Hl.
  pose proof (filterLines_lengths o rightLines) as Hr.
  destruct (filterLines o leftLines) as [lf lm].
  destruct (filterLines o rightLines) as [rf rm]. simpl in *.
  intros Hkeys.
  assert (Hlen : length lf = length rf).
  { apply (f_equal length) in Hkeys. by rewrite !length_fmap in Hkeys. }
  rewrite Hkeys, computeLCS_same, length_fmap.
  rewrite rawDiff_diagonal by (simpl; lia).
  rewrite mergeBlocks_no_deleted
    by (apply Forall_fmap, Forall_forall; by intros k _).
  apply list_eq. intros i.
  rewrite list_lookup_fmap, lookup_zip_with.
  destruct (decide (i < length rf)) as [Hi|Hi].
  - destruct (numbered_lookup lf lf lm lm Hl Hl lf lm i Hl ltac:(lia))
      as (n & l & -> & Hline & Hn).
    destruct (numbered_lookup rf rf rm rm Hr Hr rf rm i Hr Hi)
      as (n' & l' & -> & Hline' & Hn').
    rewrite lookup_seq_lt by done. simpl.
    unfold unchangedAt, unchangedPair. by rewrite Hline, Hn, Hline', Hn'.
  - rewrite lookup_seq_ge by lia.
    rewrite (lookup_ge_None_2 (numbered lf lm)); [done|].
    rewrite (numbered_length lf lf lm lm Hl Hl) by done. lia.
Qed.

(** X23. Two inputs whose compared lines have the same keys, one by one,
    have no difference: the diff pairs the lines in order in unchanged
    entries, each with the line of the left input on its left side and the
    line of the right input on its right side. *)
Theorem computeLineDiff_equal_keys (o : Options)
    (leftLines rightLines : list string) :
  processLine o <$> (survivors o leftLines).*2
  = processLine o <$> (survivors o rightLines).*2 →
  computeLineDiff o leftLines rightLines
  = zip_with unchangedPair (survivors o leftLines) (survivors o rightLines).
Proof. apply computeLineDiff_equal_keys_entries. Qed.

Lemma computeLineDiff_equal_keys_witness :
  processLine (mkOptions true true true)
    <$> (survivors (mkOptions true true true) ["Hello  World"; ""; "end"]).*2
  = processLine (mkOptions true true true)
    <$> (survivors (mkOptions true true true) [" hello world"; "END"; "  "]).*2 ∧
  computeLineDiff (mkOptions true true true)
    ["Hello  World"; ""; "end"] [" hello world"; "END"; "  "]
  = [mkEntry unchanged (Some "Hello  World") (Some 1) (Some " hello world") (Some 1);
     mkEntry unchanged (Some "end") (Some 3) (Some "END") (Some 2)].
Proof.
  split; [reflexivity|].
  rewrite (computeLineDiff_equal_keys (mkOptions true true true)
             ["Hello  World"; ""; "end"] [" hello world"; "END"; "  "]);
    reflexivity.
Defined.

(** ** More on the Patch Serializer *)

Lemma string_length_app (a b : string) :
  String.length (a +:+ b) = String.length a + String.length b.
Proof.
  induction a as [|c a IH]; [done|]. rewrite string_app_cons. simpl.
  by rewrite IH.
Qed.

(** Lines after the two header lines make the patch longer. *)
Lemma joinLines_headers_only h1 h2 hunk :
  joinLines ([h1; h2] ++ hunk) = joinLines [h1; h2] → hunk = [].
Proof.
  destruct hunk as [|x hunk]; [done|]. intros Heq.
  apply (f_equal String.length) in Heq. revert Heq.
  cbn [app].
  rewrite (joinLines_cons h1 [h2]), (joinLines_cons h1 (h2 :: x :: hunk)),
    (joinLines_cons h2 (x :: hunk)) by done.
  change (joinLines [h2]) with h2.
  rewrite !string_length_app. simpl String.length.
  rewrite !string_length_app. simpl String.length. lia.
Qed.

Lemma dropWhile_all {A} (p : A → bool) (l : list A) :
  Forall (λ x, p x = true) l → dropWhile p l = [].
Proof. induction 1 as [|x l Hx _ IH]; [done|]. simpl. by rewrite Hx. Qed.

Lemma diffTexts_Script leftCode rightCode :
  Script (processLine defaultOptions)
         (diffTexts defaultOptions leftCode rightCode)
         (numberedFrom 1 (splitLines leftCode))
         (numberedFrom 1 (splitLines rightCode)).
Proof. rewrite <- !survivors_default. apply computeLineDiff_Script. Qed.

(** A diff of two texts without a changed entry is a diff of one text. *)
Lemma diffTexts_no_change leftCode rightCode :
  dropWhile (isType unchanged) (diffTexts defaultOptions leftCode rightCode) = [] →
  leftCode = rightCode.
Proof.
  intros Hdrop. pose proof (diffTexts_Script leftCode rightCode) as Hs.
  pose proof (takeWhile_dropWhile (isType unchanged)
                (diffTexts defaultOptions leftCode rightCode)) as Hsplit.
  rewrite Hdrop, app_nil_r in Hsplit.
  pose proof (takeWhile_Forall (isType unchanged)
                (diffTexts defaultOptions leftCode rightCode)) as Hall.
  rewrite Hsplit in Hall.
  destruct (Script_all_unchanged _ _ _ _ (λ l, eq_refl) Hs Hall) as [Hsame _].
  rewrite !numberedFrom_lines in Hsame.
  rewrite <- (joinLines_splitLines leftCode), <- (joinLines_splitLines rightCode).
  by rewrite Hsame.
Qed.

Lemma diffTexts_same code :
  Forall (λ e, isType unchanged e = true) (diffTexts defaultOptions code code).
Proof.
  unfold diffTexts. rewrite computeLineDiff_equal_keys_entries by done.
  apply Forall_forall. intros e [i Hi]%list_elem_of_lookup.
  apply lookup_zip_with_Some in Hi as (l & r & -> & _). done.
Qed.

(** X24. The patch of two texts is its two header lines alone exactly when
    the two texts are the same. *)
Theorem generateUnifiedPatch_headers_only
    (leftCode rightCode leftFileName rightFileName : string) :
  generateUnifiedPatch leftCode rightCode leftFileName rightFileName
  = joinLines ["--- " +:+ leftFileName; "+++ " +:+ rightFileName]
  ↔ leftCode = rightCode.
Proof.
  unfold generateUnifiedPatch. rewrite patchLines_singleHunk.
  fold (diffTexts defaultOptions leftCode rightCode). split.
  - intros Hpatch%joinLines_headers_only. apply diffTexts_no_change.
    unfold singleHunk in Hpatch.
    by destruct (dropWhile _ _).
  - intros <-. unfold singleHunk.
    by rewrite (dropWhile_all _ _ (diffTexts_same leftCode)).
Qed.

Lemma Script_line_counts key diff ls rs :
  Script key diff ls rs →
  leftCount diff = length ls ∧ rightCount diff = length rs.
Proof.
  induction 1 as [ | ? ? ? ? ? ? ? ? ? [IHl IHr] | ? ? ? ? ? ? [IHl IHr]
                   | ? ? ? ? ? ? [IHl IHr] | ? ? ? ? ? ? ? ? [IHl IHr] ];
    rewrite ?leftCount_cons, ?rightCount_cons; simpl; [done|lia..].
Qed.

(** X25. The hunk of the patch of two different texts starts on both sides
    at the line after the leading unchanged entries and runs to the end of
    both texts: its range line counts all the lines that are left of each
    text, and its body holds every entry from the first change on. *)
Theorem generateUnifiedPatch_hunk_to_the_end
    (leftCode rightCode leftFileName rightFileName : string) :
  leftCode ≠ rightCode →
  generateUnifiedPatch leftCode rightCode leftFileName rightFileName
  = joinLines
      (["--- " +:+ leftFileName; "+++ " +:+ rightFileName]
       ++ rangeLine
            (leadingUnchanged (diffTexts defaultOptions leftCode rightCode) + 1)
            (length (splitLines leftCode)
             - leadingUnchanged (diffTexts defaultOptions leftCode rightCode))
            (leadingUnchanged (diffTexts defaultOptions leftCode rightCode) + 1)
            (length (splitLines rightCode)
             - leadingUnchanged (diffTexts defaultOptions leftCode rightCode))
          :: (dropWhile (isType unchanged)
                        (diffTexts defaultOptions leftCode rightCode)
              ≫= bodyLines)).
Proof.
  intros Hne. unfold generateUnifiedPatch. rewrite patchLines_singleHunk.
  fold (diffTexts defaultOptions leftCode rightCode).
  pose proof (diffTexts_Script leftCode rightCode) as Hs.
  pose proof (diffTexts_no_change leftCode rightCode) as Hno.
  unfold singleHunk, leadingUnchanged.
  set (diff := diffTexts defaultOptions leftCode rightCode) in *.
  rewrite <- (takeWhile_dropWhile (isType unchanged) diff) in Hs.
  apply Script_split in Hs as (ls1 & ls2 & rs1 & rs2 & Hl & Hr & Hs1 & Hs2).
  destruct (Script_all_unchanged _ _ _ _ (λ l, eq_refl) Hs1 (takeWhile_Forall _ _))
    as [Hsame Hlen].
  assert (Hlen' : length rs1 = length ls1).
  { apply (f_equal length) in Hsame. by rewrite !length_fmap in Hsame. }
  destruct (Script_line_counts _ _ _ _ Hs2) as [Hlc Hrc].
  assert (HL : length (splitLines leftCode) = length ls1 + length ls2).
  { rewrite <- length_app, <- Hl. unfold numberedFrom.
    rewrite length_zip, length_seq. lia. }
  assert (HR : length (splitLines rightCode) = length rs1 + length rs2).
  { rewrite <- length_app, <- Hr. unfold numberedFrom.
    rewrite length_zip, length_seq. lia. }
  destruct (dropWhile (isType unchanged) diff) as [|first hunk] eqn:Hdrop.
  { destruct Hne. by apply Hno. }
  destruct (Script_head_numbers _ _ _ _ _ _ _ _ _ Hs2 Hl Hr) as [Hfl Hfr].
  rewrite <- Hlen, Hlc, Hrc. rewrite <- Hlen' at 2. rewrite Hfl, Hfr.
  do 4 f_equal; lia.
Qed.

Lemma generateUnifiedPatch_hunk_to_the_end_witness :
  joinLines ["a"; "b"; "c"] ≠ joinLines ["a"; "x"; "c"] ∧
  generateUnifiedPatch (joinLines ["a"; "b"; "c"]) (joinLines ["a"; "x"; "c"])
                       "original" "modified"
  = joinLines ["--- original"; "+++ modified"; "@@ -2,2 +2,2 @@";
               "-b"; "+x"; " c"].
Proof.
  split; [discriminate|].
  rewrite (generateUnifiedPatch_hunk_to_the_end
             (joinLines ["a"; "b"; "c"]) (joinLines ["a"; "x"; "c"])
             "original" "modified"); [reflexivity|discriminate].
Defined.

(** ** The size of a diff, and the two inputs exchanged *)

(** X26. A diff has an entry for every line compared: at least as many
    entries as either input has lines to compare, and at most as many as both
    have together; each unchanged or modified entry saves one. *)
Theorem computeLineDiff_length (o : Options) (leftLines rightLines : list string) :
  length (survivors o leftLines)
  ≤ length (computeLineDiff o leftLines rightLines) ∧
  length (survivors o rightLines)
  ≤ length (computeLineDiff o leftLines rightLines) ∧
  length (computeLineDiff o leftLines rightLines)
  + Stats.unchanged (stats (computeLineDiff o leftLines rightLines))
  + Stats.modified (stats (computeLineDiff o leftLines rightLines))
  = length (survivors o leftLines) + length (survivors o rightLines).
Proof.
  pose proof (computeLineDiff_Script o leftLines rightLines) as Hs.
  destruct (Script_counts _ _ _ _ Hs) as [Hl Hr].
  pose proof (countType_total (computeLineDiff o leftLines rightLines)) as Ht.
  rewrite stats_counts. simpl. lia.
Qed.

Section LcsLength.
Context {K : Type} `{EqDecision K}.

Lemma IsLcsLength_unique (l r : list K) k k' :
  IsLcsLength l r k → IsLcsLength l r k' → k = k'.
Proof.
  intros [(s & Hl & Hr & Hs) Hmax] [(s' & Hl' & Hr' & Hs') Hmax'].
  pose proof (Hmax s' Hl' Hr'). pose proof (Hmax' s Hl Hr). lia.
Qed.

Lemma IsLcsLength_sym (l r : list K) k :
  IsLcsLength l r k → IsLcsLength r l k.
Proof.
  intros [(s & Hl & Hr & Hs) Hmax]. split; [by exists s|].
  intros s' ? ?. by apply Hmax.
Qed.
End LcsLength.

(** X27. With the two inputs exchanged, as [handleSwap] does, the diff keeps
    as many lines unchanged, and the lines changed on each side are those
    changed on the other side before: deleted + modified becomes
    added + modified and back. *)
Theorem stats_of_swapped_inputs (o : Options) (leftLines rightLines : list string) :
  Stats.unchanged (stats (computeLineDiff o rightLines leftLines))
  = Stats.unchanged (stats (computeLineDiff o leftLines rightLines)) ∧
  Stats.deleted (stats (computeLineDiff o rightLines leftLines))
  + Stats.modified (stats (computeLineDiff o rightLines leftLines))
  = Stats.added (stats (computeLineDiff o leftLines rightLines))
    + Stats.modified (stats (computeLineDiff o leftLines rightLines)) ∧
  Stats.added (stats (computeLineDiff o rightLines leftLines))
  + Stats.modified (stats (computeLineDiff o rightLines leftLines))
  = Stats.deleted (stats (computeLineDiff o leftLines rightLines))
    + Stats.modified (stats (computeLineDiff o leftLines rightLines)).
Proof.
  rewrite !stats_counts. simpl.
  pose proof (IsLcsLength_unique _ _ _ _
                (IsLcsLength_sym _ _ _
                   (unchanged_count_is_lcs_length o rightLines leftLines))
                (unchanged_count_is_lcs_length o leftLines rightLines)) as Hu.
  destruct (Script_counts _ _ _ _ (computeLineDiff_Script o leftLines rightLines))
    as [Hl Hr].
  destruct (Script_counts _ _ _ _ (computeLineDiff_Script o rightLines leftLines))
    as [Hl' Hr'].
  lia.
Qed.

(** ** One text on both sides *)

Lemma zoneStep_no_gap side st e :
  ¬ needsGap side e → Zones.pendingPlaceholders st = 0 →
  Zones.zones (zoneStep side st e) = Zones.zones st ∧
  Zones.pendingPlaceholders (zoneStep side st e) = 0.
Proof.
  intros He Hst. unfold zoneStep.
  destruct (thisSideNum side e) as [n|] eqn:Hthis.
  - simpl. unfold flushZones. by rewrite bool_decide_eq_false_2 by lia.
  - destruct (otherSideNum side e) as [n|] eqn:Hother; [|done].
    destruct He. split; [done|by eexists].
Qed.

Lemma zoneLoop_no_gap side diff st :
  Forall (λ e, ¬ needsGap side e) diff →
  Zones.pendingPlaceholders st = 0 →
  Zones.zones (foldl (zoneStep side) st diff) = Zones.zones st ∧
  Zones.pendingPlaceholders (foldl (zoneStep side) st diff) = 0.
Proof.
  intros Hall. revert st. induction Hall as [|e diff He _ IH]; intros st Hst; [done|].
  destruct (zoneStep_no_gap side st e He Hst) as [Hz Hp].
  destruct (IH (zoneStep side st e) Hp) as [Hz' Hp'].
  simpl foldl. by rewrite Hz', Hp', Hz.
Qed.

(** X28. With the same text on both sides, as after [handleCopyAllToRight]
    or [handleCopyAllToLeft], nothing is left to show or to visit for any
    options: no added, deleted or modified entry, no difference to navigate
    to, no decoration and no placeholder zone on either side. *)
Theorem same_text_shows_no_difference (o : Options) (code : string) (side : Side) :
  Stats.added (stats (diffTexts o code code)) = 0 ∧
  Stats.deleted (stats (diffTexts o code code)) = 0 ∧
  Stats.modified (stats (diffTexts o code code)) = 0 ∧
  diffIndices (diffTexts o code code) = [] ∧
  getLineDecorations (diffTexts o code code) side = [] ∧
  computeViewZones (diffTexts o code code) side = [].
Proof.
  unfold diffTexts.
  rewrite (computeLineDiff_equal_keys_entries o _ _ eq_refl).
  set (lines := survivors o (splitLines code)).
  assert (Hall : Forall (λ e, type e = unchanged ∧ ¬ needsGap side e)
                        (zip_with unchangedPair lines lines)).
  { apply Forall_forall. intros e [i Hi]%list_elem_of_lookup.
    apply lookup_zip_with_Some in Hi as (l & r & -> & _).
    split; [done|]. intros [Hn _]. by destruct side. }
  assert (Hu : Forall (λ e, type e = unchanged) (zip_with unchangedPair lines lines))
    by (eapply Forall_impl; [exact Hall|]; by intros e [? _]).
  assert (Hg : Forall (λ e, ¬ needsGap side e) (zip_with unchangedPair lines lines))
    by (eapply Forall_impl; [exact Hall|]; by intros e [_ ?]).
  rewrite stats_counts. simpl.
  rewrite !countType_none
    by (eapply Forall_impl; [exact Hu|]; intros e He; by rewrite He).
  split_and!; try done.
  - apply length_zero_iff_nil.
    pose proof (indicesFrom_length 0 (zip_with unchangedPair lines lines)) as Hlen.
    rewrite (countType_all _ _ Hu) in Hlen.
    rewrite diffIndices_indicesFrom. lia.
  - unfold getLineDecorations. clear Hall Hg.
    induction Hu as [|e diff He _ IH]; [done|].
    csimpl. by rewrite decorationOf_unchanged, IH.
  - unfold computeViewZones.
    destruct (zoneLoop_no_gap side _ (Zones.mk [] 0 0) Hg eq_refl) as [Hz Hp].
    unfold flushZones. rewrite Hp, Hz. done.
Qed.

(** ** The minimap *)

Lemma markers_markersFrom diff currentDiffIndex indices :
  markers diff currentDiffIndex indices
  = markersFrom 0 diff (lookupZ indices currentDiffIndex).
Proof. unfold markers. case_bool_decide; [by destruct diff|done]. Qed.

Lemma markersFrom_cons k e diff selected :
  markersFrom k (e :: diff) selected
  = (if isType unchanged e then []
     else [Marker.mk k (type e) (bool_decide (selected = Some k))])
    ++ markersFrom (S k) diff selected.
Proof.
  unfold markersFrom. rewrite imap_cons. csimpl.
  rewrite (imap_ext _ (λ index entry,
             if isType unchanged entry then None
             else Some (Marker.mk (S k + index) (type entry)
                          (bool_decide (selected = Some (S k + index))))))
    by (intros i x _; simpl; by replace (k + S i) with (S (k + i)) by lia).
  rewrite Nat.add_0_r. by destruct (isType unchanged e).
Qed.

Lemma markersFrom_indices k diff selected :
  Marker.index <$> markersFrom k diff selected = indicesFrom k diff.
Proof.
  revert k. induction diff as [|e diff IH]; intros k; [done|].
  rewrite markersFrom_cons, indicesFrom_cons, fmap_app, IH.
  by destruct (isType unchanged e).
Qed.

Lemma markersFrom_active k diff selected :
  Marker.index <$> filter (λ m, Marker.isActive m = true)
                          (markersFrom k diff selected)
  = filter (λ i, selected = Some i) (indicesFrom k diff).
Proof.
  revert k. induction diff as [|e diff IH]; intros k; [done|].
  rewrite markersFrom_cons, indicesFrom_cons, !filter_app, fmap_app, IH.
  f_equal. destruct (isType unchanged e); [done|].
  rewrite !filter_cons, !filter_nil. simpl.
  destruct (decide (selected = Some k)) as [Hk|Hk].
  - by rewrite bool_decide_eq_true_2, decide_True by done.
  - by rewrite bool_decide_eq_false_2, decide_False by done.
Qed.

Lemma filter_selected (l : list nat) (selected : option nat) :
  StronglySorted lt l →
  filter (λ i, selected = Some i) l
  = match selected with
    | Some i => if decide (i ∈ l) then [i] else []
    | None => []
    end.
Proof.
  induction 1 as [|x l Hsorted IH Hx]; [by destruct selected|].
  rewrite filter_cons, IH. destruct selected as [i|]; [|done].
  destruct (decide (i = x)) as [->|Hne].
  - rewrite decide_True by done. rewrite (decide_True (P := x ∈ x :: l)) by left.
    rewrite decide_False; [done|].
    intros Hin. apply (proj1 (Forall_forall _ _) Hx) in Hin. lia.
  - rewrite decide_False by congruence.
    destruct (decide (i ∈ l)) as [Hin|Hin].
    + by rewrite decide_True by (by right).
    + rewrite decide_False; [done|]. by intros [?|?]%elem_of_cons.
Qed.

(** X29. The minimap has one marker for each difference, in the order of
    [diffIndices]; the active markers are the marker of the difference that
    is selected, and none when none is selected; a click on the marker of a
    difference, which calls [jumpToDiff] with its index, selects that
    difference. *)
Theorem minimap_marks_differences (diff : list DiffEntry) (currentDiffIndex : Z) :
  Marker.index <$> markers diff currentDiffIndex (diffIndices diff)
  = diffIndices diff ∧
  Marker.index
  <$> filter (λ m, Marker.isActive m = true)
             (markers diff currentDiffIndex (diffIndices diff))
  = option_list (lookupZ (diffIndices diff) currentDiffIndex) ∧
  Forall (λ i, lookupZ (diffIndices diff) (jumpToDiff (diffIndices diff) i)
               = Some i)
         (diffIndices diff).
Proof.
  rewrite markers_markersFrom, markersFrom_indices, markersFrom_active.
  change (diffIndices diff) with (indicesFrom 0 diff).
  split_and!; [done| |].
  - rewrite filter_selected by apply indicesFrom_sorted.
    destruct (lookupZ (indicesFrom 0 diff) currentDiffIndex) as [i|] eqn:Hi;
      [|done].
    rewrite decide_True; [done|].
    unfold lookupZ in Hi. case_bool_decide; [done|].
    by eapply list_elem_of_lookup_2.
  - apply Forall_forall. intros i Hi.
    assert (Hn : 0 < length (indicesFrom 0 diff)).
    { destruct (indicesFrom 0 diff); [by apply elem_of_nil in Hi|simpl; lia]. }
    destruct (jumpToDiff_range (indicesFrom 0 diff) i Hn)
      as (x & Hrange & Hlookup & Hall).
    unfold lookupZ. rewrite bool_decide_eq_false_2 by lia.
    rewrite Hlookup. f_equal.
    apply (proj1 (Forall_forall _ _) Hall) in Hi. unfold distance in Hi. lia.
Qed.

(** ** Ignoring more *)

Section CoarserKeys.
Context {K : Type} `{EqDecision K}.

(** Keys that are made coarser have a common subsequence that is at least as
    long. *)
Lemma IsLcsLength_fmap_le (f : K → K) (l r : list K) k k' :
  IsLcsLength l r k → IsLcsLength (f <$> l) (f <$> r) k' → k ≤ k'.
Proof.
  intros [(s & Hl & Hr & <-) _] [_ Hmax].
  rewrite <- (length_fmap f s).
  apply Hmax; by apply fmap_sublist.
Qed.
End CoarserKeys.

Lemma survivors_options o o' lines :
  ignoreBlankLines o' = ignoreBlankLines o →
  survivors o' lines = survivors o lines.
Proof.
  intros Hb. unfold survivors. apply list_filter_iff. intros nl.
  unfold keeps. by rewrite Hb.
Qed.

Lemma unchanged_count_coarser o o' (f : string → string) leftLines rightLines :
  ignoreBlankLines o' = ignoreBlankLines o →
  (∀ line, processLine o' line = f (processLine o line)) →
  countType unchanged (computeLineDiff o leftLines rightLines)
  ≤ countType unchanged (computeLineDiff o' leftLines rightLines).
Proof.
  intros Hb Hf.
  pose proof (unchanged_count_is_lcs_length o leftLines rightLines) as H1.
  pose proof (unchanged_count_is_lcs_length o' leftLines rightLines) as H2.
  rewrite !(survivors_options o o') in H2 by done.
  rewrite !(list_fmap_ext (processLine o') (f ∘ processLine o)) in H2
    by (intros; apply Hf).
  rewrite !list_fmap_compose in H2.
  exact (IsLcsLength_fmap_le f _ _ _ _ H1 H2).
Qed.

(** X30. Ignoring more never shows more differences among the lines
    compared: with [ignoreCase] turned on the diff of the same inputs has at
    least as many unchanged entries as before, whatever the other options;
    and so it has with [ignoreWhitespace] turned on while [ignoreCase] is
    off. In both cases the new key of a line is a function of its old key.
    (With [ignoreCase] on the key is lowered after the white space is
    normalised, and nothing is said of that case.) *)
Theorem ignoring_more_keeps_more (o : Options) (leftLines rightLines : list string) :
  Stats.unchanged (stats (computeLineDiff o leftLines rightLines))
  ≤ Stats.unchanged
      (stats (computeLineDiff
                (mkOptions (ignoreWhitespace o) true (ignoreBlankLines o))
                leftLines rightLines)) ∧
  Stats.unchanged
    (stats (computeLineDiff (mkOptions false false (ignoreBlankLines o))
                            leftLines rightLines))
  ≤ Stats.unchanged
      (stats (computeLineDiff (mkOptions true false (ignoreBlankLines o))
                              leftLines rightLines)).
Proof.
  rewrite !stats_counts. simpl. destruct o as [ws ic bl]. simpl. split.
  - destruct ic; [done|].
    by apply (unchanged_count_coarser _ _ toLowerCase).
  - by apply (unchanged_count_coarser _ _
                (λ key, trim (collapseWhiteSpace key))).
Qed.
